(** * Onfix landing page: a shallow embedding of [main.js]

    The script loads eight HTML fragments one after the other into
    placeholder containers and then wires the page's interactions.  The
    development below embeds the script function by function over an explicit
    browser state ([world]) and settles the properties stated about it.

    Representation choices, fixed here once:
    - a JavaScript string is the [string] of the bytes of its UTF-8 encoding;
      an unpaired surrogate, which UTF-8 does not encode, is kept as the
      three bytes of its generalised encoding (see [lone_surrogate]);
    - element objects live on a heap indexed by node number, the document
      keeps the attached nodes in document order;
    - code that may throw runs in a state-and-exception monad [M];
    - closures handed to the browser (event listeners, observer callbacks)
      are first-order values of [handler] and [observer_callback], with the
      variables they capture as arguments;
    - a scroll offset is a rational number, which covers every finite value
      [window.scrollY] can take.

    Embedded: the manifest, [loadSection], [loadAllSectionsSequentially],
    [initInteractions] and the routines it calls, the [DOMContentLoaded]
    listener of the navbar with its scroll handler, the three observer
    callbacks and [window.observeLazy], the two submit handlers, and the
    listeners of the lightbox and of the floating labels.  The two async
    functions are embedded twice: as they run when nothing else is
    scheduled between a request and its reply (in [M]), and as tasks of the
    event loop (module [Async]), where a request and its reply are two
    events and other tasks may run in between; [alone_is_atomic] relates
    the two.
    The bodies of the tilt and card-scroller listeners, the hero-background
    block and the timer at the end of the file depend on layout, pointer
    positions and timing that the state does not record; these listeners
    are registered here but not run. *)

From Stdlib Require Import Ascii String NArith QArith.
From stdpp Require Import base option list strings gmap pretty.

Open Scope string_scope.
Open Scope list_scope.
Open Scope nat_scope.

(** ** Strings as the platform handles them *)

Module JsString.

Definition LF : string := String (ascii_of_N 10) "".

Definition code (c : ascii) : N := N_of_ascii c.

Definition between (lo hi : N) (c : ascii) : bool :=
  ((lo <=? code c) && (code c <=? hi))%N.

(** The characters [encodeURIComponent] leaves alone:
    [A-Z a-z 0-9 - _ . ! ~ * ' ( )]. *)
Definition unreserved (c : ascii) : bool :=
  between 65 90 c || between 97 122 c || between 48 57 c
  || bool_decide (c ∈ ["-"; "_"; "."; "!"; "~"; "*"; "'"; "("; ")"]%char).

Definition hex_digit (n : N) : ascii :=
  if (n <? 10)%N then ascii_of_N (48 + n) else ascii_of_N (55 + n).

Definition hex_value (c : ascii) : option N :=
  if between 48 57 c then Some (code c - 48)%N
  else if between 65 70 c then Some (code c - 55)%N
  else if between 97 102 c then Some (code c - 87)%N
  else None.

Definition percent_byte (c : ascii) : string :=
  String "%" (String (hex_digit (code c / 16)) (String (hex_digit (code c mod 16)) "")).

(** [encodeURIComponent], byte by byte over the UTF-8 form of the string. *)
Fixpoint encodeURIComponent (s : string) : string :=
  match s with
  | "" => ""
  | String c rest =>
      (if unreserved c then String c "" else percent_byte c)
        +:+ encodeURIComponent rest
  end.

(** An unpaired surrogate (U+D800 to U+DFFF) has no UTF-8 form; a string
    that holds one keeps it as the three bytes ED, A0..BF, 80..BF of the
    generalised encoding.  A surrogate pair is one supplementary character
    and has the usual four-byte form, so the byte ED followed by a byte in
    A0..BF marks an unpaired surrogate.  On a string that holds one the
    platform's [encodeURIComponent] throws a [URIError]; the function above
    is its result on every other string. *)
Fixpoint lone_surrogate (s : string) : bool :=
  match s with
  | "" => false
  | String a rest =>
      match rest with
      | String b _ => between 237 237 a && between 160 191 b
      | "" => false
      end || lone_surrogate rest
  end.

(** Percent-decoding of a query component; [None] on a malformed escape. *)
Fixpoint percent_decode (s : string) : option string :=
  match s with
  | "" => Some ""
  | String c rest =>
      if Ascii.eqb c "%" then
        match rest with
        | String h (String l rest') =>
            match hex_value h, hex_value l, percent_decode rest' with
            | Some hi, Some lo, Some d => Some (String (ascii_of_N (16 * hi + lo)) d)
            | _, _, _ => None
            end
        | _ => None
        end
      else String c <$> percent_decode rest
  end.

(** ECMAScript white space and line terminators, in UTF-8. *)
Definition bytes (l : list N) : string :=
  foldr (fun n s => String (ascii_of_N n) s) "" l.

Definition white_space : list string :=
  bytes <$> [ [9]; [10]; [11]; [12]; [13]; [32]; [194; 160]; [225; 154; 128];
              [226; 128; 128]; [226; 128; 129]; [226; 128; 130]; [226; 128; 131];
              [226; 128; 132]; [226; 128; 133]; [226; 128; 134]; [226; 128; 135];
              [226; 128; 136]; [226; 128; 137]; [226; 128; 138]; [226; 128; 168];
              [226; 128; 169]; [226; 128; 175]; [226; 129; 159]; [227; 128; 128];
              [239; 187; 191] ]%N.

Fixpoint strip_prefix (p s : string) : option string :=
  match p, s with
  | "", _ => Some s
  | String a p', String b s' => if Ascii.eqb a b then strip_prefix p' s' else None
  | _, _ => None
  end.

Definition strip_white_space (s : string) : option string :=
  list_find (fun r : option string => is_Some r) ((fun p => strip_prefix p s) <$> white_space)
    ≫= snd.

Fixpoint trimStart_fuel (fuel : nat) (s : string) : string :=
  match fuel with
  | O => s
  | S fuel' =>
      match strip_white_space s with
      | Some s' => trimStart_fuel fuel' s'
      | None => s
      end
  end.

Definition trimStart (s : string) : string := trimStart_fuel (String.length s) s.

Definition reverse_string (s : string) : string :=
  string_of_list_ascii (reverse (list_ascii_of_string s)).

Definition strip_white_space_end (s : string) : option string :=
  list_find (fun r : option string => is_Some r)
    ((fun p => strip_prefix (reverse_string p) s) <$> white_space) ≫= snd.

Fixpoint trimEnd_fuel (fuel : nat) (s : string) : string :=
  match fuel with
  | O => s
  | S fuel' =>
      match strip_white_space_end s with
      | Some s' => trimEnd_fuel fuel' s'
      | None => s
      end
  end.

(** [String.prototype.trim]. *)
Definition trim (s : string) : string :=
  let s1 := trimStart s in
  reverse_string (trimEnd_fuel (String.length s1) (reverse_string s1)).

End JsString.

Import JsString.

(** ** The browser state *)

Definition node := nat.

Inductive js_error :=
  | JsError (message : string)
  | TypeError (message : string)
  | ReferenceError (message : string)
  | URIError (message : string).

(** What an element holds after an assignment to [innerHTML] or to
    [textContent]. *)
Inductive contents :=
  | Markup (html : string)
  | Text (text : string).

(** Values written to [style] properties.  The parallax offsets are computed
    in floating point by the script; they are kept as the formula's inputs. *)
Inductive css_value :=
  | CssText (s : string)
  | MockupParallax (sc : Q)          (* translateY(max(-18, -sc * 0.08)px) *)
  | FloatParallax (i : nat) (sc : Q) (* translateY(max(-24, -sc * d)px) rotate(..) *).

Inductive FormDataEntryValue :=
  | FDString (s : string)
  | FDFile (filename : string).

Record element := Element {
  tagName : string;
  ident : option string;                 (* the id attribute *)
  classList : list string;
  attributes : gmap string string;       (* every other attribute *)
  ancestors : list node;                 (* enclosing elements, nearest first *)
  inner : contents;
  value : option string;
    (* the value property: the text of a control; for [li], [progress] and
       [meter], whose property is a number, the text of that number *)
  style : gmap string css_value;
  entry_list : list (string * FormDataEntryValue)
    (* for a form: the entry list the browser constructs from its controls *)
}.

Definition with_classList (f : list string → list string) (e : element) : element :=
  Element (tagName e) (ident e) (f (classList e)) (attributes e) (ancestors e)
          (inner e) (value e) (style e) (entry_list e).
Definition with_attributes (f : gmap string string → gmap string string) (e : element) : element :=
  Element (tagName e) (ident e) (classList e) (f (attributes e)) (ancestors e)
          (inner e) (value e) (style e) (entry_list e).
Definition with_ancestors (f : list node → list node) (e : element) : element :=
  Element (tagName e) (ident e) (classList e) (attributes e) (f (ancestors e))
          (inner e) (value e) (style e) (entry_list e).
Definition with_inner (c : contents) (e : element) : element :=
  Element (tagName e) (ident e) (classList e) (attributes e) (ancestors e)
          c (value e) (style e) (entry_list e).
Definition with_style (f : gmap string css_value → gmap string css_value) (e : element) : element :=
  Element (tagName e) (ident e) (classList e) (attributes e) (ancestors e)
          (inner e) (value e) (f (style e)) (entry_list e).

(** Closures the script hands to [addEventListener], with what they capture. *)
Inductive handler :=
  | OnScroll (navbar : option node)
  | Parallax (mockup : option node) (floats : list node)
  | OnMove (mockup : node)
  | OnLeave (mockup : node)
  | ScrollByCard (scrollWrap : node) (dir : Z)
  | OnWheel (scrollWrap : node)
  | OnArrowKey (scrollWrap : node)
  | ItemClick (lb : node) (lbImg : option node) (item : node)
  | ItemEnter (item : node)
  | CloseLightbox (lb : node) (lbImg : option node)
  | BackdropClick (lb : node) (lbImg : option node)
  | FieldInput (f : node)
  | FieldChange (f : node)
  | OrderSubmit (orderForm : node)
  | ContactSubmit (contactForm : node)
  | QuickWa.

Inductive event_target := Window | Node (n : node).

#[export] Instance event_target_eq_dec : EqDecision event_target.
Proof. solve_decision. Defined.

Inductive observer_callback :=
  | LazyLoad
  | Reveal
  | ContactStagger (contactForm : node).

Record observer := Observer {
  callback : observer_callback;
  targets : gset node
}.

(** What the run leaves behind, in the order it happened: requests and
    replies with their times, writes to [innerHTML], console output, the
    entry into a function of the script ([Called]), and what a submit event
    leads to. *)
Inductive event :=
  | FetchIssued (path : string) (time : nat)
  | FetchSettled (path : string) (time : nat)
  | InnerHTMLSet (container : node) (html : string)
  | ConsoleWarn (message arg : string)
  | ConsoleError (message arg : string) (err : js_error)
  | Called (function : string)
  | PreventDefault
  | WindowOpen (url target : string)
  | Uncaught (err : js_error)
  | Navigated (form : node).

Record world := World {
  heap : gmap node element;
  order : list node;
  next_node : node;
  scrollY : Q;
  observeLazy : option nat;       (* window.observeLazy, closed over observer [io] *)
  observers : list observer;
  listeners : list (event_target * string * handler);
  defaultPrevented : bool;        (* of the event being dispatched *)
  clock : nat;
  requests : nat;
  trace : list event
}.

Definition with_heap (f : gmap node element → gmap node element) (w : world) : world :=
  World (f (heap w)) (order w) (next_node w) (scrollY w) (observeLazy w) (observers w)
        (listeners w) (defaultPrevented w) (clock w) (requests w) (trace w).
Definition with_observeLazy (o : option nat) (w : world) : world :=
  World (heap w) (order w) (next_node w) (scrollY w) o (observers w)
        (listeners w) (defaultPrevented w) (clock w) (requests w) (trace w).
Definition with_observers (f : list observer → list observer) (w : world) : world :=
  World (heap w) (order w) (next_node w) (scrollY w) (observeLazy w) (f (observers w))
        (listeners w) (defaultPrevented w) (clock w) (requests w) (trace w).
Definition with_listeners
    (f : list (event_target * string * handler) → list (event_target * string * handler))
    (w : world) : world :=
  World (heap w) (order w) (next_node w) (scrollY w) (observeLazy w) (observers w)
        (f (listeners w)) (defaultPrevented w) (clock w) (requests w) (trace w).
Definition with_defaultPrevented (b : bool) (w : world) : world :=
  World (heap w) (order w) (next_node w) (scrollY w) (observeLazy w) (observers w)
        (listeners w) b (clock w) (requests w) (trace w).
Definition with_scrollY (y : Q) (w : world) : world :=
  World (heap w) (order w) (next_node w) y (observeLazy w) (observers w)
        (listeners w) (defaultPrevented w) (clock w) (requests w) (trace w).
Definition log (es : list event) (w : world) : world :=
  World (heap w) (order w) (next_node w) (scrollY w) (observeLazy w) (observers w)
        (listeners w) (defaultPrevented w) (clock w) (requests w) (trace w ++ es).

(** ** The monad of script code *)

Inductive completion (A : Type) :=
  | Normal (a : A)
  | Throw (e : js_error).
Arguments Normal {A} a.
Arguments Throw {A} e.

Definition M (A : Type) : Type := world → completion A * world.

#[export] Instance M_ret : MRet M := λ A a w, (Normal a, w).
#[export] Instance M_bind : MBind M := λ A B f m w,
  match m w with
  | (Normal a, w') => f a w'
  | (Throw e, w') => (Throw e, w')
  end.

Definition throw {A} (e : js_error) : M A := λ w, (Throw e, w).
Definition gets {A} (f : world → A) : M A := λ w, (Normal (f w), w).
Definition modify (f : world → world) : M unit := λ w, (Normal (), f w).
Definition emit (e : event) : M unit := modify (log [e]).

Definition try_catch {A} (body : M A) (handler : js_error → M A) : M A := λ w,
  match body w with
  | (Normal a, w') => (Normal a, w')
  | (Throw e, w') => handler e w'
  end.

(** [for (const x of l) body] and [l.forEach((x, i) => body)]. *)
Fixpoint for_of {A} (l : list A) (body : A → M unit) : M unit :=
  match l with
  | [] => mret ()
  | x :: rest => body x;; for_of rest body
  end.

Fixpoint forEach_from {A} (i : nat) (l : list A) (body : A → nat → M unit) : M unit :=
  match l with
  | [] => mret ()
  | x :: rest => body x i;; forEach_from (S i) rest body
  end.

Definition forEach {A} (l : list A) (body : A → nat → M unit) : M unit :=
  forEach_from 0 l body.

Definition final {A} (m : M A) (w : world) : world := (m w).2.
Definition result {A} (m : M A) (w : world) : completion A := (m w).1.

(** ** Selectors and queries *)

Inductive selector :=
  | SelId (i : string)                      (* #i *)
  | SelClass (c : string)                   (* .c *)
  | SelTagClass (t c : string)              (* t.c *)
  | SelTagClassNot (t c n : string)         (* t.c:not(.n) *)
  | SelTagAttr (t a : string)               (* t[a] *)
  | SelChildOfClass (c : string)            (* .c > * *).

Definition has_class (c : string) (e : element) : bool :=
  bool_decide (c ∈ classList e).

Definition matches (h : gmap node element) (e : element) (s : selector) : bool :=
  match s with
  | SelId i => bool_decide (ident e = Some i ∧ i ≠ "")
  | SelClass c => has_class c e
  | SelTagClass t c => bool_decide (tagName e = t) && has_class c e
  | SelTagClassNot t c n =>
      bool_decide (tagName e = t) && has_class c e && negb (has_class n e)
  | SelTagAttr t a => bool_decide (tagName e = t) && bool_decide (is_Some (attributes e !! a))
  | SelChildOfClass c =>
      match head (ancestors e) ≫= (h !!.) with
      | Some parent => has_class c parent
      | None => false
      end
  end.

(** A comma-separated selector list, tested on the node [n] of the heap. *)
Definition selects (h : gmap node element) (sels : list selector) (n : node) : bool :=
  match h !! n with
  | Some e => existsb (matches h e) sels
  | None => false
  end.

Definition inside (h : gmap node element) (root n : node) : bool :=
  match h !! n with
  | Some e => bool_decide (root ∈ ancestors e)
  | None => false
  end.

Definition querySelectorAll (sels : list selector) : M (list node) :=
  gets (λ w, filter (λ n, selects (heap w) sels n = true) (order w)).

Definition querySelector (sels : list selector) : M (option node) :=
  found ← querySelectorAll sels; mret (head found).

Definition getElementById (i : string) : M (option node) :=
  querySelector [SelId i].

(** [root.querySelectorAll(sels)] and [root.querySelector(sels)]. *)
Definition querySelectorAllIn (root : node) (sels : list selector) : M (list node) :=
  gets (λ w, filter (λ n, selects (heap w) sels n && inside (heap w) root n = true) (order w)).

Definition querySelectorIn (root : node) (sels : list selector) : M (option node) :=
  found ← querySelectorAllIn root sels; mret (head found).

(** ** Element operations *)

(** Reading a property of [null] throws. *)
Definition deref (r : option node) (property : string) : M node :=
  match r with
  | Some n => mret n
  | None =>
      throw (TypeError ("Cannot read properties of null (reading '" +:+ property +:+ "')"))
  end.

Definition token_add (c : string) (l : list string) : list string :=
  if bool_decide (c ∈ l) then l else l ++ [c].
Definition token_remove (c : string) (l : list string) : list string :=
  filter (λ x, x ≠ c) l.

Definition classList_add (n : node) (c : string) : M unit :=
  modify (with_heap (alter (with_classList (token_add c)) n)).
Definition classList_remove (n : node) (c : string) : M unit :=
  modify (with_heap (alter (with_classList (token_remove c)) n)).

Definition getAttribute (n : node) (a : string) : M (option string) :=
  gets (λ w, heap w !! n ≫= λ e, attributes e !! a).
Definition setAttribute (n : node) (a v : string) : M unit :=
  modify (with_heap (alter (with_attributes <[a := v]>) n)).
Definition get_value (n : node) : M (option string) :=
  gets (λ w, heap w !! n ≫= value).
Definition set_style (n : node) (property : string) (v : css_value) : M unit :=
  modify (with_heap (alter (with_style <[property := v]>) n)).

Definition addEventListener (t : event_target) (type : string) (h : handler) : M unit :=
  modify (with_listeners (λ l, (l ++ [(t, type, h)])%list)).

(** A string is truthy when it is not empty; [null] is falsy. *)
Definition truthy (v : option string) : option string :=
  match v with
  | Some "" | None => None
  | Some s => Some s
  end.

(** Detaching the descendants of [c] and attaching [fresh] in their place. *)
Definition replace_children (c : node) (fresh : list node) (w : world) : list node :=
  flat_map (λ n, if bool_decide (n = c) then c :: fresh
                 else if inside (heap w) c n then [] else [n]) (order w).

Definition set_textContent (n : node) (text : string) : M unit := λ w,
  (Normal (),
   World (alter (with_inner (Text text)) n (heap w)) (replace_children n [] w)
         (next_node w) (scrollY w) (observeLazy w) (observers w) (listeners w)
         (defaultPrevented w) (clock w) (requests w) (trace w)).

(** ** What the script takes from its host *)

Inductive fetch_outcome :=
  | NetworkFailure                                  (* the promise rejects *)
  | HttpResponse (status : nat) (body : option string)
      (* [body = None]: reading the body fails *).

Record fetch_reply := FetchReply {
  latency : nat;
  outcome : fetch_outcome
}.

Record response := Response {
  status : nat;
  body : option string
}.

Definition ok (r : response) : bool :=
  (200 <=? status r) && (status r <=? 299).

Record host := Host {
  fetchReply : nat → string → fetch_reply;  (* reply to the k-th request, for a path *)
  parseFragment : string → list element;
    (* the elements of a parsed fragment in document order, their
       [ancestors] given as positions within the fragment *)
  hasIntersectionObserver : bool;
  fullYear : nat
}.

Section Script.

Context (browser : host).

(** *** Host operations *)

(** [await fetch(path, { cache: 'no-store' })]: the request goes out at the
    current time, and the script resumes when the reply has arrived. *)
Definition fetch (path : string) : M response := λ w,
  let reply := fetchReply browser (requests w) path in
  let w' := World (heap w) (order w) (next_node w) (scrollY w) (observeLazy w)
                  (observers w) (listeners w) (defaultPrevented w)
                  (clock w + latency reply) (S (requests w))
                  (trace w ++ [FetchIssued path (clock w);
                               FetchSettled path (clock w + latency reply)]) in
  match outcome reply with
  | NetworkFailure => (Throw (TypeError "Failed to fetch"), w')
  | HttpResponse st b => (Normal (Response st b), w')
  end.

(** [await res.text()]. *)
Definition text (res : response) : M string :=
  match body res with
  | Some s => mret s
  | None => throw (TypeError "Failed to read the response body")
  end.

Definition attach_fragment (base : node) (above : list node) (parsed : list element)
    : list (node * element) :=
  imap (λ i e, (base + i, with_ancestors (λ a, ((λ k, base + k) <$> a) ++ above) e)) parsed.

(** [c.innerHTML = html]: the descendants of [c] leave the document and the
    parsed fragment takes their place. *)
Definition set_innerHTML (c : node) (html : string) : M unit := λ w,
  let parsed := parseFragment browser html in
  let above := c :: default [] (ancestors <$> heap w !! c) in
  let fresh := attach_fragment (next_node w) above parsed in
  (Normal (),
   World (alter (with_inner (Markup html)) c (list_to_map fresh ∪ heap w))
         (replace_children c (fresh.*1) w)
         (next_node w + length parsed) (scrollY w) (observeLazy w) (observers w)
         (listeners w) (defaultPrevented w) (clock w) (requests w)
         (trace w ++ [InnerHTMLSet c html])).

Definition new_IntersectionObserver (cb : observer_callback) : M nat := λ w,
  if hasIntersectionObserver browser
  then (Normal (length (observers w)), with_observers (λ l, l ++ [Observer cb ∅]) w)
  else (Throw (ReferenceError "IntersectionObserver is not defined"), w).

Definition observe (io : nat) (n : node) : M unit :=
  modify (with_observers (alter (λ o, Observer (callback o) ({[n]} ∪ targets o)) io)).

Definition unobserve (io : nat) (n : node) : M unit :=
  modify (with_observers (alter (λ o, Observer (callback o) (targets o ∖ {[n]})) io)).

(** *** Section loader *)

Record descriptor := Descriptor { id : string; path : string }.

Definition sections : list descriptor :=
  [ Descriptor "section-navbar" "sections/navbar.html";
    Descriptor "section-hero" "sections/hero.html";
    Descriptor "section-services" "sections/services.html";
    Descriptor "section-portfolio" "sections/portfolio.html";
    Descriptor "section-ig" "sections/ig.html";
    Descriptor "section-pesan" "sections/pesan.html";
    Descriptor "section-cta" "sections/cta.html";
    Descriptor "section-footer" "sections/footer.html" ].

Definition QUOTE : string := String (ascii_of_N 34) "".

Definition failure_notice (path : string) : string :=
  "<div class=" +:+ QUOTE +:+ "container py-4" +:+ QUOTE +:+ "><p class=" +:+ QUOTE
    +:+ "text-muted" +:+ QUOTE +:+ ">Failed to load " +:+ path +:+ "</p></div>".

Definition loadSection (targetId path : string) : M unit :=
  try_catch
    (res ← fetch path;
     if negb (ok res) then throw (JsError ("Failed (" +:+ pretty (status res) +:+ ")"))
     else
       html ← text res;
       container ← getElementById targetId;
       match container with
       | Some c => set_innerHTML c html
       | None => emit (ConsoleWarn "Missing container for" targetId)
       end)
    (λ err,
       emit (ConsoleError "Error loading" path err);;
       container ← getElementById targetId;
       match container with
       | Some c => set_innerHTML c (failure_notice path)
       | None => mret ()
       end).

(** *** Lazy loader *)

(** The function stored in [window.observeLazy]; [io] is the observer it
    closes over. *)
Definition observeLazy_call (io : nat) : M unit :=
  imgs ← querySelectorAll [SelTagClassNot "img" "lazy" "loaded"];
  forEach imgs (λ i _, observe io i).

(** [if (window.observeLazy) window.observeLazy();] *)
Definition observeLazy_if_defined : M unit :=
  f ← gets observeLazy;
  match f with
  | Some io => observeLazy_call io
  | None => mret ()
  end.

Record entry := Entry { target : node; isIntersecting : bool }.

(** The callback given to the lazy loader's observer. *)
Definition lazy_callback (entries : list entry) (obs : nat) : M unit :=
  forEach entries (λ entry _,
    if negb (isIntersecting entry) then mret ()
    else
      let img := target entry in
      src ← getAttribute img "data-src";
      match truthy src with
      | Some src =>
          setAttribute img "src" src;;
          srcset ← getAttribute img "data-srcset";
          match truthy srcset with
          | Some srcset => setAttribute img "srcset" srcset
          | None => mret ()
          end
      | None => mret ()
      end;;
      classList_add img "loaded";;
      unobserve obs img).

Definition initLazyLoader : M unit :=
  f ← gets observeLazy;
  match f with
  | Some _ => mret ()
  | None =>
      io ← new_IntersectionObserver LazyLoad;
      imgs ← querySelectorAll [SelTagClass "img" "lazy"];
      forEach imgs (λ i _, observe io i);;
      modify (with_observeLazy (Some io))
  end.

(** *** The other setup routines *)

Definition setYear : M unit :=
  yearEls ← querySelectorAll [SelId "year"; SelId "year-js"; SelId "yearFooter"];
  forEach yearEls (λ el _, set_textContent el (pretty (fullYear browser))).

Definition initRevealOnScroll : M unit :=
  reveals ← querySelectorAll [SelClass "reveal"];
  match reveals with
  | [] => mret ()
  | _ =>
      io ← new_IntersectionObserver Reveal;
      forEach reveals (λ r _, observe io r)
  end.

Definition threshold : Q := 50.

Definition onScroll (navbar : option node) : M unit :=
  y ← gets scrollY;
  if negb (Qle_bool y threshold) then
    n ← deref navbar "classList";
    classList_add n "scrolled"
  else
    n ← deref navbar "classList";
    classList_remove n "scrolled".

(** The listener of lines 129-143, registered for [DOMContentLoaded]. *)
Definition navbar_DOMContentLoaded : M unit :=
  navbar ← getElementById "topNav";
  addEventListener Window "scroll" (OnScroll navbar);;
  onScroll navbar.

Definition parallax (mockup : option node) (floats : list node) : M unit :=
  sc ← gets scrollY;
  match mockup with
  | Some m => set_style m "transform" (MockupParallax sc)
  | None => mret ()
  end;;
  forEach floats (λ el i, set_style el "transform" (FloatParallax i sc)).

Definition initHeroInteractions : M unit :=
  mockup ← getElementById "heroMockup";
  floats ← querySelectorAll [SelClass "float-ico"; SelClass "float-img"];
  addEventListener Window "scroll" (Parallax mockup floats);;
  parallax mockup floats;;
  match mockup with
  | Some m =>
      addEventListener (Node m) "mousemove" (OnMove m);;
      addEventListener (Node m) "mouseleave" (OnLeave m)
  | None => mret ()
  end;;
  observeLazy_if_defined.

Definition initServicesScroller : M unit :=
  scrollWrap ← querySelector [SelClass "services-scroll"; SelId "servicesScroll"];
  match scrollWrap with
  | None => mret ()
  | Some scrollWrap =>
      prevBtn ← querySelector [SelClass "svc-prev"; SelId "svc-prev"];
      nextBtn ← querySelector [SelClass "svc-next"; SelId "svc-next"];
      match prevBtn with
      | Some b => addEventListener (Node b) "click" (ScrollByCard scrollWrap (-1))
      | None => mret ()
      end;;
      match nextBtn with
      | Some b => addEventListener (Node b) "click" (ScrollByCard scrollWrap 1)
      | None => mret ()
      end;;
      addEventListener (Node scrollWrap) "wheel" (OnWheel scrollWrap);;
      addEventListener (Node scrollWrap) "keydown" (OnArrowKey scrollWrap);;
      tabindex ← getAttribute scrollWrap "tabindex";
      setAttribute scrollWrap "tabindex" (default "0" (truthy tabindex));;
      observeLazy_if_defined
  end.

Definition initPortfolioLightbox : M unit :=
  lb ← getElementById "pfLightbox";
  match lb with
  | None => mret ()
  | Some lb =>
      lbImg ← querySelectorIn lb [SelClass "lb-img"];
      items ← querySelectorAll [SelClass "portfolio-item"];
      forEach items (λ item _,
        addEventListener (Node item) "click" (ItemClick lb lbImg item);;
        addEventListener (Node item) "keydown" (ItemEnter item));;
      closeBtn ← querySelectorIn lb [SelClass "close-lb"];
      match closeBtn with
      | Some b => addEventListener (Node b) "click" (CloseLightbox lb lbImg)
      | None => mret ()
      end;;
      addEventListener (Node lb) "click" (BackdropClick lb lbImg)
  end.

(** [f.value && f.value.trim() !== ''] *)
Definition filled (v : option string) : bool :=
  match truthy v with
  | Some s => negb (bool_decide (trim s = ""))
  | None => false
  end.

Definition initContactForm : M unit :=
  contactForm ← getElementById "contactForm";
  match contactForm with
  | None => mret ()
  | Some contactForm =>
      rowChildren ← querySelectorAllIn contactForm [SelChildOfClass "row"];
      forEach rowChildren (λ el idx,
        classList_add el "reveal-child";;
        set_style el "transitionDelay" (CssText (pretty (idx * 80) +:+ "ms")));;
      contactSection ← querySelector [SelClass "contact-section"];
      match contactSection with
      | Some cs =>
          if hasIntersectionObserver browser then
            obs ← new_IntersectionObserver (ContactStagger contactForm);
            observe obs cs
          else mret ()
      | None => mret ()
      end;;
      fields ← querySelectorAllIn contactForm
                 [SelTagAttr "input" "placeholder"; SelTagAttr "textarea" "placeholder";
                  SelTagAttr "select" "placeholder"];
      forEach fields (λ f _,
        v ← get_value f;
        (if filled v then classList_add f "filled" else mret ());;
        addEventListener (Node f) "input" (FieldInput f);;
        addEventListener (Node f) "change" (FieldChange f))
  end.

(** *** Order and contact form submission *)

Definition preventDefault : M unit :=
  modify (with_defaultPrevented true);; emit PreventDefault.

Definition window_open (url target : string) : M unit :=
  emit (WindowOpen url target).

(** [new FormData(form)] and [data.get(name)].  The entries of a [FormData]
    are scalar-value strings: an unpaired surrogate is replaced when an
    entry is created, so that [encodeURIComponent] is total on them. *)
Definition new_FormData (form : node) : M (list (string * FormDataEntryValue)) :=
  gets (λ w, default [] (entry_list <$> heap w !! form)).

Fixpoint FormData_get (name : string) (data : list (string * FormDataEntryValue))
    : option FormDataEntryValue :=
  match data with
  | [] => None
  | (k, v) :: rest => if bool_decide (k = name) then Some v else FormData_get name rest
  end.

(** [v || ''] on what [data.get] returns. *)
Definition or_empty (v : option FormDataEntryValue) : FormDataEntryValue :=
  match v with
  | None | Some (FDString "") => FDString ""
  | Some v => v
  end.

(** String conversion inside a template literal. *)
Definition to_string (v : FormDataEntryValue) : string :=
  match v with
  | FDString s => s
  | FDFile _ => "[object File]"
  end.

Definition wa_me : string := "https://wa.me/6281931786798?text=".

Definition order_template (name service phone notes : string) : string :=
  "Halo OnFix, saya *" +:+ name +:+ "* ingin memesan layanan: *" +:+ service +:+ "*."
    +:+ LF +:+ "NoWA: " +:+ phone +:+ LF +:+ "Catatan: " +:+ notes.

Definition orderForm_onSubmit (orderForm : node) : M unit :=
  preventDefault;;
  data ← new_FormData orderForm;
  let name := or_empty (FormData_get "name" data) in
  let service := or_empty (FormData_get "service" data) in
  let phone := or_empty (FormData_get "phone" data) in
  let notes := or_empty (FormData_get "notes" data) in
  let text := encodeURIComponent
                (order_template (to_string name) (to_string service)
                                (to_string phone) (to_string notes)) in
  let waLink := wa_me +:+ text in
  window_open waLink "_blank".

(** What reading [el.value] gives: nothing, a string, or a number, kept as
    the text [String] gives for it. *)
Inductive property_value :=
  | ValUndefined
  | ValString (s : string)
  | ValNumber (shown : string).

(** The elements whose [value] property is a number. *)
Definition numeric (e : element) : bool :=
  bool_decide (tagName e ∈ ["li"; "progress"; "meter"]).

Definition value_property (e : element) : property_value :=
  match value e with
  | Some s => if numeric e then ValNumber s else ValString s
  | None => if numeric e then ValNumber "0" else ValUndefined
  end.

(** [el?.value] *)
Definition value_of (el : option node) : M property_value :=
  match el with
  | Some n => gets (λ w, default ValUndefined (value_property <$> heap w !! n))
  | None => mret ValUndefined
  end.

(** [v?.trim() ?? '']: a number has no method [trim], and the call of
    [undefined] throws. *)
Definition trimmed (v : property_value) : M string :=
  match v with
  | ValUndefined => mret ""
  | ValString s => mret (trim s)
  | ValNumber _ =>
      throw (TypeError "contactForm.querySelector(...)?.value?.trim is not a function")
  end.

(** [v ?? ''] *)
Definition or_empty_string (v : property_value) : property_value :=
  match v with
  | ValUndefined => ValString ""
  | _ => v
  end.

(** [service || '-'], converted to a string by the template literal.  The
    falsy numbers are 0, -0 and NaN, shown as [0] and [NaN]. *)
Definition or_dash (service : property_value) : string :=
  match service with
  | ValUndefined | ValString "" => "-"
  | ValString s => s
  | ValNumber n => if bool_decide (n ∈ ["0"; "NaN"]) then "-" else n
  end.

(** The call [encodeURIComponent(s)]. *)
Definition encodeURIComponent_call (s : string) : M string :=
  if lone_surrogate s then throw (URIError "URI malformed")
  else mret (encodeURIComponent s).

Definition contact_template (name service msg phone : string) : string :=
  "Halo OnFix, saya " +:+ name +:+ ".%0AIngin layanan: " +:+ service +:+ "%0A"
    +:+ msg +:+ "%0AHubungi saya di: " +:+ phone.

Definition contactForm_onSubmit (contactForm : node) : M unit :=
  preventDefault;;
  nameEl ← querySelectorIn contactForm [SelId "name"];
  nameVal ← value_of nameEl;
  name ← trimmed nameVal;
  phoneEl ← querySelectorIn contactForm [SelId "phone"];
  phoneVal ← value_of phoneEl;
  phone ← trimmed phoneVal;
  serviceEl ← querySelectorIn contactForm [SelId "service"];
  serviceVal ← value_of serviceEl;
  let service := or_empty_string serviceVal in
  msgEl ← querySelectorIn contactForm [SelId "message"];
  msgVal ← value_of msgEl;
  msg ← trimmed msgVal;
  text ← encodeURIComponent_call (contact_template name (or_dash service) msg phone);
  let wa := wa_me +:+ text in
  window_open wa "_blank".

Definition initOrderForm : M unit :=
  orderForm ← getElementById "orderForm";
  match orderForm with
  | Some f => addEventListener (Node f) "submit" (OrderSubmit f)
  | None => mret ()
  end;;
  contactForm ← getElementById "contactForm";
  match contactForm with
  | Some f => addEventListener (Node f) "submit" (ContactSubmit f)
  | None => mret ()
  end;;
  btn ← querySelector [SelId "btn-wa"];
  match btn with
  | Some b => addEventListener (Node b) "click" QuickWa
  | None => mret ()
  end.

(** *** Top-level initializer *)

(** Name resolution for the calls made by [initInteractions].  [main.js]
    declares eleven functions: [loadSection], [loadAllSectionsSequentially],
    [initInteractions] and the eight setup routines below; these eight are
    the ones [initInteractions] can reach.  A call to a name that no
    declaration binds throws a [ReferenceError]. *)
Definition declarations : list (string * M unit) :=
  [ ("setYear", setYear);
    ("initLazyLoader", initLazyLoader);
    ("initRevealOnScroll", initRevealOnScroll);
    ("initHeroInteractions", initHeroInteractions);
    ("initServicesScroller", initServicesScroller);
    ("initPortfolioLightbox", initPortfolioLightbox);
    ("initContactForm", initContactForm);
    ("initOrderForm", initOrderForm) ].

Fixpoint resolve (name : string) (scope : list (string * M unit)) : option (M unit) :=
  match scope with
  | [] => None
  | (k, f) :: rest => if bool_decide (k = name) then Some f else resolve name rest
  end.

Definition call (name : string) : M unit :=
  match resolve name declarations with
  | Some f => emit (Called name);; f
  | None => throw (ReferenceError (name +:+ " is not defined"))
  end.

Definition initInteractions : M unit :=
  emit (Called "initInteractions");;
  call "setYear";;
  call "initLazyLoader";;
  call "initRevealOnScroll";;
  call "initNavScroll";;
  call "initHeroInteractions";;
  call "initServicesScroller";;
  call "initPortfolioLightbox";;
  call "initContactForm";;
  call "initOrderForm";;
  observeLazy_if_defined.

(** The loop reads the global [sections]; it is a parameter here so that
    statements can range over every descriptor list. *)
Definition loadAllSectionsSequentially (sections : list descriptor) : M unit :=
  for_of sections (λ s, loadSection (id s) (path s));;
  initInteractions.

(** *** Submitting a form *)

(** Of the closures above, the two that are registered for [submit]. *)
Definition submit_listener (h : handler) : option (M unit) :=
  match h with
  | OrderSubmit f => Some (orderForm_onSubmit f)
  | ContactSubmit f => Some (contactForm_onSubmit f)
  | _ => None
  end.

Definition listeners_for (t : event_target) (type : string)
    (l : list (event_target * string * handler)) : list handler :=
  omap (λ r, if bool_decide (r.1.1 = t ∧ r.1.2 = type) then Some r.2 else None) l.

(** The user submits [form]: a cancelable [submit] event is dispatched to
    the form's listeners, an exception escaping a listener is reported and
    the dispatch goes on, and the browser navigates unless a listener
    cancelled the event. *)
Definition submit (form : node) : M unit :=
  modify (with_defaultPrevented false);;
  ls ← gets listeners;
  for_of (omap submit_listener (listeners_for (Node form) "submit" ls))
    (λ run, try_catch run (λ err, emit (Uncaught err)));;
  cancelled ← gets defaultPrevented;
  if cancelled : bool then mret () else emit (Navigated form).

End Script.

(** ** The async functions on the event loop *)

Module Async.

(** An async function as a task: synchronous code up to the next
    [await fetch(..)], where the task hands its request to the browser and
    is suspended until the reply is there.
    - [Finished c]: the function has returned or thrown;
    - [Sync step next]: synchronous code, which takes the state [w] it
      starts in to [step w]; [next w] is what follows it;
    - [Await path k]: [await fetch(path)]; the task is resumed as [k] with
      the response, or with the error the promise was rejected with;
    - [Fork child next]: a call of the async function [child] whose promise
      is not awaited: [child] runs up to its first [await], then the
      caller goes on with [next], and [child] is a task of its own.
    An [await] of a call of an async function is the sequence of the two
    ([bind]).  Tasks that run side by side are interleaved by the event
    loop below, in the order in which their replies arrive. *)
Inductive async (A : Type) : Type :=
  | Finished (c : completion A)
  | Sync (step : world → world) (next : world → async A)
  | Await (path : string) (k : completion response → async A)
  | Fork (child : async unit) (next : async A).

Arguments Finished {A} c.
Arguments Sync {A} step next.
Arguments Await {A} path k.
Arguments Fork {A} child next.

Definition lift {A : Type} (m : M A) : async A :=
  Sync (λ w, (m w).2) (λ w, Finished (m w).1).

Fixpoint bind {A B : Type} (t : async A) (f : A → async B) : async B :=
  match t with
  | Finished (Normal a) => f a
  | Finished (Throw e) => Finished (Throw e)
  | Sync step next => Sync step (λ w, bind (next w) f)
  | Await path k => Await path (λ c, bind (k c) f)
  | Fork child next => Fork child (bind next f)
  end.

#[export] Instance async_ret : MRet async := λ A a, Finished (Normal a).
#[export] Instance async_bind : MBind async := λ A B f t, bind t f.

(** [try { body } catch (err) { handler }]; the promise of a call that is
    not awaited is not the concern of the [try] around the call. *)
Fixpoint try_catch {A : Type} (body : async A) (handler : js_error → async A) : async A :=
  match body with
  | Finished (Normal a) => Finished (Normal a)
  | Finished (Throw e) => handler e
  | Sync step next => Sync step (λ w, try_catch (next w) handler)
  | Await path k => Await path (λ c, try_catch (k c) handler)
  | Fork child next => Fork child (try_catch next handler)
  end.

Fixpoint for_of {A : Type} (l : list A) (body : A → async unit) : async unit :=
  match l with
  | [] => mret ()
  | x :: rest => body x;; for_of rest body
  end.

(** [await fetch(path, { cache: 'no-store' })] *)
Definition await_fetch (path : string) : async response := Await path Finished.

(** A request on its way: when its reply arrives, the path asked for, the
    reply, and the task that awaits it. *)
Record in_flight := InFlight {
  arrival : nat;
  request : string;
  reply : fetch_outcome;
  resume : completion response → async unit
}.

(** [fetch(path)] is called: the request goes out at the current time. *)
Definition issue (path : string) (w : world) : world :=
  World (heap w) (order w) (next_node w) (scrollY w) (observeLazy w) (observers w)
        (listeners w) (defaultPrevented w) (clock w) (S (requests w))
        (trace w ++ [FetchIssued path (clock w)]).

(** The reply is there: time has moved on to its arrival. *)
Definition settle (r : in_flight) (w : world) : world :=
  World (heap w) (order w) (next_node w) (scrollY w) (observeLazy w) (observers w)
        (listeners w) (defaultPrevented w) (Nat.max (clock w) (arrival r)) (requests w)
        (trace w ++ [FetchSettled (request r) (arrival r)]).

(** What the promise of [fetch] settles to. *)
Definition settlement (o : fetch_outcome) : completion response :=
  match o with
  | NetworkFailure => Throw (TypeError "Failed to fetch")
  | HttpResponse st b => Normal (Response st b)
  end.

Section Loader.

Context (browser : host).

(** The latency of a reply is the time until its body is there, so that
    [await res.text()] goes on in the turn in which the reply came. *)
Definition loadSection (targetId path : string) : async unit :=
  try_catch
    (res ← await_fetch path;
     lift (if negb (ok res)
           then throw (JsError ("Failed (" +:+ pretty (status res) +:+ ")"))
           else
             html ← text res;
             container ← getElementById targetId;
             match container with
             | Some c => set_innerHTML browser c html
             | None => emit (ConsoleWarn "Missing container for" targetId)
             end))
    (λ err,
       lift (emit (ConsoleError "Error loading" path err);;
             container ← getElementById targetId;
             match container with
             | Some c => set_innerHTML browser c (failure_notice path)
             | None => mret ()
             end)).

Definition loadAllSectionsSequentially (sections : list descriptor) : async unit :=
  for_of sections (λ s, loadSection (id s) (path s));;
  lift (initInteractions browser).

(** *** The event loop *)

(** Where a task of the loop has got to: at its end, where an exception
    that nobody awaits is an unhandled rejection, or at an [await], where
    its request goes out. *)
Definition park (at_ : completion unit + string * (completion response → async unit))
    (w : world) : list in_flight * world :=
  match at_ with
  | inl (Normal _) => ([], w)
  | inl (Throw e) => ([], log [Uncaught e] w)
  | inr (path, k) =>
      let r := fetchReply browser (requests w) path in
      ([InFlight (clock w + latency r) path (outcome r) k], issue path w)
  end.

(** Running a task up to its next [await].  The tasks it starts on the way
    run up to theirs, and are handed to the loop. *)
Fixpoint advance {A : Type} (t : async A) (w : world)
    : (completion A + string * (completion response → async A)) * list in_flight * world :=
  match t with
  | Finished c => (inl c, [], w)
  | Sync step next => advance (next w) (step w)
  | Await path k => (inr (path, k), [], w)
  | Fork child next =>
      let '(at_, started, w1) := advance child w in
      let '(parked, w2) := park at_ w1 in
      let '(at_', started', w3) := advance next w2 in
      (at_', started ++ parked ++ started', w3)
  end.

Definition start (t : async unit) (w : world) : list in_flight * world :=
  let '(at_, started, w1) := advance t w in
  let '(parked, w2) := park at_ w1 in
  (started ++ parked, w2).

Fixpoint start_all (tasks : list (async unit)) (w : world) : list in_flight * world :=
  match tasks with
  | [] => ([], w)
  | t :: rest =>
      let '(first, w1) := start t w in
      let '(others, w2) := start_all rest w1 in
      (first ++ others, w2)
  end.

(** The reply that arrives first, the earlier request winning a tie, and
    the requests that stay in flight. *)
Fixpoint earliest (first : in_flight) (rest : list in_flight)
    : in_flight * list in_flight :=
  match rest with
  | [] => (first, [])
  | r :: rest' =>
      let '(best, others) := earliest r rest' in
      if arrival first <=? arrival best then (first, rest) else (best, first :: others)
  end.

(** The event loop: while requests are in flight, the next reply arrives
    and the task that awaits it runs up to its next [await].  Every turn
    takes one unit of [fuel]. *)
Fixpoint event_loop (fuel : nat) (pending : list in_flight) (w : world) : option world :=
  match pending, fuel with
  | [], _ => Some w
  | _ :: _, 0 => None
  | r :: rest, S fuel' =>
      let '(next, others) := earliest r rest in
      let '(more, w') := start (resume next (settlement (reply next))) (settle next w) in
      event_loop fuel' (others ++ more) w'
  end.

(** The tasks are started in the order given, then the loop runs. *)
Definition run (fuel : nat) (tasks : list (async unit)) (w : world) : option world :=
  let '(pending, w') := start_all tasks w in
  event_loop fuel pending w'.

(** *** A task on its own *)

(** A task that starts no other, run with nothing else scheduled: at each
    [await] the reply is waited for, and the task goes on.  The result
    comes with the number of replies waited for; there is none for a task
    that starts another. *)
Fixpoint alone {A : Type} (t : async A) (w : world) : option (completion A * world * nat) :=
  match t with
  | Finished c => Some (c, w, 0)
  | Sync step next => alone (next w) (step w)
  | Await path k =>
      let '(c, w') := fetch browser path w in
      '(c', w'', n) ← alone (k c) w';
      Some (c', w'', S n)
  | Fork _ _ => None
  end.

End Loader.

End Async.

(** ** Vocabulary of the statements *)

(** What [form.querySelector('#' + i)?.value] evaluates to in [w]. *)
Definition control_property (w : world) (form : node) (i : string) : property_value :=
  default ValUndefined
    (value_property <$>
       (head (filter (λ n, selects (heap w) [SelId i] n && inside (heap w) form n = true)
                (order w)) ≫= (heap w !!.))).

(** A field the contact handler can put into its message: absent, or
    holding a string without an unpaired surrogate. *)
Definition sendable (v : property_value) : Prop :=
  match v with
  | ValUndefined => True
  | ValString s => lone_surrogate s = false
  | ValNumber _ => False
  end.

(** The text a field contributes to the contact message: [v?.trim() ?? '']
    where that does not throw. *)
Definition trimmed_text (v : property_value) : string :=
  match v with
  | ValString s => trim s
  | _ => ""
  end.

Definition is_number (v : property_value) : bool :=
  match v with
  | ValNumber _ => true
  | _ => false
  end.

(** The message the contact handler builds from the controls of [form],
    when none of the three trimmed fields holds a number. *)
Definition contact_message (w : world) (form : node) : string :=
  contact_template (trimmed_text (control_property w form "name"))
                   (or_dash (control_property w form "service"))
                   (trimmed_text (control_property w form "message"))
                   (trimmed_text (control_property w form "phone")).

(** The state a submit handler leaves: the event cancelled, and [events]
    in the trace after the cancellation. *)
Definition handled (events : list event) (w : world) : world :=
  log (PreventDefault :: events) (with_defaultPrevented true w).

(** The entry list of [form] in [w], and the text a field contributes to the
    order message. *)
Definition submitted (w : world) (form : node) : list (string * FormDataEntryValue) :=
  default [] (entry_list <$> heap w !! form).

Definition shown (data : list (string * FormDataEntryValue)) (name : string) : string :=
  to_string (or_empty (FormData_get name data)).

(** The element [document.getElementById(i)] returns in [w]. *)
Definition element_by_id (w : world) (i : string) : option node :=
  head (filter (λ n, selects (heap w) [SelId i] n = true) (order w)).

Definition first_match (w : world) (sels : list selector) : option node :=
  head (filter (λ n, selects (heap w) sels n = true) (order w)).

(** A reply on which [loadSection] takes its [catch] branch. *)
Definition fails (o : fetch_outcome) : bool :=
  match o with
  | NetworkFailure => true
  | HttpResponse st b => negb (ok (Response st b)) || bool_decide (b = None)
  end.

(** The same host with other latencies. *)
Definition retimed (lat : nat → string → nat) (browser : host) : host :=
  Host (λ k p, FetchReply (lat k p) (outcome (fetchReply browser k p)))
       (parseFragment browser) (hasIntersectionObserver browser) (fullYear browser).

(** What [loadSection] does for descriptor [d] once the reply to request [k]
    has arrived. *)
Inductive settled_into (browser : host) (k : nat) (d : descriptor) : list event → Prop :=
  | into_container st html c :
      outcome (fetchReply browser k (path d)) = HttpResponse st (Some html) →
      ok (Response st (Some html)) = true →
      settled_into browser k d [InnerHTMLSet c html]
  | into_no_container st html :
      outcome (fetchReply browser k (path d)) = HttpResponse st (Some html) →
      ok (Response st (Some html)) = true →
      settled_into browser k d [ConsoleWarn "Missing container for" (id d)]
  | notice_into_container err c :
      fails (outcome (fetchReply browser k (path d))) = true →
      settled_into browser k d
        [ConsoleError "Error loading" (path d) err; InnerHTMLSet c (failure_notice (path d))]
  | notice_dropped err :
      fails (outcome (fetchReply browser k (path d))) = true →
      settled_into browser k d [ConsoleError "Error loading" (path d) err].

(** A run in which the descriptors are handled one at a time: starting at
    request number [k] and time [t], each request goes out when the one
    before it has settled and its container has been dealt with. *)
Inductive sequential (browser : host) : nat → nat → list descriptor → list event → Prop :=
  | sequential_done k t : sequential browser k t [] []
  | sequential_next k t d rest after tr :
      settled_into browser k d after →
      sequential browser (S k) (t + latency (fetchReply browser k (path d))) rest tr →
      sequential browser k t (d :: rest)
        (FetchIssued (path d) t
           :: FetchSettled (path d) (t + latency (fetchReply browser k (path d)))
           :: after ++ tr).

Definition issued (tr : list event) : list string :=
  omap (λ e, match e with FetchIssued p _ => Some p | _ => None end) tr.

Definition class_of (w : world) (n : node) : list string :=
  default [] (classList <$> heap w !! n).

Definition observed_by (w : world) (io : nat) : gset node :=
  default ∅ (targets <$> observers w !! io).

(** ** Concrete pages, for the examples *)

Definition plain (tag : string) (i : option string) (classes : list string)
    (above : list node) : element :=
  Element tag i classes ∅ above (Markup "") None ∅ [].

Definition control (tag i v : string) (above : list node) : element :=
  Element tag (Some i) [] ∅ above (Markup "") (Some v) ∅ [].

(** The page made of [els], numbered in document order, scrolled to the top. *)
Definition page (els : list element) : world :=
  World (list_to_map (imap (λ i e, (i, e)) els)) (seq 0 (length els)) (length els)
        0 None [] [] false 0 0 [].

Definition dina_order_page : world :=
  page [ Element "form" (Some "orderForm") [] ∅ [] (Markup "") None ∅
           [ ("name", FDString "Dina"); ("service", FDString "AC Cleaning");
             ("phone", FDString "0812xxxx"); ("notes", FDString "pagi") ] ].

(** A contact form whose only control is the name field. *)
Definition contact_page : world :=
  page [ plain "form" (Some "contactForm") [] []; control "input" "name" "Dina" [0] ].


(** [dina_order_page] once [initOrderForm] has run on it. *)
Definition wired_order_page : world := final initOrderForm dina_order_page.

(** A listener that cancels the event and opens one link. *)
Definition cancels (run : M unit) : Prop :=
  ∀ w, ∃ url,
    run w = (Normal (), log [PreventDefault; WindowOpen url "_blank"]
                            (with_defaultPrevented true w)).

Definition quiet (e : event) : Prop :=
  e = PreventDefault ∨ ∃ url target, e = WindowOpen url target.

(** The listener table entry left by [found && found.addEventListener(..)]. *)
Definition registration (found : option node) (type : string) (h : node → handler)
    : list (event_target * string * handler) :=
  match found with
  | Some n => [(Node n, type, h n)]
  | None => []
  end.

(** A page with a navbar, and one without any element. *)
Definition nav_page : world := page [ plain "nav" (Some "topNav") [] [] ].
Definition empty_page : world := page [].

(** Two lazy images, the second already marked loaded, watched by nobody yet. *)
Definition gallery_page : world :=
  with_observers (λ _, [Observer LazyLoad ∅])
    (page [ plain "img" None ["lazy"] []; plain "img" None ["lazy"; "loaded"] [] ]).

(** The loop of [loadAllSectionsSequentially], on its own. *)
Definition load_each (browser : host) (sections : list descriptor) : M unit :=
  for_of sections (λ s, loadSection browser (id s) (path s)).

(** A state with its clock and the time stamps of its trace erased. *)
Definition untimed_event (e : event) : event :=
  match e with
  | FetchIssued p _ => FetchIssued p 0
  | FetchSettled p _ => FetchSettled p 0
  | _ => e
  end.

Definition untimed (w : world) : world :=
  World (heap w) (order w) (next_node w) (scrollY w) (observeLazy w) (observers w)
        (listeners w) (defaultPrevented w) 0 (requests w) (untimed_event <$> trace w).

(** Two runs that agree on results and, time stamps apart, on states. *)
Definition same_untimed {A} (m1 m2 : M A) : Prop :=
  ∀ w1 w2, untimed w1 = untimed w2 →
    (m1 w1).1 = (m2 w2).1 ∧ untimed (m1 w1).2 = untimed (m2 w2).2.

(** Code that leaves no event in the trace and throws, if at all, an error
    in [P]. *)
Definition silent_unless (P : js_error → Prop) {A} (m : M A) : Prop :=
  ∀ w, trace (m w).2 = trace w ∧ ∀ e, (m w).1 = Throw e → P e.

Definition never (e : js_error) : Prop := False.

(** The one error the observers' constructor can raise, on a host without
    [IntersectionObserver]. *)
Definition no_observer (browser : host) (e : js_error) : Prop :=
  hasIntersectionObserver browser = false
  ∧ e = ReferenceError "IntersectionObserver is not defined".

(** A host that answers 404 for the hero fragment and serves every other
    path, and the page with the eight empty placeholders. *)
Definition hero_missing_host : host :=
  Host (λ k p, FetchReply (S k)
                 (if bool_decide (p = "sections/hero.html")
                  then HttpResponse 404 (Some "Not Found")
                  else HttpResponse 200 (Some ("<p>" +:+ p +:+ "</p>"))))
       (λ _, []) true 2026.

Definition placeholders_page : world :=
  page ((λ s, plain "div" (Some (id s)) [] []) <$> sections).

(** The routines that [initInteractions] calls after [initNavScroll]. *)
Definition later_routines : list string :=
  [ "initHeroInteractions"; "initServicesScroller"; "initPortfolioLightbox";
    "initContactForm"; "initOrderForm" ].

(** ** The observer callbacks and listeners that only restyle the page *)

(** The callback of the reveal observer (lines 115-121). *)
Definition reveal_callback (entries : list entry) (obs : nat) : M unit :=
  forEach entries (λ entry _,
    if isIntersecting entry then
      classList_add (target entry) "is-visible";;
      unobserve obs (target entry)
    else mret ()).

(** The callback of the contact section's observer (lines 285-291). *)
Definition stagger_callback (contactForm : node) (entries : list entry) (o : nat) : M unit :=
  forEach entries (λ entry _,
    if isIntersecting entry then
      children ← querySelectorAllIn contactForm [SelClass "reveal-child"];
      forEach children (λ el _, classList_add el "is-visible");;
      unobserve o (target entry)
    else mret ()).

Definition run_callback (cb : observer_callback) (entries : list entry) (obs : nat) : M unit :=
  match cb with
  | LazyLoad => lazy_callback entries obs
  | Reveal => reveal_callback entries obs
  | ContactStagger contactForm => stagger_callback contactForm entries obs
  end.

(** The browser reports [entries] to the observer numbered [io]. *)
Definition deliver (io : nat) (entries : list entry) : M unit :=
  o ← gets (λ w, observers w !! io);
  match o with
  | Some o => run_callback (callback o) entries io
  | None => mret ()
  end.

(** The [input] and [change] listeners of a contact-form field
    (lines 302-305 and 307-310, the same body). *)
Definition field_onInput (f : node) : M unit :=
  v ← get_value f;
  if filled v then classList_add f "filled" else classList_remove f "filled".

(** [root.querySelector(tag)] for a bare tag name. *)
Definition querySelectorTagIn (root : node) (tag : string) : M (option node) :=
  gets (λ w, head (filter (λ n, bool_decide (tagName <$> heap w !! n = Some tag)
                                && inside (heap w) root n = true) (order w))).

Section Lightbox.

(** How the browser resolves a URL against the document's base. *)
Context (absolute : string → string).

(** [img.src]: the resolved [src] attribute, empty when there is none. *)
Definition src_of (img : node) : M string :=
  a ← getAttribute img "src";
  mret (match a with
        | Some s => absolute s
        | None => ""
        end).

(** The click listener of a portfolio item (lines 252-257). *)
Definition item_onClick (lb : node) (lbImg : option node) (item : node) : M unit :=
  dataFull ← getAttribute item "data-full";
  full ← match truthy dataFull with
         | Some f => mret (Some f)
         | None =>
             img ← querySelectorTagIn item "img";
             match img with
             | Some i => s ← src_of i; mret (Some s)
             | None => mret None
             end
         end;
  match lbImg with
  | Some i => setAttribute i "src" (default "" (truthy full))
  | None => mret ()
  end;;
  classList_add lb "show";;
  setAttribute lb "aria-hidden" "false".

End Lightbox.

(** [close] (lines 245-249). *)
Definition close (lb : node) (lbImg : option node) : M unit :=
  classList_remove lb "show";;
  setAttribute lb "aria-hidden" "true";;
  match lbImg with
  | Some i => setAttribute i "src" ""
  | None => mret ()
  end.

(** The click listener of the lightbox itself (line 263); [clicked] is the
    event's target. *)
Definition lightbox_onClick (lb : node) (lbImg : option node) (clicked : node) : M unit :=
  if bool_decide (clicked = lb) then close lb lbImg else mret ().

(** ** Page start *)

(** [DOMContentLoaded] is dispatched at the document and bubbles to the
    window: the navbar listener (registered on [document], line 129) runs
    first, then [loadAllSectionsSequentially] (registered on [window],
    line 48).  An exception escaping a listener, or rejecting the promise
    of the async one, is reported and nothing more. *)
Definition DOMContentLoaded (browser : host) : M unit :=
  try_catch navbar_DOMContentLoaded (λ err, emit (Uncaught err));;
  try_catch (loadAllSectionsSequentially browser sections) (λ err, emit (Uncaught err)).

(** ** More vocabulary *)

(** Code that leaves the component [proj] of the state as it was. *)
Definition keeps {X A} (proj : world → X) (m : M A) : Prop :=
  ∀ w, proj (m w).2 = proj w.

(** The time the replies to the requests numbered [k], [k+1], ... for
    [descs] take, one after the other. *)
Fixpoint total_latency (browser : host) (k : nat) (descs : list descriptor) : nat :=
  match descs with
  | [] => 0
  | d :: rest => latency (fetchReply browser k (path d)) + total_latency browser (S k) rest
  end.

Definition attribute_of (w : world) (n : node) (a : string) : option string :=
  heap w !! n ≫= λ e, attributes e !! a.

Definition style_of (w : world) (n : node) (property : string) : option css_value :=
  heap w !! n ≫= λ e, style e !! property.

Definition is_open (e : event) : bool :=
  match e with
  | WindowOpen _ _ => true
  | _ => false
  end.

Definition count_opens (tr : list event) : nat :=
  length (filter (λ e, is_open e = true) tr).

(** The nodes [document.querySelectorAll(sels)] returns in [w]. *)
Definition all_matches (w : world) (sels : list selector) : list node :=
  filter (λ n, selects (heap w) sels n = true) (order w).

(** Code that always ends in an exception, with [proj] as it found it. *)
Definition aborts_keeping {X A} (proj : world → X) (m : M A) : Prop :=
  ∀ w, ∃ e w', m w = (Throw e, w') ∧ proj w' = proj w.

(** Code that maintains [J]. *)
Definition preserves {A} (J : world → Prop) (m : M A) : Prop :=
  ∀ w, J w → J (m w).2.

(** The nodes [root.querySelectorAll(sels)] returns in [w]. *)
Definition matches_in (w : world) (root : node) (sels : list selector) : list node :=
  filter (λ n, selects (heap w) sels n && inside (heap w) root n = true) (order w).

(** An element that is a staggered row child with the given delay. *)
Definition staggered (delay : string) (e : element) : Prop :=
  style e !! "transitionDelay" = Some (CssText delay) ∧ "reveal-child" ∈ classList e.

(** A contact form with one row that holds a label and an input. *)
Definition contact_rows_page : world :=
  page [ plain "form" (Some "contactForm") [] [];
         plain "div" None ["row"] [0];
         plain "label" None [] [1; 0];
         control "input" "name" "Dina" [1; 0] ].

(** The element [root.querySelector(tag)] returns in [w]. *)
Definition first_tag_in (w : world) (root : node) (tag : string) : option node :=
  head (filter (λ n, bool_decide (tagName <$> heap w !! n = Some tag)
                     && inside (heap w) root n = true) (order w)).

(** A gallery: an item with a full-size picture, its thumbnail, an item
    with a thumbnail only, and the closed lightbox with its image. *)
Definition portfolio_page : world :=
  page [ Element "div" None ["portfolio-item"] {["data-full" := "big.jpg"]} []
           (Markup "") None ∅ [];
         Element "img" None [] {["src" := "small.jpg"]} [0] (Markup "") None ∅ [];
         Element "div" None ["portfolio-item"] ∅ [] (Markup "") None ∅ [];
         Element "img" None [] {["src" := "thumb.jpg"]} [2] (Markup "") None ∅ [];
         plain "div" (Some "pfLightbox") ["lightbox"] [];
         plain "img" None ["lb-img"] [4] ].

(** A card scroller: without a [tabindex], with one, and with an empty one. *)
Definition scroller_page (tabindex : option string) : world :=
  page [ Element "div" None ["services-scroll"]
           (match tabindex with
            | Some t => {["tabindex" := t]}
            | None => ∅
            end) [] (Markup "") None ∅ [] ].

(** [contact_rows_page] with the rows staggered and the form's observer
    watching a section that encloses the form. *)
Definition staggered_contact_page : world :=
  with_observers (λ _, [Observer (ContactStagger 1) {[0]}])
    (page [ plain "section" None ["contact-section"] [];
            plain "form" (Some "contactForm") [] [0];
            plain "div" None ["row"] [1; 0];
            plain "label" None ["reveal-child"] [2; 1; 0];
            control "input" "name" "Dina" [2; 1; 0] ]).


(** A host that serves every fragment, the order section with the order
    form in it. *)
Definition order_form_host : host :=
  Host (λ k p, FetchReply 1 (HttpResponse 200 (Some p)))
       (λ html, if bool_decide (html = "sections/pesan.html")
                then [ Element "form" (Some "orderForm") [] ∅ [] (Markup "") None ∅
                         [("name", FDString "Dina")] ]
                else [])
       true 2026.

(** ** Vocabulary for the event loop *)

(** The containers written to, in the order of the writes. *)
Definition writes (tr : list event) : list node :=
  omap (λ e, match e with InnerHTMLSet c _ => Some c | _ => None end) tr.

(** Two containers, and a host whose first reply takes [a] and whose other
    replies take [b] units of time. *)
Definition two_containers : world :=
  page [ plain "div" (Some "a") [] []; plain "div" (Some "b") [] [] ].

Definition two_replies (a b : nat) : host :=
  Host (λ k p, FetchReply (if bool_decide (k = 0) then a else b) (HttpResponse 200 (Some p)))
       (λ _, []) true 2026.

Definition two_sections : list descriptor :=
  [ Descriptor "a" "a.html"; Descriptor "b" "b.html" ].

(** * Properties *)

(** ** Percent-encoding *)

Lemma string_app_cons (x : ascii) (a b : string) : String x a +:+ b = String x (a +:+ b).
Proof. reflexivity. Qed.

Lemma string_app_nil (b : string) : "" +:+ b = b.
Proof. reflexivity. Qed.

Lemma string_app_assoc (a b c : string) : (a +:+ b) +:+ c = a +:+ (b +:+ c).
Proof.
  induction a as [|x a IH]; [done|].
  rewrite !string_app_cons. by f_equal.
Qed.

Lemma unreserved_not_percent (c : ascii) :
  unreserved c = true → Ascii.eqb c "%" = false.
Proof.
  destruct c as [[] [] [] [] [] [] [] []]; vm_compute; congruence.
Qed.

Lemma percent_byte_decodes (c : ascii) :
  hex_value (hex_digit (code c / 16)) = Some (code c / 16)%N
  ∧ hex_value (hex_digit (code c mod 16)) = Some (code c mod 16)%N
  ∧ ascii_of_N (16 * (code c / 16) + code c mod 16) = c.
Proof.
  destruct c as [[] [] [] [] [] [] [] []]; vm_compute; done.
Qed.

Lemma encodeURIComponent_app (a b : string) :
  encodeURIComponent (a +:+ b) = encodeURIComponent a +:+ encodeURIComponent b.
Proof.
  induction a as [|x a IH]; [done|].
  rewrite string_app_cons. cbn [encodeURIComponent]. rewrite IH.
  symmetry. apply string_app_assoc.
Qed.

Lemma percent_decode_encodeURIComponent (s : string) :
  percent_decode (encodeURIComponent s) = Some s.
Proof.
  induction s as [|c s IH]; [done|].
  cbn [encodeURIComponent]. destruct (unreserved c) eqn:Hc.
  - rewrite string_app_cons, string_app_nil. cbn [percent_decode].
    rewrite (unreserved_not_percent c Hc). by rewrite IH.
  - destruct (percent_byte_decodes c) as (Hhi & Hlo & Hback).
    unfold percent_byte. rewrite !string_app_cons, string_app_nil.
    cbn [percent_decode].
    replace (Ascii.eqb "%" "%") with true by done.
    rewrite Hhi, Hlo, IH. by rewrite Hback.
Qed.

Lemma trim_empty : trim "" = "".
Proof. reflexivity. Qed.

(** ** Unpaired surrogates *)

Lemma lone_surrogate_cons_plain (c : ascii) (s : string) :
  between 237 237 c = false → lone_surrogate (String c s) = lone_surrogate s.
Proof. intros Hc. cbn [lone_surrogate]. rewrite Hc. by destruct s. Qed.

(** Cutting a string in two makes no unpaired surrogate. *)
Lemma lone_surrogate_app_false (a b : string) :
  lone_surrogate (a +:+ b) = false → lone_surrogate a = false ∧ lone_surrogate b = false.
Proof.
  induction a as [|x a IH]; [by rewrite string_app_nil|].
  rewrite string_app_cons. cbn [lone_surrogate].
  intros [Hhead Htail]%orb_false_iff. destruct (IH Htail) as [Ha Hb].
  split; [|done]. rewrite Ha, orb_false_r.
  destruct a as [|y a]; [done|]. by rewrite string_app_cons in Hhead.
Qed.

(** Joining two strings makes none either, when the second starts with a
    byte that is no second byte of a surrogate. *)
Lemma lone_surrogate_app_plain (a : string) (c : ascii) (b : string) :
  between 160 191 c = false →
  lone_surrogate (a +:+ String c b) = lone_surrogate a || lone_surrogate (String c b).
Proof.
  intros Hc. induction a as [|x a IH]; [by rewrite string_app_nil|].
  rewrite string_app_cons. cbn [lone_surrogate]. fold (lone_surrogate (String c b)).
  rewrite IH. destruct a as [|y a].
  - rewrite string_app_nil, Hc, andb_false_r. done.
  - rewrite string_app_cons. by rewrite orb_assoc.
Qed.

Lemma lone_surrogate_app_nil (a : string) : lone_surrogate (a +:+ "") = lone_surrogate a.
Proof.
  induction a as [|x a IH]; [done|].
  rewrite string_app_cons. cbn [lone_surrogate]. rewrite IH.
  destruct a as [|y a]; [done|]. by rewrite string_app_cons.
Qed.

(** *** [trim] cuts a piece out of its argument *)

Lemma strip_prefix_app (p s s' : string) :
  strip_prefix p s = Some s' → s = p +:+ s'.
Proof.
  revert s. induction p as [|a p IH]; intros s; cbn [strip_prefix].
  - by intros [= ->].
  - destruct s as [|b s]; [done|].
    destruct (Ascii.eqb a b) eqn:Hab; [|done].
    apply Ascii.eqb_eq in Hab as ->. intros Hs. rewrite string_app_cons.
    f_equal. by apply IH.
Qed.

Lemma strip_white_space_app (s s' : string) :
  strip_white_space s = Some s' → ∃ p, s = p +:+ s'.
Proof.
  unfold strip_white_space.
  destruct (list_find _ _) as [[i r]|] eqn:Hfind; [|done]. cbn.
  intros ->. apply list_find_Some in Hfind as (Hi & _ & _).
  apply list_elem_of_lookup_2, list_elem_of_fmap in Hi as (p & Hp & _).
  exists p. by apply strip_prefix_app.
Qed.

Lemma strip_white_space_end_app (s s' : string) :
  strip_white_space_end s = Some s' → ∃ p, s = p +:+ s'.
Proof.
  unfold strip_white_space_end.
  destruct (list_find _ _) as [[i r]|] eqn:Hfind; [|done]. cbn.
  intros ->. apply list_find_Some in Hfind as (Hi & _ & _).
  apply list_elem_of_lookup_2, list_elem_of_fmap in Hi as (p & Hp & _).
  exists (reverse_string p). by apply strip_prefix_app.
Qed.

Lemma trimStart_fuel_app (n : nat) (s : string) : ∃ p, s = p +:+ trimStart_fuel n s.
Proof.
  revert s. induction n as [|n IH]; intros s; cbn [trimStart_fuel]; [by exists ""|].
  destruct (strip_white_space s) as [s'|] eqn:Hs; [|by exists ""].
  apply strip_white_space_app in Hs as [p ->]. destruct (IH s') as [q Hq].
  exists (p +:+ q). rewrite string_app_assoc. by rewrite <- Hq.
Qed.

Lemma trimEnd_fuel_app (n : nat) (s : string) : ∃ p, s = p +:+ trimEnd_fuel n s.
Proof.
  revert s. induction n as [|n IH]; intros s; cbn [trimEnd_fuel]; [by exists ""|].
  destruct (strip_white_space_end s) as [s'|] eqn:Hs; [|by exists ""].
  apply strip_white_space_end_app in Hs as [p ->]. destruct (IH s') as [q Hq].
  exists (p +:+ q). rewrite string_app_assoc. by rewrite <- Hq.
Qed.

Lemma list_ascii_of_string_app (a b : string) :
  list_ascii_of_string (a +:+ b) = list_ascii_of_string a ++ list_ascii_of_string b.
Proof.
  induction a as [|c a IH]; [by rewrite string_app_nil|].
  rewrite string_app_cons. cbn. by rewrite IH.
Qed.

Lemma string_of_list_ascii_app (a b : list ascii) :
  string_of_list_ascii (a ++ b) = string_of_list_ascii a +:+ string_of_list_ascii b.
Proof.
  induction a as [|c a IH]; [done|].
  cbn. rewrite string_app_cons. by rewrite IH.
Qed.

Lemma reverse_string_app (a b : string) :
  reverse_string (a +:+ b) = reverse_string b +:+ reverse_string a.
Proof.
  unfold reverse_string.
  by rewrite list_ascii_of_string_app, reverse_app, string_of_list_ascii_app.
Qed.

Lemma reverse_string_involutive (s : string) : reverse_string (reverse_string s) = s.
Proof.
  unfold reverse_string.
  by rewrite list_ascii_of_string_of_list_ascii, reverse_involutive,
             string_of_list_ascii_of_string.
Qed.

Lemma trim_infix (s : string) : ∃ before after, s = before +:+ trim s +:+ after.
Proof.
  unfold trim, trimStart.
  destruct (trimStart_fuel_app (String.length s) s) as [before Hs].
  set (s1 := trimStart_fuel (String.length s) s) in *.
  destruct (trimEnd_fuel_app (String.length s1) (reverse_string s1)) as [p Hp].
  exists before, (reverse_string p).
  rewrite <- reverse_string_app, <- Hp. by rewrite reverse_string_involutive.
Qed.

Lemma lone_surrogate_trim (s : string) :
  lone_surrogate s = false → lone_surrogate (trim s) = false.
Proof.
  destruct (trim_infix s) as (before & after & Hs). rewrite Hs at 1.
  intros [_ H]%lone_surrogate_app_false. by apply lone_surrogate_app_false in H as [H _].
Qed.

(** *** The message templates put plain text between the values *)

Lemma lone_surrogate_plain_prefix (k x : string) :
  forallb (λ c, negb (between 237 237 c)) (list_ascii_of_string k) = true →
  lone_surrogate (k +:+ x) = lone_surrogate x.
Proof.
  induction k as [|c k IH]; [by rewrite string_app_nil|].
  cbn [list_ascii_of_string forallb]. intros [Hc Hk]%andb_true_iff.
  rewrite string_app_cons, lone_surrogate_cons_plain by by apply negb_true_iff.
  by apply IH.
Qed.

Lemma lone_surrogate_plain_between (v k x : string) :
  k ≠ "" →
  forallb (λ c, negb (between 237 237 c) && negb (between 160 191 c))
    (list_ascii_of_string k) = true →
  lone_surrogate (v +:+ k +:+ x) = lone_surrogate v || lone_surrogate x.
Proof.
  destruct k as [|c k]; [done|]. intros _.
  cbn [list_ascii_of_string forallb].
  intros [[Hc1 Hc2]%andb_true_iff Hk]%andb_true_iff.
  apply negb_true_iff in Hc1, Hc2.
  rewrite string_app_cons, lone_surrogate_app_plain by done. f_equal.
  rewrite lone_surrogate_cons_plain by done.
  apply lone_surrogate_plain_prefix.
  clear -Hk. induction (list_ascii_of_string k) as [|a l IH]; [done|].
  cbn [forallb] in *. apply andb_true_iff in Hk as [[Ha _]%andb_true_iff Hl].
  by rewrite Ha, IH.
Qed.

(** ** Running script code *)

Lemma bind_normal {A B} (m : M A) (f : A → M B) (w w' : world) (a : A) :
  m w = (Normal a, w') → (m ≫= f) w = f a w'.
Proof. intros Hm. cbv [mbind M_bind]. by rewrite Hm. Qed.

Lemma bind_throw {A B} (m : M A) (f : A → M B) (w w' : world) (e : js_error) :
  m w = (Throw e, w') → (m ≫= f) w = (Throw e, w').
Proof. intros Hm. cbv [mbind M_bind]. by rewrite Hm. Qed.

Ltac run :=
  cbv [mbind M_bind mret M_ret throw gets modify emit try_catch
       preventDefault window_open new_FormData querySelectorIn querySelectorAllIn
       querySelector querySelectorAll getElementById value_of get_value];
  cbn.

(** ** Section loader *)

Lemma getElementById_run (i : string) (w : world) :
  getElementById i w = (Normal (element_by_id w i), w).
Proof. reflexivity. Qed.

Lemma element_by_id_in_heap (w : world) (i : string) (c : node) :
  element_by_id w i = Some c → is_Some (heap w !! c).
Proof.
  unfold element_by_id. intros Hhead.
  apply head_Some_elem_of, list_elem_of_filter in Hhead as [Hsel _].
  unfold selects in Hsel. by destruct (heap w !! c).
Qed.

Lemma set_innerHTML_run (browser : host) (c : node) (html : string) (w : world) :
  ∃ w', set_innerHTML browser c html w = (Normal (), w')
        ∧ trace w' = trace w ++ [InnerHTMLSet c html]
        ∧ clock w' = clock w ∧ requests w' = requests w
        ∧ (is_Some (heap w !! c) → inner <$> heap w' !! c = Some (Markup html)).
Proof.
  eexists. split; [reflexivity|]. cbn. repeat split.
  intros [e He]. rewrite lookup_alter_eq.
  match goal with |- context [(?m ∪ heap w) !! c] =>
    destruct ((m ∪ heap w) !! c) as [x|] eqn:Hx end; [done|].
  apply lookup_union_None in Hx as [_ Hx]. congruence.
Qed.

Lemma fetch_run (browser : host) (p : string) (w : world) :
  let reply := fetchReply browser (requests w) p in
  ∃ w1,
    heap w1 = heap w ∧ order w1 = order w
    ∧ trace w1 = trace w ++ [FetchIssued p (clock w); FetchSettled p (clock w + latency reply)]
    ∧ clock w1 = clock w + latency reply
    ∧ requests w1 = S (requests w)
    ∧ fetch browser p w
      = (match outcome reply with
         | NetworkFailure => Throw (TypeError "Failed to fetch")
         | HttpResponse st b => Normal (Response st b)
         end, w1).
Proof.
  intros reply. exists (fetch browser p w).2.
  unfold fetch. fold reply. by destruct (outcome reply).
Qed.

Lemma element_by_id_heap_order (w1 w2 : world) (i : string) :
  heap w1 = heap w2 → order w1 = order w2 → element_by_id w1 i = element_by_id w2 i.
Proof. unfold element_by_id. by intros -> ->. Qed.

(** The [catch] branch of [loadSection]. *)
Lemma loadSection_catch_run (browser : host) (targetId p : string) (err : js_error)
    (w : world) :
  ∃ after w',
    (emit (ConsoleError "Error loading" p err);;
     container ← getElementById targetId;
     match container with
     | Some c => set_innerHTML browser c (failure_notice p)
     | None => mret ()
     end) w = (Normal (), w')
    ∧ trace w' = trace w ++ after
    ∧ (after = [ConsoleError "Error loading" p err]
       ∨ ∃ c, after = [ConsoleError "Error loading" p err;
                       InnerHTMLSet c (failure_notice p)])
    ∧ clock w' = clock w ∧ requests w' = requests w
    ∧ (∀ c, element_by_id w targetId = Some c →
            inner <$> heap w' !! c = Some (Markup (failure_notice p))).
Proof.
  erewrite bind_normal by reflexivity.
  erewrite bind_normal by apply getElementById_run.
  replace (element_by_id (log _ w) targetId) with (element_by_id w targetId)
    by by destruct w.
  destruct (element_by_id w targetId) as [c|] eqn:Hc.
  - destruct (set_innerHTML_run browser c (failure_notice p)
                (log [ConsoleError "Error loading" p err] w))
      as (w' & -> & Htrace & Hclock & Hrequests & Hinner).
    exists [ConsoleError "Error loading" p err; InnerHTMLSet c (failure_notice p)], w'.
    split; [done|]. split; [|split; [eauto|]].
    { rewrite Htrace. destruct w; cbn. by rewrite <- app_assoc. }
    split; [by rewrite Hclock; destruct w|]. split; [by rewrite Hrequests; destruct w|].
    intros c' [= <-]. apply Hinner.
    replace (heap (log _ w)) with (heap w) by by destruct w.
    by eapply element_by_id_in_heap.
  - exists [ConsoleError "Error loading" p err], (log [ConsoleError "Error loading" p err] w).
    split; [done|]. split; [by destruct w|]. split; [by left|].
    split; [by destruct w|]. split; [by destruct w|]. done.
Qed.

Lemma loadSection_run (browser : host) (targetId p : string) (w : world) :
  let reply := fetchReply browser (requests w) p in
  ∃ after w',
    loadSection browser targetId p w = (Normal (), w')
    ∧ trace w' = trace w ++ FetchIssued p (clock w)
                            :: FetchSettled p (clock w + latency reply) :: after
    ∧ settled_into browser (requests w) (Descriptor targetId p) after
    ∧ clock w' = clock w + latency reply
    ∧ requests w' = S (requests w)
    ∧ (∀ c, fails (outcome reply) = true → element_by_id w targetId = Some c →
            inner <$> heap w' !! c = Some (Markup (failure_notice p)))
    ∧ (∀ c st html, outcome reply = HttpResponse st (Some html) →
            ok (Response st (Some html)) = true → element_by_id w targetId = Some c →
            inner <$> heap w' !! c = Some (Markup html)).
Proof.
  intros reply.
  destruct (fetch_run browser p w) as (w1 & Hheap & Horder & Htrace1 & Hclock1 & Hreq1 & Hfetch).
  fold reply in Htrace1, Hclock1, Hfetch.
  assert (∀ i, element_by_id w1 i = element_by_id w i) as Hsame
    by (intros i; by apply element_by_id_heap_order).
  (* the reply sends the run to the catch branch *)
  assert (∀ err, fails (outcome reply) = true →
            (fetch browser p ≫= λ res,
               if negb (ok res)
               then throw (JsError ("Failed (" +:+ pretty (status res) +:+ ")"))
               else html ← text res;
                    container ← getElementById targetId;
                    match container with
                    | Some c => set_innerHTML browser c html
                    | None => emit (ConsoleWarn "Missing container for" targetId)
                    end) w = (Throw err, w1) →
            ∃ after w',
              loadSection browser targetId p w = (Normal (), w')
              ∧ trace w' = trace w ++ FetchIssued p (clock w)
                             :: FetchSettled p (clock w + latency reply) :: after
              ∧ settled_into browser (requests w) (Descriptor targetId p) after
              ∧ clock w' = clock w + latency reply
              ∧ requests w' = S (requests w)
              ∧ (∀ c, fails (outcome reply) = true → element_by_id w targetId = Some c →
                      inner <$> heap w' !! c = Some (Markup (failure_notice p)))
              ∧ (∀ c st html, outcome reply = HttpResponse st (Some html) →
                      ok (Response st (Some html)) = true →
                      element_by_id w targetId = Some c →
                      inner <$> heap w' !! c = Some (Markup html))) as Hcatch.
  { intros err Hfails Hbody.
    destruct (loadSection_catch_run browser targetId p err w1)
      as (after & w' & Hrun & Htrace & Hafter & Hclock & Hreq & Hinner).
    exists after, w'. split; [|split; [|split; [|split; [|split; [|split]]]]].
    - unfold loadSection, try_catch. rewrite Hbody. exact Hrun.
    - rewrite Htrace, Htrace1. by rewrite <- app_assoc.
    - destruct Hafter as [-> | [c ->]]; by constructor.
    - by rewrite Hclock.
    - by rewrite Hreq.
    - intros c _ Hc. apply Hinner. by rewrite Hsame.
    - intros c st html Hout Hok _. rewrite Hout in Hfails. cbn -[ok] in Hfails.
      by rewrite Hok in Hfails. }
  destruct (outcome reply) as [|st b] eqn:Hout.
  - eapply Hcatch; [done|]. by erewrite bind_throw by exact Hfetch.
  - destruct (ok (Response st b)) eqn:Hok; [destruct b as [html|]|].
    + (* the body arrived *)
      assert (fails (HttpResponse st (Some html)) = false) as Hfine
        by (cbn -[ok]; by rewrite Hok).
      destruct (element_by_id w targetId) as [c|] eqn:Hc.
      * destruct (set_innerHTML_run browser c html w1)
          as (w' & Hset & Htrace & Hclock & Hreq & Hinner).
        exists [InnerHTMLSet c html], w'.
        split; [|split; [|split; [|split; [|split; [|split]]]]].
        -- unfold loadSection, try_catch.
           erewrite bind_normal by exact Hfetch. rewrite Hok. cbn [negb].
           erewrite bind_normal by reflexivity.
           erewrite bind_normal by apply getElementById_run.
           rewrite Hsame, Hc. by rewrite Hset.
        -- rewrite Htrace, Htrace1. by rewrite <- app_assoc.
        -- by econstructor.
        -- by rewrite Hclock.
        -- by rewrite Hreq.
        -- intros c'. by rewrite Hfine.
        -- intros c' st' html' [= <- <-] _ [= <-]. apply Hinner. rewrite Hheap.
           by eapply element_by_id_in_heap.
      * exists [ConsoleWarn "Missing container for" targetId],
               (log [ConsoleWarn "Missing container for" targetId] w1).
        split; [|split; [|split; [|split; [|split; [|split]]]]].
        -- unfold loadSection, try_catch.
           erewrite bind_normal by exact Hfetch. rewrite Hok. cbn [negb].
           erewrite bind_normal by reflexivity.
           erewrite bind_normal by apply getElementById_run.
           by rewrite Hsame, Hc.
        -- replace (trace (log _ w1)) with (trace w1 ++ [ConsoleWarn "Missing container for" targetId])
             by by destruct w1.
           rewrite Htrace1. by rewrite <- app_assoc.
        -- by econstructor.
        -- by destruct w1.
        -- by destruct w1.
        -- intros c'. by rewrite Hfine.
        -- done.
    + (* reading the body fails *)
      eapply Hcatch; [cbn -[ok]; by rewrite Hok|].
      erewrite bind_normal by exact Hfetch. rewrite Hok. cbn [negb].
      by erewrite bind_throw by reflexivity.
    + (* a status outside 200-299 *)
      eapply Hcatch; [cbn -[ok]; by rewrite Hok|].
      erewrite bind_normal by exact Hfetch. by rewrite Hok.
Qed.

Lemma load_each_run (browser : host) (descs : list descriptor) (w : world) :
  ∃ tr w',
    load_each browser descs w = (Normal (), w')
    ∧ trace w' = trace w ++ tr
    ∧ sequential browser (requests w) (clock w) descs tr
    ∧ requests w' = requests w + length descs.
Proof.
  revert w. induction descs as [|d descs IH]; intros w.
  - exists [], w. rewrite app_nil_r, Nat.add_0_r. repeat split. constructor.
  - destruct (loadSection_run browser (id d) (path d) w)
      as (after & w1 & Hrun & Htrace & Hafter & Hclock & Hreq & _ & _).
    destruct (IH w1) as (tr & w' & Hrest & Htrace' & Hseq & Hreq').
    eexists _, w'. split; [|split; [|split]].
    + unfold load_each. cbn [for_of]. erewrite bind_normal by exact Hrun. exact Hrest.
    + rewrite Htrace', Htrace. rewrite <- app_assoc. reflexivity.
    + rewrite Hreq, Hclock in Hseq.
      replace (Descriptor (id d) (path d)) with d in Hafter by by destruct d.
      apply (sequential_next browser (requests w) (clock w) d descs after tr Hafter Hseq).
    + rewrite Hreq', Hreq. cbn [length]. lia.
Qed.

Lemma sequential_issued (browser : host) (k t : nat) (descs : list descriptor)
    (tr : list event) :
  sequential browser k t descs tr → issued tr = path <$> descs.
Proof.
  induction 1 as [|k t d rest after tr Hafter _ IH]; [done|].
  unfold issued in *. cbn. f_equal. rewrite omap_app, IH.
  by destruct Hafter.
Qed.

Lemma sequential_no_call (browser : host) (k t : nat) (descs : list descriptor)
    (tr : list event) (f : string) :
  sequential browser k t descs tr → Called f ∉ tr.
Proof.
  induction 1 as [|k t d rest after tr Hafter _ IH]; [apply not_elem_of_nil|].
  rewrite !not_elem_of_cons, not_elem_of_app.
  split; [done|]. split; [done|]. split; [|done].
  destruct Hafter; rewrite ?not_elem_of_cons; repeat split; try done; apply not_elem_of_nil.
Qed.

(** *** Latencies do not matter *)

Lemma untimed_inv (w1 w2 : world) :
  untimed w1 = untimed w2 →
  heap w1 = heap w2 ∧ order w1 = order w2 ∧ next_node w1 = next_node w2
  ∧ scrollY w1 = scrollY w2 ∧ observeLazy w1 = observeLazy w2
  ∧ observers w1 = observers w2 ∧ listeners w1 = listeners w2
  ∧ defaultPrevented w1 = defaultPrevented w2 ∧ requests w1 = requests w2
  ∧ untimed_event <$> trace w1 = untimed_event <$> trace w2.
Proof. intros [=]. by repeat split. Qed.

Ltac untimed_fields H :=
  apply untimed_inv in H as
    (?Hheap & ?Horder & ?Hnext & ?Hscroll & ?Hlazy & ?Hobs & ?Hlis & ?Hdef & ?Hreq & ?Htr).

Lemma same_ret {A} (a : A) : same_untimed (mret a) (mret a).
Proof. by intros w1 w2 H. Qed.

Lemma same_throw {A} (e : js_error) : same_untimed (@throw A e) (throw e).
Proof. by intros w1 w2 H. Qed.

Lemma same_bind {A B} (m1 m2 : M A) (f1 f2 : A → M B) :
  same_untimed m1 m2 → (∀ a, same_untimed (f1 a) (f2 a)) →
  same_untimed (m1 ≫= f1) (m2 ≫= f2).
Proof.
  intros Hm Hf w1 w2 H. destruct (Hm w1 w2 H) as [Hres Hfin].
  cbv [mbind M_bind].
  destruct (m1 w1) as [[a1|e1] w1'], (m2 w2) as [[a2|e2] w2']; cbn [fst snd] in *;
    try discriminate Hres.
  - injection Hres as ->. by apply Hf.
  - injection Hres as ->. by split.
Qed.

Lemma same_try_catch {A} (m1 m2 : M A) (h1 h2 : js_error → M A) :
  same_untimed m1 m2 → (∀ e, same_untimed (h1 e) (h2 e)) →
  same_untimed (try_catch m1 h1) (try_catch m2 h2).
Proof.
  intros Hm Hh w1 w2 H. destruct (Hm w1 w2 H) as [Hres Hfin].
  unfold try_catch.
  destruct (m1 w1) as [[a1|e1] w1'], (m2 w2) as [[a2|e2] w2']; cbn [fst snd] in *;
    try discriminate Hres.
  - by split.
  - injection Hres as ->. by apply Hh.
Qed.

Lemma same_for_of {A} (l : list A) (f1 f2 : A → M unit) :
  (∀ a, same_untimed (f1 a) (f2 a)) → same_untimed (for_of l f1) (for_of l f2).
Proof.
  intros Hf. induction l as [|a l IH]; [apply same_ret|].
  cbn [for_of]. apply same_bind; [apply Hf | by intros _].
Qed.

Lemma same_emit (e : event) : same_untimed (emit e) (emit e).
Proof.
  intros w1 w2 H. untimed_fields H. split; [done|].
  unfold emit, modify, log, untimed; cbn. rewrite !fmap_app. f_equal; congruence.
Qed.

Lemma same_getElementById (i : string) :
  same_untimed (getElementById i) (getElementById i).
Proof.
  intros w1 w2 H. rewrite !getElementById_run. cbn [fst snd]. split; [|done].
  untimed_fields H. f_equal. by apply element_by_id_heap_order.
Qed.

Lemma same_set_innerHTML (lat : nat → string → nat) (browser : host) (c : node)
    (html : string) :
  same_untimed (set_innerHTML (retimed lat browser) c html) (set_innerHTML browser c html).
Proof.
  intros w1 w2 H. untimed_fields H. split; [done|].
  unfold set_innerHTML, untimed, replace_children; cbn [snd retimed parseFragment heap order
    next_node scrollY observeLazy observers listeners defaultPrevented requests trace].
  rewrite !fmap_app, Hheap, Horder, Hnext. f_equal; congruence.
Qed.

Lemma same_fetch (lat : nat → string → nat) (browser : host) (p : string) :
  same_untimed (fetch (retimed lat browser) p) (fetch browser p).
Proof.
  intros w1 w2 H. untimed_fields H.
  unfold fetch. cbn [retimed fetchReply outcome latency]. rewrite Hreq.
  destruct (outcome (fetchReply browser (requests w2) p)); cbn [fst snd];
    (split; [done|]); unfold untimed; cbn; rewrite !fmap_app, Htr; cbn; f_equal; congruence.
Qed.

Lemma same_loadSection (lat : nat → string → nat) (browser : host) (targetId p : string) :
  same_untimed (loadSection (retimed lat browser) targetId p) (loadSection browser targetId p).
Proof.
  unfold loadSection. apply same_try_catch.
  - apply same_bind; [apply same_fetch|]. intros res.
    destruct (negb (ok res)); [apply same_throw|].
    apply same_bind.
    { unfold text. destruct (body res); [apply same_ret | apply same_throw]. }
    intros html. apply same_bind; [apply same_getElementById|].
    intros [c|]; [apply same_set_innerHTML | apply same_emit].
  - intros err. apply same_bind; [apply same_emit|]. intros _.
    apply same_bind; [apply same_getElementById|].
    intros [c|]; [apply same_set_innerHTML | apply same_ret].
Qed.

(** ** The initializer *)

Lemma silent_ret {A} (P : js_error → Prop) (a : A) : silent_unless P (mret a).
Proof. by intros w. Qed.

Lemma silent_gets {A} (P : js_error → Prop) (f : world → A) : silent_unless P (gets f).
Proof. by intros w. Qed.

Lemma silent_modify (P : js_error → Prop) (f : world → world) :
  (∀ w, trace (f w) = trace w) → silent_unless P (modify f).
Proof. intros Hf w. split; [apply Hf | done]. Qed.

Lemma silent_bind {A B} (P : js_error → Prop) (m : M A) (f : A → M B) :
  silent_unless P m → (∀ a, silent_unless P (f a)) → silent_unless P (m ≫= f).
Proof.
  intros Hm Hf w. destruct (Hm w) as [Htrace Herr].
  cbv [mbind M_bind]. destruct (m w) as [[a|e] w']; cbn [fst snd] in *.
  - destruct (Hf a w') as [Htrace' Herr']. split; [congruence | done].
  - split; [done|]. intros e' [= <-]. by apply Herr.
Qed.

Lemma silent_forEach_from {A} (P : js_error → Prop) (l : list A) (body : A → nat → M unit)
    (k : nat) :
  (∀ a i, silent_unless P (body a i)) → silent_unless P (forEach_from k l body).
Proof.
  intros Hbody. revert k. induction l as [|a l IH]; intros k; [apply silent_ret|].
  cbn [forEach_from]. apply silent_bind; [apply Hbody | intros _; apply IH].
Qed.

Lemma silent_observe (P : js_error → Prop) (io : nat) (n : node) :
  silent_unless P (observe io n).
Proof. apply silent_modify. by intros []. Qed.

Lemma silent_new_IntersectionObserver (browser : host) (cb : observer_callback) :
  silent_unless (no_observer browser) (new_IntersectionObserver browser cb).
Proof.
  intros w. unfold new_IntersectionObserver.
  destruct (hasIntersectionObserver browser) eqn:Hio; cbn [fst snd].
  - split; [by destruct w | done].
  - split; [done|]. by intros e [= <-].
Qed.

Lemma silent_setYear (browser : host) : silent_unless never (setYear browser).
Proof.
  unfold setYear. apply silent_bind; [apply silent_gets|]. intros els.
  apply silent_forEach_from. intros el _ w. split; [by destruct w | done].
Qed.

Lemma silent_initLazyLoader (browser : host) :
  silent_unless (no_observer browser) (initLazyLoader browser).
Proof.
  unfold initLazyLoader. apply silent_bind; [apply silent_gets|].
  intros [io|]; [apply silent_ret|].
  apply silent_bind; [apply silent_new_IntersectionObserver|]. intros io.
  apply silent_bind; [apply silent_gets|]. intros imgs.
  apply silent_bind.
  - apply silent_forEach_from. intros i _. apply silent_observe.
  - intros _. apply silent_modify. by intros [].
Qed.

Lemma silent_initRevealOnScroll (browser : host) :
  silent_unless (no_observer browser) (initRevealOnScroll browser).
Proof.
  unfold initRevealOnScroll. apply silent_bind; [apply silent_gets|].
  intros [|r reveals]; [apply silent_ret|].
  apply silent_bind; [apply silent_new_IntersectionObserver|]. intros io.
  apply silent_forEach_from. intros i _. apply silent_observe.
Qed.

(** A call to a declared function that leaves no event of its own. *)
Lemma call_silent (browser : host) (P : js_error → Prop) (name : string) (f : M unit)
    (w : world) :
  resolve name (declarations browser) = Some f → silent_unless P f →
  ∃ c w', call browser name w = (c, w')
          ∧ trace w' = trace w ++ [Called name]
          ∧ ∀ e, c = Throw e → P e.
Proof.
  intros Hf Hsilent. unfold call. rewrite Hf.
  erewrite bind_normal by reflexivity.
  destruct (Hsilent (log [Called name] w)) as [Htrace Herr].
  destruct (f (log [Called name] w)) as [c w'] eqn:Hrun. cbn [fst snd] in *.
  exists c, w'. split; [done|]. split; [|done].
  rewrite Htrace. by destruct w.
Qed.

Lemma call_initNavScroll (browser : host) (w : world) :
  call browser "initNavScroll" w
    = (Throw (ReferenceError "initNavScroll is not defined"), w).
Proof. reflexivity. Qed.

Lemma initInteractions_run (browser : host) (w : world) :
  ∃ err tl w',
    initInteractions browser w = (Throw err, w')
    ∧ trace w' = trace w ++ Called "initInteractions" :: tl
    ∧ (err = ReferenceError "initNavScroll is not defined"
       ∧ tl = [Called "setYear"; Called "initLazyLoader"; Called "initRevealOnScroll"]
       ∨ err = ReferenceError "IntersectionObserver is not defined"
         ∧ hasIntersectionObserver browser = false
         ∧ (tl = [Called "setYear"; Called "initLazyLoader"]
            ∨ tl = [Called "setYear"; Called "initLazyLoader"; Called "initRevealOnScroll"])).
Proof.
  unfold initInteractions.
  erewrite bind_normal by reflexivity.
  set (w0 := log [Called "initInteractions"] w).
  assert (trace w0 = trace w ++ [Called "initInteractions"]) as H0 by by destruct w.
  destruct (call_silent browser never "setYear" _ w0 eq_refl (silent_setYear browser))
    as (c1 & w1 & Hrun1 & H1 & Herr1).
  destruct c1 as [[]|e1]; [|by destruct (Herr1 e1)].
  erewrite bind_normal by exact Hrun1.
  destruct (call_silent browser (no_observer browser) "initLazyLoader" _ w1 eq_refl
              (silent_initLazyLoader browser)) as (c2 & w2 & Hrun2 & H2 & Herr2).
  destruct c2 as [[]|e2].
  - erewrite bind_normal by exact Hrun2.
    destruct (call_silent browser (no_observer browser) "initRevealOnScroll" _ w2 eq_refl
                (silent_initRevealOnScroll browser)) as (c3 & w3 & Hrun3 & H3 & Herr3).
    destruct c3 as [[]|e3].
    + erewrite bind_normal by exact Hrun3.
      erewrite bind_throw by apply call_initNavScroll.
      eexists _, _, w3. split; [done|]. split; [|by left].
      rewrite H3, H2, H1, H0. by rewrite <- !app_assoc.
    + erewrite bind_throw by exact Hrun3.
      eexists _, _, w3. split; [done|]. split.
      * rewrite H3, H2, H1, H0. by rewrite <- !app_assoc.
      * right. destruct (Herr3 e3 eq_refl) as [Hio ->]. by repeat split; try right.
  - erewrite bind_throw by exact Hrun2.
    eexists _, _, w2. split; [done|]. split.
    + rewrite H2, H1, H0. by rewrite <- !app_assoc.
    + right. destruct (Herr2 e2 eq_refl) as [Hio ->]. by repeat split; try left.
Qed.

Lemma loadAllSectionsSequentially_run (browser : host) (descs : list descriptor) (w : world) :
  ∃ err tr tl w',
    loadAllSectionsSequentially browser descs w = (Throw err, w')
    ∧ trace w' = trace w ++ tr ++ Called "initInteractions" :: tl
    ∧ sequential browser (requests w) (clock w) descs tr
    ∧ (err = ReferenceError "initNavScroll is not defined"
       ∧ tl = [Called "setYear"; Called "initLazyLoader"; Called "initRevealOnScroll"]
       ∨ err = ReferenceError "IntersectionObserver is not defined"
         ∧ hasIntersectionObserver browser = false
         ∧ (tl = [Called "setYear"; Called "initLazyLoader"]
            ∨ tl = [Called "setYear"; Called "initLazyLoader"; Called "initRevealOnScroll"])).
Proof.
  destruct (load_each_run browser descs w) as (tr & w1 & Hloop & Htrace1 & Hseq & _).
  destruct (initInteractions_run browser w1) as (err & tl & w' & Hinit & Htrace & Hcases).
  exists err, tr, tl, w'. split; [|split; [|split]]; [| |done|done].
  - unfold loadAllSectionsSequentially. fold (load_each browser descs).
    erewrite bind_normal by exact Hloop. exact Hinit.
  - rewrite Htrace, Htrace1. by rewrite <- app_assoc.
Qed.

(** C1, on the code. For every host, descriptor list and page, the run of
    [loadAllSectionsSequentially] handles all descriptors, enters
    [initInteractions] once and ends in an exception: the call to
    [initNavScroll], which no declaration binds, throws a [ReferenceError]
    (unless the host lacks [IntersectionObserver] and the run has stopped
    even earlier).  None of the five routines that follow is entered. *)
Theorem initInteractions_stops_at_initNavScroll (browser : host) (descs : list descriptor)
    (w : world) :
  ∃ err tr tl,
    result (loadAllSectionsSequentially browser descs) w = Throw err
    ∧ trace (final (loadAllSectionsSequentially browser descs) w)
      = trace w ++ tr ++ Called "initInteractions" :: tl
    ∧ sequential browser (requests w) (clock w) descs tr
    ∧ (err = ReferenceError "initNavScroll is not defined"
       ∧ tl = [Called "setYear"; Called "initLazyLoader"; Called "initRevealOnScroll"]
       ∨ err = ReferenceError "IntersectionObserver is not defined"
         ∧ hasIntersectionObserver browser = false
         ∧ (tl = [Called "setYear"; Called "initLazyLoader"]
            ∨ tl = [Called "setYear"; Called "initLazyLoader"; Called "initRevealOnScroll"]))
    ∧ Forall (λ f, Called f ∉ tr ++ Called "initInteractions" :: tl) later_routines.
Proof.
  destruct (loadAllSectionsSequentially_run browser descs w)
    as (err & tr & tl & w' & Hrun & Htrace & Hseq & Hcases).
  exists err, tr, tl. unfold result, final. rewrite Hrun. cbn [fst snd].
  split; [done|]. split; [done|]. split; [done|]. split; [done|].
  apply Forall_forall. intros f Hf.
  rewrite not_elem_of_app. split; [by eapply sequential_no_call|].
  assert (f ∉ ["initInteractions"; "setYear"; "initLazyLoader"; "initRevealOnScroll"])
    as Hfresh.
  { unfold later_routines in Hf.
    repeat (apply elem_of_cons in Hf as [-> | Hf];
            [rewrite !not_elem_of_cons; repeat split; done || apply not_elem_of_nil|]).
    by apply elem_of_nil in Hf. }
  intros Hin. apply Hfresh.
  apply elem_of_cons in Hin as [[= ->] | Hin]; [by constructor|].
  apply elem_of_cons; right.
  destruct Hcases as [[_ ->] | (_ & _ & [-> | ->])];
    repeat (apply elem_of_cons in Hin as [[= ->] | Hin]; [by repeat constructor|]);
    by apply elem_of_nil in Hin.
Qed.

(** On the page with all eight placeholders, served by a host that has
    [IntersectionObserver], the run ends in the [ReferenceError]. *)
Example initInteractions_on_placeholders :
  result (loadAllSectionsSequentially hero_missing_host sections) placeholders_page
    = Throw (ReferenceError "initNavScroll is not defined")
  ∧ listeners (final (loadAllSectionsSequentially hero_missing_host sections)
                 placeholders_page) = [].
Proof. by vm_compute. Qed.

(** ** The loader on the event loop *)

(** *** A task on its own runs as the synchronous reading says *)

Lemma fetch_issue_settle (browser : host) (p : string) (w : world)
    (k : completion response → Async.async unit) :
  let reply := fetchReply browser (requests w) p in
  fetch browser p w
  = (Async.settlement (outcome reply),
     Async.settle (Async.InFlight (clock w + latency reply) p (outcome reply) k)
       (Async.issue p w)).
Proof.
  intros reply. unfold fetch, Async.settle, Async.issue. fold reply.
  cbn [heap order next_node scrollY observeLazy observers listeners defaultPrevented
       clock requests trace Async.arrival Async.request].
  rewrite Nat.max_r by lia. rewrite <- app_assoc. cbn [app].
  by destruct (outcome reply).
Qed.

Section Alone.

Context (browser : host).

Lemma alone_lift {A : Type} (m : M A) (w : world) :
  Async.alone browser (Async.lift m) w = Some (m w, 0).
Proof. cbn. by destruct (m w). Qed.

Lemma alone_await_fetch (p : string) (w : world) :
  Async.alone browser (Async.await_fetch p) w = Some (fetch browser p w, 1).
Proof. cbn. by destruct (fetch browser p w). Qed.

Lemma alone_bind {A B : Type} (t : Async.async A) (f : A → Async.async B) (w : world) :
  Async.alone browser (Async.bind t f) w
  = match Async.alone browser t w with
    | Some (Normal a, w', n) =>
        match Async.alone browser (f a) w' with
        | Some (c, w'', m) => Some (c, w'', n + m)
        | None => None
        end
    | Some (Throw e, w', n) => Some (Throw e, w', n)
    | None => None
    end.
Proof.
  revert w. induction t as [A [a|e]|A step next IH|A p k IH|A child _ next _]; intros w; cbn.
  - by destruct (Async.alone browser (f a) w) as [[[c w''] m]|].
  - done.
  - apply IH.
  - destruct (fetch browser p w) as [c w']. rewrite IH.
    destruct (Async.alone browser (k c) w') as [[[[a|e] w1] n]|]; cbn; [|done|done].
    by destruct (Async.alone browser (f a) w1) as [[[c' w2] m]|].
  - done.
Qed.

Lemma alone_try_catch {A : Type} (t : Async.async A) (h : js_error → Async.async A)
    (w : world) :
  Async.alone browser (Async.try_catch t h) w
  = match Async.alone browser t w with
    | Some (Normal a, w', n) => Some (Normal a, w', n)
    | Some (Throw e, w', n) =>
        match Async.alone browser (h e) w' with
        | Some (c, w'', m) => Some (c, w'', n + m)
        | None => None
        end
    | None => None
    end.
Proof.
  revert w. induction t as [A [a|e]|A step next IH|A p k IH|A child _ next _]; intros w; cbn.
  - done.
  - by destruct (Async.alone browser (h e) w) as [[[c w''] m]|].
  - apply IH.
  - destruct (fetch browser p w) as [c w']. rewrite IH.
    destruct (Async.alone browser (k c) w') as [[[[a|e] w1] n]|]; cbn; [done| |done].
    by destruct (Async.alone browser (h e) w1) as [[[c' w2] m]|].
  - done.
Qed.

(** [loadSection] starts no other task and waits for one reply; on its own
    it runs as the synchronous reading says. *)
Lemma alone_loadSection (targetId p : string) (w : world) :
  Async.alone browser (Async.loadSection browser targetId p) w
  = Some (loadSection browser targetId p w, 1).
Proof.
  unfold Async.loadSection, loadSection, try_catch.
  rewrite alone_try_catch.
  change (Async.alone browser (_ ≫= _) w)
    with (Async.alone browser
            (Async.bind (Async.await_fetch p)
               (λ res, Async.lift
                  (if negb (ok res)
                   then throw (JsError ("Failed (" +:+ pretty (status res) +:+ ")"))
                   else html ← text res;
                        container ← getElementById targetId;
                        match container with
                        | Some c => set_innerHTML browser c html
                        | None => emit (ConsoleWarn "Missing container for" targetId)
                        end))) w).
  rewrite alone_bind, alone_await_fetch.
  destruct (fetch browser p w) as [[res|e] w1] eqn:Hfetch.
  - rewrite alone_lift. erewrite bind_normal by exact Hfetch.
    match goal with |- context [match ?m w1 with _ => _ end] => destruct (m w1) as [[[]|e] w2] end;
      [done|]. rewrite alone_lift.
    match goal with |- (let (_, _) := ?x in _) = _ => by destruct x end.
  - erewrite bind_throw by exact Hfetch. rewrite alone_lift.
    match goal with |- (let (_, _) := ?x in _) = _ => by destruct x end.
Qed.

Lemma alone_for_of_loadSection (descs : list descriptor) (w : world) :
  Async.alone browser
    (Async.for_of descs (λ s, Async.loadSection browser (id s) (path s))) w
  = Some (load_each browser descs w, length descs).
Proof.
  revert w. induction descs as [|d descs IH]; intros w; [done|].
  cbn [Async.for_of length]. unfold load_each. cbn [for_of].
  change (Async.alone browser (_ ≫= _) w)
    with (Async.alone browser
            (Async.bind (Async.loadSection browser (id d) (path d))
               (λ _, Async.for_of descs
                       (λ s, Async.loadSection browser (id s) (path s)))) w).
  rewrite alone_bind, alone_loadSection.
  destruct (loadSection_run browser (id d) (path d) w) as (after & w1 & Hrun & _).
  rewrite Hrun. erewrite bind_normal by exact Hrun. rewrite IH. unfold load_each.
  by destruct (for_of descs _ w1) as [c w2].
Qed.

(** The async loader starts no other task and waits for one reply per
    descriptor; run with nothing else scheduled, it is the loader of the
    synchronous reading. *)
Lemma alone_is_atomic (descs : list descriptor) (w : world) :
  Async.alone browser (Async.loadAllSectionsSequentially browser descs) w
  = Some (loadAllSectionsSequentially browser descs w, length descs).
Proof.
  unfold Async.loadAllSectionsSequentially, loadAllSectionsSequentially.
  change (Async.alone browser (_ ≫= _) w)
    with (Async.alone browser
            (Async.bind (Async.for_of descs (λ s, Async.loadSection browser (id s) (path s)))
                        (λ _, Async.lift (initInteractions browser))) w).
  rewrite alone_bind, alone_for_of_loadSection.
  destruct (load_each_run browser descs w) as (tr & w1 & Hrun & _).
  rewrite Hrun. fold (load_each browser descs). erewrite bind_normal by exact Hrun.
  rewrite alone_lift. rewrite Nat.add_0_r.
  by destruct (initInteractions browser w1) as [c w2].
Qed.

(** *** The event loop with one task *)

(** What an exception that ends a task leaves behind. *)
Lemma start_finished (c : completion unit) (w : world) :
  Async.start browser (Async.Finished c) w
  = ([], (try_catch (λ w0, (c, w0)) (λ err, emit (Uncaught err)) w).2).
Proof. unfold Async.start, try_catch. cbn. by destruct c as [[]|e]. Qed.

(** With one task that starts no other, the loop is that task on its own:
    every reply is waited for, and an exception that ends the task is an
    unhandled rejection. *)
Lemma run_alone (t : Async.async unit) (w : world) (fuel : nat) (r : completion unit * world)
    (n : nat) :
  Async.alone browser t w = Some (r, n) →
  n ≤ fuel →
  Async.run browser fuel [t] w
  = Some (final (try_catch (λ _, r) (λ err, emit (Uncaught err))) w).
Proof.
  unfold Async.run, final. cbn [Async.start_all].
  revert t w fuel r n. fix IH 1. intros t w fuel r n.
  destruct t as [c|step next|p k|child next]; cbn [Async.alone].
  - intros [= <- <-] _. rewrite start_finished. rewrite app_nil_r.
    unfold try_catch. destruct c as [[]|e]; by destruct fuel.
  - intros Halone Hfuel. specialize (IH (next w) (step w) fuel r n Halone Hfuel).
    unfold Async.start in *. cbn [Async.advance].
    unfold try_catch in *. destruct r as [c w'].
    destruct (Async.advance browser (next w) (step w)) as [[at_ started] w1].
    destruct (Async.park browser at_ w1) as [parked w2].
    by destruct c.
  - rewrite (fetch_issue_settle browser p w k).
    set (inflight := Async.InFlight _ p _ k).
    destruct (Async.alone browser _ _) as [[r' m]|] eqn:Halone; [|done].
    cbn. destruct r' as [c' w'']. intros [= <- <-] Hfuel.
    destruct fuel as [|fuel]; [lia|]. apply le_S_n in Hfuel.
    cbn [Async.event_loop Async.earliest].
    fold inflight. cbn [Async.resume Async.reply inflight].
    specialize (IH _ _ fuel _ _ Halone Hfuel).
    destruct (Async.start browser _ _) as [more w1].
    rewrite app_nil_r in IH. cbn [app]. unfold try_catch in *. by destruct c'.
  - done.
Qed.

End Alone.

(** *** The initializer does not look at the clock *)

Lemma bind_ext {A B} (m : M A) (f g : A → M B) (w : world) :
  (∀ a w', f a w' = g a w') → (m ≫= f) w = (m ≫= g) w.
Proof. intros Hfg. cbv [mbind M_bind]. destruct (m w) as [[a|e] w']; [apply Hfg | done]. Qed.

(** [initInteractions] as far as it gets. *)
Lemma initInteractions_prefix (browser : host) (w : world) :
  initInteractions browser w
  = (emit (Called "initInteractions");;
     call browser "setYear";;
     call browser "initLazyLoader";;
     call browser "initRevealOnScroll";;
     throw (ReferenceError "initNavScroll is not defined")) w.
Proof.
  unfold initInteractions.
  do 4 (apply bind_ext; intros _ ?).
  by erewrite bind_throw by apply call_initNavScroll.
Qed.

Lemma same_gets {A} (f : world → A) :
  (∀ w1 w2, untimed w1 = untimed w2 → f w1 = f w2) → same_untimed (gets f) (gets f).
Proof. intros Hf w1 w2 H. split; [cbn; f_equal; by apply Hf | done]. Qed.

Lemma same_modify (g : world → world) :
  (∀ w1 w2, untimed w1 = untimed w2 → untimed (g w1) = untimed (g w2)) →
  same_untimed (modify g) (modify g).
Proof. intros Hg w1 w2 H. split; [done | by apply Hg]. Qed.

Lemma same_forEach_from {A} (l : list A) (f : A → nat → M unit) (k : nat) :
  (∀ a i, same_untimed (f a i) (f a i)) →
  same_untimed (forEach_from k l f) (forEach_from k l f).
Proof.
  intros Hf. revert k. induction l as [|a l IH]; intros k; [apply same_ret|].
  cbn [forEach_from]. apply same_bind; [apply Hf | intros _; apply IH].
Qed.

Lemma same_querySelectorAll (sels : list selector) :
  same_untimed (querySelectorAll sels) (querySelectorAll sels).
Proof.
  apply same_gets. intros w1 w2 H. untimed_fields H. by rewrite Hheap, Horder.
Qed.

Lemma same_observe (io : nat) (n : node) : same_untimed (observe io n) (observe io n).
Proof.
  apply same_modify. intros w1 w2 H. untimed_fields H.
  unfold untimed, with_observers; cbn. f_equal; congruence.
Qed.

Lemma same_new_IntersectionObserver (lat : nat → string → nat) (browser : host)
    (cb : observer_callback) :
  same_untimed (new_IntersectionObserver (retimed lat browser) cb)
               (new_IntersectionObserver browser cb).
Proof.
  intros w1 w2 H. untimed_fields H. unfold new_IntersectionObserver.
  cbn [retimed hasIntersectionObserver].
  destruct (hasIntersectionObserver browser); cbn [fst snd].
  - split; [by rewrite Hobs|]. unfold untimed, with_observers; cbn. f_equal; congruence.
  - split; [done|]. unfold untimed. f_equal; congruence.
Qed.

Lemma same_initInteractions (lat : nat → string → nat) (browser : host) :
  same_untimed (initInteractions (retimed lat browser)) (initInteractions browser).
Proof.
  intros w1 w2 H. rewrite !initInteractions_prefix. revert w1 w2 H.
  apply same_bind; [apply same_emit|]. intros _.
  apply same_bind.
  { change (same_untimed (emit (Called "setYear");; setYear (retimed lat browser))
                         (emit (Called "setYear");; setYear browser)).
    apply same_bind; [apply same_emit|]. intros _.
    unfold setYear, forEach. cbn [retimed fullYear].
    apply same_bind; [apply same_querySelectorAll|]. intros els.
    apply same_forEach_from. intros el _.
    apply same_modify. intros w1 w2 H. untimed_fields H.
    unfold untimed, with_heap; cbn. f_equal; try congruence.
    unfold replace_children. by rewrite Hheap, Horder. }
  intros _. apply same_bind.
  { change (same_untimed
              (emit (Called "initLazyLoader");; initLazyLoader (retimed lat browser))
              (emit (Called "initLazyLoader");; initLazyLoader browser)).
    apply same_bind; [apply same_emit|]. intros _.
    unfold initLazyLoader, forEach.
    apply same_bind.
    { apply same_gets. intros w1 w2 H. by untimed_fields H. }
    intros [io|]; [apply same_ret|].
    apply same_bind; [apply same_new_IntersectionObserver|]. intros io.
    apply same_bind; [apply same_querySelectorAll|]. intros imgs.
    apply same_bind; [apply same_forEach_from; intros; apply same_observe|]. intros _.
    apply same_modify. intros w1 w2 H. untimed_fields H.
    unfold untimed, with_observeLazy; cbn. f_equal; congruence. }
  intros _. apply same_bind; [|intros _; apply same_throw].
  change (same_untimed
            (emit (Called "initRevealOnScroll");; initRevealOnScroll (retimed lat browser))
            (emit (Called "initRevealOnScroll");; initRevealOnScroll browser)).
  apply same_bind; [apply same_emit|]. intros _.
  unfold initRevealOnScroll, forEach.
  apply same_bind; [apply same_querySelectorAll|]. intros [|r reveals]; [apply same_ret|].
  apply same_bind; [apply same_new_IntersectionObserver|]. intros io.
  apply same_forEach_from; intros; apply same_observe.
Qed.

(** The loader, with the report of the exception that ends it. *)
Lemma same_loader (lat : nat → string → nat) (browser : host) (descs : list descriptor) :
  same_untimed
    (try_catch (loadAllSectionsSequentially (retimed lat browser) descs)
               (λ err, emit (Uncaught err)))
    (try_catch (loadAllSectionsSequentially browser descs) (λ err, emit (Uncaught err))).
Proof.
  apply same_try_catch; [|intros err; apply same_emit].
  unfold loadAllSectionsSequentially. apply same_bind.
  - apply same_for_of. intros s. apply same_loadSection.
  - intros _. apply same_initInteractions.
Qed.

(** Replies that arrive in another order change what two loads started side
    by side leave behind: the container of the faster reply is written
    first.  The loader, which awaits every reply before it makes the next
    request, writes in the order of its list under both timings. *)
Example side_by_side_follows_the_replies :
  let side_by_side h :=
    [ Async.loadSection h "a" "a.html"; Async.loadSection h "b" "b.html" ] in
  let loader h := [ Async.loadAllSectionsSequentially h two_sections ] in
  (writes ∘ trace <$> Async.run (two_replies 5 1) 2 (side_by_side (two_replies 5 1))
                        two_containers) = Some [1; 0]
  ∧ (writes ∘ trace <$> Async.run (two_replies 1 5) 2 (side_by_side (two_replies 1 5))
                          two_containers) = Some [0; 1]
  ∧ (writes ∘ trace <$> Async.run (two_replies 5 1) 2 (loader (two_replies 5 1))
                          two_containers) = Some [0; 1]
  ∧ (writes ∘ trace <$> Async.run (two_replies 1 5) 2 (loader (two_replies 1 5))
                          two_containers) = Some [0; 1]
  ∧ (trace <$> Async.run (two_replies 5 1) 2 (side_by_side (two_replies 5 1))
                 two_containers)
    = Some [ FetchIssued "a.html" 0; FetchIssued "b.html" 0;
             FetchSettled "b.html" 1; InnerHTMLSet 1 "b.html";
             FetchSettled "a.html" 5; InnerHTMLSet 0 "a.html" ].
Proof. by vm_compute. Qed.

(** A loader that called [loadSection] without [await] would have both
    requests in flight at once, and would wire the page before a single
    reply had arrived; the loader of the source does neither. *)
Example loads_not_awaited_overlap :
  let h := two_replies 5 1 in
  let not_awaited :=
    Async.Fork (Async.loadSection h "a" "a.html")
      (Async.Fork (Async.loadSection h "b" "b.html")
         (Async.lift (initInteractions h))) in
  (take 3 ∘ trace <$> Async.run h 2 [not_awaited] two_containers)
  = Some [ FetchIssued "a.html" 0; FetchIssued "b.html" 0; Called "initInteractions" ]
  ∧ (take 7 ∘ trace <$> Async.run h 2 [Async.loadAllSectionsSequentially h two_sections]
                          two_containers)
    = Some [ FetchIssued "a.html" 0; FetchSettled "a.html" 5; InnerHTMLSet 0 "a.html";
             FetchIssued "b.html" 5; FetchSettled "b.html" 6; InnerHTMLSet 1 "b.html";
             Called "initInteractions" ]
  ∧ Async.alone h not_awaited two_containers = None.
Proof. by vm_compute. Qed.

(** *** The loader, one descriptor at a time *)

(** The loop of the loader and a single load, as tasks of their own. *)
Lemma run_load_each (browser : host) (descs : list descriptor) (w : world) :
  Async.run browser (length descs)
    [Async.for_of descs (λ s, Async.loadSection browser (id s) (path s))] w
  = Some (final (load_each browser descs) w).
Proof.
  rewrite (run_alone browser _ w _ _ _ (alone_for_of_loadSection browser descs w)) by done.
  f_equal. unfold final, try_catch.
  by destruct (load_each_run browser descs w) as (tr & w' & -> & _).
Qed.

Lemma run_loadSection (browser : host) (targetId p : string) (w : world) :
  Async.run browser 1 [Async.loadSection browser targetId p] w
  = Some (final (loadSection browser targetId p) w).
Proof.
  rewrite (run_alone browser _ w _ _ _ (alone_loadSection browser targetId p w)) by done.
  f_equal. unfold final, try_catch.
  by destruct (loadSection_run browser targetId p w) as (after & w' & -> & _).
Qed.

Lemma run_loader (browser : host) (descs : list descriptor) (w : world) (fuel : nat) :
  length descs ≤ fuel →
  Async.run browser fuel [Async.loadAllSectionsSequentially browser descs] w
  = Some (final (try_catch (loadAllSectionsSequentially browser descs)
                           (λ err, emit (Uncaught err))) w).
Proof.
  intros Hfuel.
  by rewrite (run_alone browser _ w _ _ _ (alone_is_atomic browser descs w)).
Qed.

(** C2. On the event loop, where a request and its reply are two events
    and any task whose reply has arrived may run in between, the loader
    handles the descriptors strictly one after the other, in list order:
    each request is issued at the moment the one before it has settled and
    its container has been dealt with, and no other request is made.  The
    run takes one turn of the loop per descriptor and ends where handling
    the descriptors one by one, each to its end, leads.  What it leaves
    behind does not depend on the latencies: with any other latencies the
    run ends in the same state, time stamps apart.  A fragment that arrives
    becomes the content of the container its descriptor names. *)
Theorem sections_load_one_at_a_time (browser : host) (lat : nat → string → nat)
    (descs : list descriptor) (w : world) :
  let loader h := [Async.loadAllSectionsSequentially h descs] in
  ∃ w',
    (∀ fuel, length descs ≤ fuel → Async.run browser fuel (loader browser) w = Some w')
    ∧ w' = final (try_catch (loadAllSectionsSequentially browser descs)
                            (λ err, emit (Uncaught err))) w
    ∧ (∃ tr rest,
         trace w' = trace w ++ tr ++ Called "initInteractions" :: rest
         ∧ sequential browser (requests w) (clock w) descs tr
         ∧ issued (tr ++ Called "initInteractions" :: rest) = path <$> descs)
    ∧ untimed <$> Async.run (retimed lat browser) (length descs)
                    (loader (retimed lat browser)) w
      = Some (untimed w')
    ∧ ∀ before d after c st html w1 w2,
        descs = before ++ d :: after →
        Async.run browser (length before)
          [Async.for_of before (λ s, Async.loadSection browser (id s) (path s))] w
        = Some w1 →
        outcome (fetchReply browser (requests w1) (path d)) = HttpResponse st (Some html) →
        ok (Response st (Some html)) = true →
        element_by_id w1 (id d) = Some c →
        Async.run browser 1 [Async.loadSection browser (id d) (path d)] w1 = Some w2 →
        inner <$> heap w2 !! c = Some (Markup html).
Proof.
  intros loader. eexists. split; [intros fuel Hfuel; by apply run_loader|].
  split; [reflexivity|]. split; [|split].
  - destruct (loadAllSectionsSequentially_run browser descs w)
      as (err & tr & tl & w' & Hrun & Htrace & Hseq & Hcases).
    exists tr, (tl ++ [Uncaught err]).
    unfold final, try_catch. rewrite Hrun. cbn [snd emit modify].
    split; [|split; [done|]].
    + replace (trace (log [Uncaught err] w')) with (trace w' ++ [Uncaught err])
        by by destruct w'.
      rewrite Htrace. by rewrite <- !app_assoc.
    + unfold issued. rewrite omap_app. fold (issued tr).
      rewrite (sequential_issued _ _ _ _ _ Hseq).
      destruct Hcases as [[_ ->] | (_ & _ & [-> | ->])]; cbn; by rewrite app_nil_r.
  - unfold loader. rewrite run_loader by done. cbn [fmap option_fmap option_map]. f_equal.
    by apply same_loader.
  - intros before d after c st html w1 w2 _ Hbefore Hout Hok Hc Hload.
    rewrite run_load_each in Hbefore. injection Hbefore as <-.
    rewrite run_loadSection in Hload. injection Hload as <-.
    destruct (loadSection_run browser (id d) (path d) (final (load_each browser before) w))
      as (ev & w3 & Hstep & _ & _ & _ & _ & _ & Hfilled).
    unfold final at 1. rewrite Hstep. by eapply Hfilled.
Qed.

Lemma sections_load_one_at_a_time_witness :
  ∃ w',
    Async.run hero_missing_host 8
      [Async.loadAllSectionsSequentially hero_missing_host sections] placeholders_page
    = Some w'
    ∧ issued (trace w') = path <$> sections
    ∧ inner <$> heap w' !! 0 = Some (Markup "<p>sections/navbar.html</p>").
Proof.
  destruct (sections_load_one_at_a_time hero_missing_host (λ _ _, 0) sections
              placeholders_page)
    as (w' & Hrun & Hw' & (tr & rest & Htrace & _ & Hissued) & _).
  exists w'. split; [by apply Hrun|]. split.
  - rewrite Htrace. exact Hissued.
  - rewrite Hw'. vm_compute. reflexivity.
Defined.

Lemma failure_notice_names_path (p : string) :
  ∃ pre post, failure_notice p = pre +:+ p +:+ post.
Proof.
  exists ("<div class=" +:+ QUOTE +:+ "container py-4" +:+ QUOTE +:+ "><p class=" +:+ QUOTE
            +:+ "text-muted" +:+ QUOTE +:+ ">Failed to load "), "</p></div>".
  unfold failure_notice. by rewrite !string_app_assoc.
Qed.

(** C3. When the fetch for a descriptor fails (the request is rejected, the
    status is outside 200-299, or the body cannot be read) and its container
    is in the document, [loadSection] returns normally and leaves in that
    container the notice that names the path.  Whatever the replies, the run
    goes on to fetch every descriptor of the list, in order, and then enters
    [initInteractions] exactly once. *)
Theorem failed_fetch_is_contained (browser : host) (before after : list descriptor)
    (d : descriptor) (w : world) (c : node) :
  let w1 := final (load_each browser before) w in
  fails (outcome (fetchReply browser (requests w1) (path d))) = true →
  element_by_id w1 (id d) = Some c →
  result (loadSection browser (id d) (path d)) w1 = Normal ()
  ∧ inner <$> heap (final (loadSection browser (id d) (path d)) w1) !! c
    = Some (Markup (failure_notice (path d)))
  ∧ (∃ pre post, failure_notice (path d) = pre +:+ path d +:+ post)
  ∧ ∃ tr tl,
      trace (final (loadAllSectionsSequentially browser (before ++ d :: after)) w)
        = trace w ++ tr ++ Called "initInteractions" :: tl
      ∧ sequential browser (requests w) (clock w) (before ++ d :: after) tr
      ∧ issued tr = path <$> (before ++ d :: after)
      ∧ (Called "initInteractions" ∉ tr)
      ∧ (Called "initInteractions" ∉ tl).
Proof.
  intros w1 Hfails Hc.
  destruct (loadSection_run browser (id d) (path d) w1)
    as (ev & w2 & Hrun & _ & _ & _ & _ & Hnotice & _).
  unfold result. unfold final at 1. rewrite Hrun. cbn [fst snd].
  split; [done|]. split; [by apply Hnotice|].
  split; [apply failure_notice_names_path|].
  destruct (loadAllSectionsSequentially_run browser (before ++ d :: after) w)
    as (err & tr & tl & w' & Hall & Htrace & Hseq & Hcases).
  exists tr, tl. unfold final. rewrite Hall. cbn [snd].
  split; [done|]. split; [done|]. split; [|split].
  - by eapply sequential_issued.
  - by eapply sequential_no_call.
  - destruct Hcases as [[_ ->] | (_ & _ & [-> | ->])];
      rewrite !not_elem_of_cons; repeat split; try done; apply not_elem_of_nil.
Qed.

Lemma failed_fetch_is_contained_witness :
  inner <$> heap (final (loadSection hero_missing_host "section-hero" "sections/hero.html")
                    (final (load_each hero_missing_host (take 1 sections))
                       placeholders_page)) !! 1
    = Some (Markup (failure_notice "sections/hero.html"))
  ∧ ∃ tr tl,
      trace (final (loadAllSectionsSequentially hero_missing_host sections)
               placeholders_page)
        = tr ++ Called "initInteractions" :: tl
      ∧ issued tr = path <$> sections.
Proof.
  destruct (failed_fetch_is_contained hero_missing_host (take 1 sections) (drop 2 sections)
              (Descriptor "section-hero" "sections/hero.html") placeholders_page 1)
    as (_ & Hnotice & _ & tr & tl & Htrace & _ & Hissued & _).
  - vm_compute. reflexivity.
  - vm_compute. reflexivity.
  - split; [exact Hnotice|]. exists tr, tl. split; [exact Htrace | exact Hissued].
Defined.

(** ** Navbar scroll class *)

Lemma elem_of_token_add (c x : string) (l : list string) :
  c ∈ token_add x l ↔ c = x ∨ c ∈ l.
Proof.
  unfold token_add. case_bool_decide as Hx.
  - split; [by right | by intros [-> | ?]].
  - rewrite elem_of_app, list_elem_of_singleton. tauto.
Qed.

Lemma elem_of_token_remove (c x : string) (l : list string) :
  c ∈ token_remove x l ↔ c ≠ x ∧ c ∈ l.
Proof. unfold token_remove. by rewrite list_elem_of_filter. Qed.

Lemma above_threshold (y : Q) :
  negb (Qle_bool y threshold) = true ↔ (50 < y)%Q.
Proof.
  rewrite negb_true_iff, <- not_true_iff_false, Qle_bool_iff.
  split; [apply Qnot_le_lt | apply Qlt_not_le].
Qed.

(** C5. Called with the navbar element, the scroll handler leaves the class
    [scrolled] on it exactly when the scroll offset is above 50, whatever the
    class list was before; no other class changes. *)
Theorem onScroll_toggles_scrolled (w : world) (n : node) (e : element) :
  heap w !! n = Some e →
  result (onScroll (Some n)) w = Normal ()
  ∧ ("scrolled" ∈ class_of (final (onScroll (Some n)) w) n ↔ (50 < scrollY w)%Q)
  ∧ ∀ c, c ≠ "scrolled" → c ∈ class_of (final (onScroll (Some n)) w) n ↔ c ∈ classList e.
Proof.
  intros Hn. unfold result, final, onScroll, class_of.
  cbv [mbind M_bind gets deref mret M_ret classList_add classList_remove modify].
  pose proof (above_threshold (scrollY w)) as Habove.
  destruct (negb (Qle_bool (scrollY w) threshold)); cbn [fst snd heap with_heap];
    rewrite lookup_alter_eq, Hn; cbn.
  - split; [done|]. split.
    + rewrite elem_of_token_add. split; [intros _; by apply Habove | by left].
    + intros c Hc. rewrite elem_of_token_add. split; [by intros [? | ?] | by right].
  - split; [done|]. split.
    + rewrite elem_of_token_remove. split; [by intros [? _] | intros Hy].
      apply Habove in Hy. discriminate.
    + intros c Hc. rewrite elem_of_token_remove. split; [by intros [_ ?] | done].
Qed.

Lemma onScroll_toggles_scrolled_witness :
  "scrolled" ∈ class_of (final (onScroll (Some 0)) (with_scrollY 120 nav_page)) 0
  ∧ "scrolled" ∉ class_of (final (onScroll (Some 0))
                             (with_scrollY 10 (final (onScroll (Some 0))
                                                 (with_scrollY 120 nav_page)))) 0.
Proof.
  split.
  - destruct (onScroll_toggles_scrolled (with_scrollY 120 nav_page) 0
                (plain "nav" (Some "topNav") [] []) eq_refl) as (_ & Hscrolled & _).
    apply Hscrolled. reflexivity.
  - destruct (onScroll_toggles_scrolled
                (with_scrollY 10 (final (onScroll (Some 0)) (with_scrollY 120 nav_page))) 0
                (plain "nav" (Some "topNav") ["scrolled"] []) eq_refl) as (_ & Hscrolled & _).
    intros Hin. apply Hscrolled in Hin. discriminate Hin.
Defined.

(** ** Absent elements *)

Lemma onScroll_null (w : world) :
  onScroll None w
    = (Throw (TypeError "Cannot read properties of null (reading 'classList')"), w).
Proof.
  unfold onScroll. cbv [mbind M_bind gets deref throw].
  by destruct (negb (Qle_bool (scrollY w) threshold)).
Qed.

(** C4, at the navbar. With no element [topNav] in the document when
    [DOMContentLoaded] fires, the navbar listener registers its scroll
    handler and then throws a [TypeError] on its first call, and the handler
    throws again on every scroll. *)
Theorem navbar_listener_throws_without_navbar (w : world) :
  element_by_id w "topNav" = None →
  result navbar_DOMContentLoaded w
    = Throw (TypeError "Cannot read properties of null (reading 'classList')")
  ∧ listeners (final navbar_DOMContentLoaded w)
    = listeners w ++ [(Window, "scroll", OnScroll None)]
  ∧ ∀ w', result (onScroll None) w'
          = Throw (TypeError "Cannot read properties of null (reading 'classList')").
Proof.
  intros Habsent. unfold result, final, navbar_DOMContentLoaded.
  unfold element_by_id in Habsent.
  cbv [mbind M_bind getElementById querySelector querySelectorAll gets mret M_ret
       addEventListener modify].
  rewrite Habsent. cbn [head]. rewrite onScroll_null. cbn [fst snd].
  split; [done|]. split; [by destruct w|].
  intros w'. by rewrite onScroll_null.
Qed.

Lemma navbar_listener_throws_without_navbar_witness :
  result navbar_DOMContentLoaded empty_page
    = Throw (TypeError "Cannot read properties of null (reading 'classList')")
  ∧ listeners (final navbar_DOMContentLoaded empty_page) = [(Window, "scroll", OnScroll None)].
Proof.
  destruct (navbar_listener_throws_without_navbar empty_page eq_refl) as (Hthrow & Hreg & _).
  split; [exact Hthrow | exact Hreg].
Defined.

(** The routines that look their element up with a guard return at once,
    leaving the page as it was, when the element is not there. *)
Lemma guarded_routines_skip (browser : host) (w : world) :
  (first_match w [SelClass "services-scroll"; SelId "servicesScroll"] = None →
   initServicesScroller w = (Normal (), w))
  ∧ (element_by_id w "pfLightbox" = None → initPortfolioLightbox w = (Normal (), w))
  ∧ (element_by_id w "contactForm" = None → initContactForm browser w = (Normal (), w))
  ∧ (first_match w [SelClass "reveal"] = None → initRevealOnScroll browser w = (Normal (), w))
  ∧ (element_by_id w "orderForm" = None → element_by_id w "contactForm" = None →
     first_match w [SelId "btn-wa"] = None → initOrderForm w = (Normal (), w)).
Proof.
  unfold first_match, element_by_id.
  repeat split.
  - intros Habsent. unfold initServicesScroller. run. by rewrite Habsent.
  - intros Habsent. unfold initPortfolioLightbox. run. by rewrite Habsent.
  - intros Habsent. unfold initContactForm. run. by rewrite Habsent.
  - intros Habsent. unfold initRevealOnScroll. run.
    by destruct (filter _ (order w)).
  - intros Horder Hcontact Hbtn. unfold initOrderForm. run.
    by rewrite Horder, Hcontact, Hbtn.
Qed.

(** ** Lazy images *)

Lemma with_observers_twice (f g : list observer → list observer) (w : world) :
  with_observers f (with_observers g w) = with_observers (λ l, f (g l)) w.
Proof. by destruct w. Qed.

Lemma forEach_observe_run (io : nat) (l : list node) (k : nat) (w : world) :
  ∃ obs,
    forEach_from k l (λ i _, observe io i) w = (Normal (), with_observers (λ _, obs) w)
    ∧ (∀ j, j ≠ io → obs !! j = observers w !! j)
    ∧ obs !! io = (λ o, Observer (callback o) (list_to_set l ∪ targets o)) <$> observers w !! io.
Proof.
  revert k w. induction l as [|a l IH]; intros k w.
  - exists (observers w). split; [by destruct w|]. split; [done|].
    destruct (observers w !! io) as [[cb ts]|]; cbn; [|done].
    by rewrite (left_id_L ∅ (∪)).
  - destruct (IH (S k) (with_observers
                          (alter (λ o, Observer (callback o) ({[a]} ∪ targets o)) io) w))
      as (obs & Hrun & Hother & Hio).
    exists obs. split; [|split].
    + cbn [forEach_from]. erewrite bind_normal by reflexivity.
      rewrite Hrun. by rewrite with_observers_twice.
    + intros j Hj. rewrite Hother by done.
      replace (observers (with_observers _ w)) with
        (alter (λ o, Observer (callback o) ({[a]} ∪ targets o)) io (observers w))
        by by destruct w.
      by rewrite list_lookup_alter_ne.
    + rewrite Hio.
      replace (observers (with_observers _ w)) with
        (alter (λ o, Observer (callback o) ({[a]} ∪ targets o)) io (observers w))
        by by destruct w.
      rewrite list_lookup_alter_eq.
      destruct (observers w !! io) as [[cb ts]|]; cbn; [|done].
      by rewrite (assoc_L (∪)), (comm_L (∪) (list_to_set l)).
Qed.

Lemma selects_unloaded_lazy (h : gmap node element) (n : node) :
  selects h [SelTagClassNot "img" "lazy" "loaded"] n = true
  ↔ ∃ e, h !! n = Some e ∧ tagName e = "img"
         ∧ "lazy" ∈ classList e ∧ "loaded" ∉ classList e.
Proof.
  unfold selects. destruct (h !! n) as [e|]; [|split; [done | by intros (? & ? & _)]].
  cbn. rewrite orb_false_r, !andb_true_iff, negb_true_iff.
  unfold has_class. rewrite !bool_decide_eq_true, bool_decide_eq_false.
  split; [intros [[? ?] ?]; eauto | intros (? & [= <-] & ? & ? & ?); done].
Qed.

Lemma observeLazy_call_run (w : world) (io : nat) (n : node) :
  result (observeLazy_call io) w = Normal ()
  ∧ (n ∈ observed_by (final (observeLazy_call io) w) io
     ↔ n ∈ observed_by w io
       ∨ (is_Some (observers w !! io) ∧ n ∈ order w
          ∧ ∃ e, heap w !! n = Some e ∧ tagName e = "img"
                 ∧ "lazy" ∈ classList e ∧ "loaded" ∉ classList e))
  ∧ heap (final (observeLazy_call io) w) = heap w
  ∧ ∀ j, j ≠ io →
         observers (final (observeLazy_call io) w) !! j = observers w !! j.
Proof.
  unfold result, final, observeLazy_call, forEach.
  cbv [mbind M_bind querySelectorAll gets].
  destruct (forEach_observe_run io
              (filter (λ n, selects (heap w) [SelTagClassNot "img" "lazy" "loaded"] n = true)
                      (order w)) 0 w) as (obs & -> & Hother & Hio).
  cbn [fst snd]. split; [done|]. split; [|split; [by destruct w|]].
  - unfold observed_by.
    replace (observers (with_observers (λ _, obs) w)) with obs by by destruct w.
    rewrite Hio. destruct (observers w !! io) as [[cb ts]|]; cbn.
    + rewrite elem_of_union, elem_of_list_to_set, list_elem_of_filter.
      rewrite selects_unloaded_lazy. split.
      * intros [[Hsel Hin] | Hold]; [right | by left]. eauto.
      * intros [Hold | (_ & Hin & Hsel)]; [by right | by left].
    + split; [by left | intros [Hold | ([? ?] & _)]; done].
  - intros j Hj. replace (observers (with_observers (λ _, obs) w)) with obs by by destruct w.
    by apply Hother.
Qed.

(** When the observer reports [n] as intersecting, the callback marks it
    loaded and stops observing it. *)
Lemma lazy_callback_marks_loaded (w : world) (io : nat) (n : node) :
  result (lazy_callback [Entry n true] io) w = Normal ()
  ∧ (∀ e, heap (final (lazy_callback [Entry n true] io) w) !! n = Some e →
          "loaded" ∈ classList e)
  ∧ n ∉ observed_by (final (lazy_callback [Entry n true] io) w) io.
Proof.
  unfold result, final, lazy_callback, forEach, class_of, observed_by.
  cbn [forEach_from isIntersecting target negb]. destruct w.
  cbv [mbind M_bind getAttribute setAttribute gets mret M_ret classList_add unobserve modify].
  cbn [heap].
  repeat match goal with
         | |- context [truthy ?x] =>
             destruct (truthy x); cbn [fst snd heap with_heap observers with_observers]
         end.
  all: split; [done|].
  all: split; [intros e; rewrite !lookup_alter_eq; destruct (heap0 !! n); cbn;
               intros [= <-]; apply elem_of_token_add; by left|].
  all: rewrite list_lookup_alter_eq; destruct (observers0 !! io) as [[cb ts]|]; cbn;
    rewrite ?elem_of_difference, ?elem_of_singleton; try tauto; apply not_elem_of_empty.
Qed.

(** C9. A call of [window.observeLazy] starts observing exactly the images
    in the document that carry the class [lazy] and not the class [loaded]:
    a node is among the observer's targets afterwards only if it was before
    or is such an image.  An image marked loaded is never added, nothing
    else on the page changes, and an image that the observer's callback has
    loaded is not observed again by a later call. *)
Theorem observeLazy_observes_only_unloaded (w : world) (io : nat) (n : node) :
  result (observeLazy_call io) w = Normal ()
  ∧ (n ∈ observed_by (final (observeLazy_call io) w) io
     ↔ n ∈ observed_by w io
       ∨ (is_Some (observers w !! io) ∧ n ∈ order w
          ∧ ∃ e, heap w !! n = Some e ∧ tagName e = "img"
                 ∧ "lazy" ∈ classList e ∧ "loaded" ∉ classList e))
  ∧ heap (final (observeLazy_call io) w) = heap w
  ∧ (∀ j, j ≠ io →
          observers (final (observeLazy_call io) w) !! j = observers w !! j)
  ∧ n ∉ observed_by (final (observeLazy_call io)
                       (final (lazy_callback [Entry n true] io) w)) io.
Proof.
  destruct (observeLazy_call_run w io n) as (Hres & Hiff & Hheap & Hother).
  split; [done|]. split; [done|]. split; [done|]. split; [done|].
  destruct (lazy_callback_marks_loaded w io n) as (_ & Hloaded & Hgone).
  destruct (observeLazy_call_run (final (lazy_callback [Entry n true] io) w) io n)
    as (_ & Hagain & _).
  intros Hin. apply Hagain in Hin.
  destruct Hin as [Hold | (_ & _ & e & He & _ & _ & Hnot)]; [done|].
  by apply Hnot, Hloaded.
Qed.

Lemma observeLazy_observes_only_unloaded_witness :
  0 ∈ observed_by (final (observeLazy_call 0) gallery_page) 0
  ∧ 1 ∉ observed_by (final (observeLazy_call 0) gallery_page) 0.
Proof.
  split.
  - destruct (observeLazy_observes_only_unloaded gallery_page 0 0) as (_ & Hiff & _).
    apply Hiff. right. split; [by eexists|]. split; [by constructor|].
    eexists. split; [reflexivity|]. split; [done|]. split; [by constructor|].
    intros Hin. by apply list_elem_of_singleton in Hin.
  - destruct (observeLazy_observes_only_unloaded gallery_page 0 1) as (_ & Hiff & _).
    intros Hin. apply Hiff in Hin.
    destruct Hin as [Hold | (_ & _ & e & He & _ & _ & Hloaded)].
    + by apply not_elem_of_empty in Hold.
    + injection He as <-. apply Hloaded. right. constructor.
Defined.

(** ** Form submission *)

Lemma orderForm_onSubmit_run (w : world) (f : node) :
  orderForm_onSubmit f w =
    (Normal (),
     log [PreventDefault;
          WindowOpen (wa_me +:+ encodeURIComponent
                        (order_template (shown (submitted w f) "name")
                                        (shown (submitted w f) "service")
                                        (shown (submitted w f) "phone")
                                        (shown (submitted w f) "notes"))) "_blank"]
         (with_defaultPrevented true w)).
Proof.
  destruct w. unfold orderForm_onSubmit. run.
  unfold log, with_defaultPrevented, shown, submitted; cbn. by rewrite <- app_assoc.
Qed.

Lemma read_control_run {A} (w : world) (f : node) (i : string)
    (k : property_value → M A) :
  (el ← querySelectorIn f [SelId i]; v ← value_of el; k v) w = k (control_property w f i) w.
Proof.
  unfold control_property, querySelectorIn, querySelectorAllIn, value_of.
  cbv [mbind M_bind mret M_ret gets]. cbn [fst snd].
  by destruct (head _).
Qed.

Lemma control_property_handled (events : list event) (w : world) (f : node) (i : string) :
  control_property (handled events w) f i = control_property w f i.
Proof. by destruct w. Qed.

(** The contact handler, case by case: a number in one of the three
    trimmed fields makes it throw a [TypeError], an unpaired surrogate in
    the message makes [encodeURIComponent] throw a [URIError], both after
    the event is cancelled and before any link is opened; otherwise the
    link is opened. *)
Lemma contactForm_onSubmit_run (w : world) (f : node) :
  contactForm_onSubmit f w =
    if is_number (control_property w f "name") || is_number (control_property w f "phone")
       || is_number (control_property w f "message")
    then (Throw (TypeError "contactForm.querySelector(...)?.value?.trim is not a function"),
          handled [] w)
    else if lone_surrogate (contact_message w f)
    then (Throw (URIError "URI malformed"), handled [] w)
    else (Normal (),
          handled [WindowOpen (wa_me +:+ encodeURIComponent (contact_message w f)) "_blank"]
                  w).
Proof.
  unfold contactForm_onSubmit, contact_message.
  assert (preventDefault w = (Normal (), handled [] w)) as Hfirst by reflexivity.
  erewrite bind_normal by exact Hfirst.
  rewrite read_control_run, control_property_handled.
  destruct (control_property w f "name") as [|name|]; cbn [is_number orb trimmed];
    [| |reflexivity].
  all: erewrite bind_normal by reflexivity.
  all: rewrite read_control_run, control_property_handled.
  all: destruct (control_property w f "phone") as [|phone|]; cbn [is_number orb trimmed];
    [| |reflexivity].
  all: erewrite bind_normal by reflexivity.
  all: rewrite read_control_run, control_property_handled.
  all: rewrite read_control_run, control_property_handled.
  all: destruct (control_property w f "message") as [|msg|]; cbn [is_number orb trimmed];
    [| |reflexivity].
  all: erewrite bind_normal by reflexivity.
  all: cbn [trimmed_text].
  all: assert (∀ v, or_dash (or_empty_string v) = or_dash v) as -> by by intros [].
  all: unfold encodeURIComponent_call.
  all: destruct (lone_surrogate _); [reflexivity|].
  all: erewrite bind_normal by reflexivity.
  all: clear Hfirst.
  all: match goal with |- context [WindowOpen ?u _] => generalize u end.
  all: intros url; destruct w.
  all: unfold window_open, emit, modify, handled, log, with_defaultPrevented; cbn.
  all: by rewrite <- app_assoc.
Qed.



(** *** What the contact handler can send *)

Lemma lone_surrogate_contact_template (name service msg phone : string) :
  lone_surrogate (contact_template name service msg phone)
  = lone_surrogate name || lone_surrogate service || lone_surrogate msg
    || lone_surrogate phone.
Proof.
  unfold contact_template.
  rewrite lone_surrogate_plain_prefix by reflexivity.
  rewrite !lone_surrogate_plain_between by done.
  by rewrite !orb_assoc.
Qed.

Lemma sendable_trimmed_text (v : property_value) :
  sendable v → is_number v = false ∧ lone_surrogate (trimmed_text v) = false.
Proof.
  destruct v as [|s|n]; cbn; [done| |done].
  intros Hs. split; [done|]. by apply lone_surrogate_trim.
Qed.

Lemma sendable_or_dash (v : property_value) :
  sendable v → lone_surrogate (or_dash v) = false.
Proof. destruct v as [|[|c s]|n]; cbn [sendable or_dash]; done. Qed.

Lemma sendable_fields (w : world) (f : node) :
  (∀ field, field ∈ ["name"; "phone"; "service"; "message"] →
            sendable (control_property w f field)) →
  is_number (control_property w f "name") || is_number (control_property w f "phone")
  || is_number (control_property w f "message") = false
  ∧ lone_surrogate (contact_message w f) = false.
Proof.
  intros Hall.
  destruct (sendable_trimmed_text _ (Hall "name" ltac:(set_solver))) as [-> Hname].
  destruct (sendable_trimmed_text _ (Hall "phone" ltac:(set_solver))) as [-> Hphone].
  destruct (sendable_trimmed_text _ (Hall "message" ltac:(set_solver))) as [-> Hmsg].
  pose proof (sendable_or_dash _ (Hall "service" ltac:(set_solver))) as Hservice.
  split; [done|]. unfold contact_message.
  by rewrite lone_surrogate_contact_template, Hname, Hphone, Hmsg, Hservice.
Qed.

(** With sendable fields the handler opens its link. *)
Lemma contactForm_onSubmit_sends (w : world) (f : node) :
  (∀ field, field ∈ ["name"; "phone"; "service"; "message"] →
            sendable (control_property w f field)) →
  contactForm_onSubmit f w
  = (Normal (),
     handled [WindowOpen (wa_me +:+ encodeURIComponent (contact_message w f)) "_blank"] w).
Proof.
  intros Hall. rewrite contactForm_onSubmit_run.
  by destruct (sendable_fields w f Hall) as [-> ->].
Qed.

Lemma trace_handled (events : list event) (w : world) :
  trace (handled events w) = trace w ++ PreventDefault :: events.
Proof. by destruct w. Qed.

(** C10. The contact handler writes the three characters %0A into the
    message before encoding it: the opened link carries %250A between the
    parts, one percent-decoding gives back the literal %0A, not a line
    break, and an empty service reads as a dash.  The order template, in
    contrast, has real line breaks, encoded as %0A.  This is the link of
    every submission in which the handler gets as far as opening one: each
    field it reads is absent or holds a string without an unpaired
    surrogate. *)
Theorem contact_link_keeps_literal_percent_0A (w : world) (f : node) :
  (∀ field, field ∈ ["name"; "phone"; "service"; "message"] →
            sendable (control_property w f field)) →
  let name := trimmed_text (control_property w f "name") in
  let phone := trimmed_text (control_property w f "phone") in
  let msg := trimmed_text (control_property w f "message") in
  let service_shown := or_dash (control_property w f "service") in
  (∃ text,
     result (contactForm_onSubmit f) w = Normal ()
     ∧ trace (final (contactForm_onSubmit f) w)
       = trace w ++ [PreventDefault;
                     WindowOpen ("https://wa.me/6281931786798?text=" +:+ text) "_blank"]
     ∧ text = encodeURIComponent ("Halo OnFix, saya " +:+ name +:+ ".") +:+ "%250A"
                +:+ encodeURIComponent ("Ingin layanan: " +:+ service_shown) +:+ "%250A"
                +:+ encodeURIComponent msg +:+ "%250A"
                +:+ encodeURIComponent ("Hubungi saya di: " +:+ phone)
     ∧ percent_decode text
       = Some ("Halo OnFix, saya " +:+ name +:+ ".%0AIngin layanan: " +:+ service_shown
                 +:+ "%0A" +:+ msg +:+ "%0AHubungi saya di: " +:+ phone))
  ∧ (control_property w f "service" = ValUndefined
     ∨ control_property w f "service" = ValString "" → service_shown = "-")
  ∧ (∀ n s p c,
       encodeURIComponent (order_template n s p c)
         = encodeURIComponent ("Halo OnFix, saya *" +:+ n +:+ "* ingin memesan layanan: *"
                                 +:+ s +:+ "*.")
             +:+ "%0A" +:+ encodeURIComponent ("NoWA: " +:+ p)
             +:+ "%0A" +:+ encodeURIComponent ("Catatan: " +:+ c)
       ∧ percent_decode "%0A" = Some LF).
Proof.
  intros Hall name phone msg service_shown. split; [|split].
  - unfold result, final. rewrite contactForm_onSubmit_sends by done. cbn [fst snd].
    rewrite trace_handled. unfold contact_message.
    fold name phone msg service_shown.
    eexists. split; [done|]. split; [reflexivity|]. split.
    + unfold contact_template.
      rewrite !encodeURIComponent_app, !string_app_assoc. reflexivity.
    + by rewrite percent_decode_encodeURIComponent.
  - unfold service_shown. by intros [-> | ->].
  - intros n s p c. split; [|reflexivity].
    unfold order_template.
    rewrite !encodeURIComponent_app, !string_app_assoc. reflexivity.
Qed.

Lemma contact_link_keeps_literal_percent_0A_witness :
  ∃ text,
    trace (final (contactForm_onSubmit 0) contact_page)
      = [PreventDefault; WindowOpen ("https://wa.me/6281931786798?text=" +:+ text) "_blank"]
    ∧ percent_decode text
      = Some "Halo OnFix, saya Dina.%0AIngin layanan: -%0A%0AHubungi saya di: ".
Proof.
  destruct (contact_link_keeps_literal_percent_0A contact_page 0)
    as [(text & _ & Htrace & _ & Hdecoded) _].
  - intros field Hin.
    repeat (apply elem_of_cons in Hin as [-> | Hin]; [vm_compute; done|]).
    by apply elem_of_nil in Hin.
  - exists text. split; [exact Htrace | exact Hdecoded].
Defined.




(** *** Dispatching [submit] *)

Lemma orderForm_onSubmit_cancels (f : node) : cancels (orderForm_onSubmit f).
Proof. intros w. eexists. apply orderForm_onSubmit_run. Qed.

(** Both handlers cancel the event before anything else, also when the
    contact handler goes on to throw. *)
Lemma handlers_cancel_first (form : node) (run : M unit) (w : world) :
  run = orderForm_onSubmit form ∨ run = contactForm_onSubmit form →
  ∃ rest, trace (final run w) = trace w ++ PreventDefault :: rest
          ∧ defaultPrevented (final run w) = true.
Proof.
  assert (∀ events, defaultPrevented (handled events w) = true) as Hprevented
    by by destruct w.
  intros [-> | ->]; unfold final.
  - rewrite orderForm_onSubmit_run. eexists. split; [|by destruct w].
    by destruct w.
  - rewrite contactForm_onSubmit_run.
    destruct (_ || _); [|destruct (lone_surrogate _)]; cbn [snd];
      eexists; (split; [apply trace_handled | apply Hprevented]).
Qed.

Lemma listeners_for_app t type l1 l2 :
  listeners_for t type (l1 ++ l2) = listeners_for t type l1 ++ listeners_for t type l2.
Proof. unfold listeners_for. apply omap_app. Qed.

Lemma initOrderForm_listeners (w : world) :
  listeners (final initOrderForm w)
    = listeners w
        ++ registration (element_by_id w "orderForm") "submit" OrderSubmit
        ++ registration (element_by_id w "contactForm") "submit" ContactSubmit
        ++ registration (first_match w [SelId "btn-wa"]) "click" (λ _, QuickWa).
Proof.
  unfold element_by_id, first_match, final, initOrderForm. destruct w. run.
  cbv [addEventListener modify with_listeners]; cbn.
  destruct (head (filter (λ n, selects heap0 [SelId "orderForm"] n = true) order0)); cbn;
    destruct (head (filter (λ n, selects heap0 [SelId "contactForm"] n = true) order0)); cbn;
    destruct (head (filter (λ n, selects heap0 [SelId "btn-wa"] n = true) order0)); cbn;
    rewrite <- ?app_assoc, ?app_nil_r; reflexivity.
Qed.

(** [initOrderForm] attaches the order handler to the form it finds, and the
    contact handler likewise. *)
Lemma initOrderForm_registers (w : world) (f : node) :
  (element_by_id w "orderForm" = Some f →
   OrderSubmit f ∈ listeners_for (Node f) "submit" (listeners (final initOrderForm w)))
  ∧ (element_by_id w "contactForm" = Some f →
     ContactSubmit f ∈ listeners_for (Node f) "submit" (listeners (final initOrderForm w))).
Proof.
  rewrite initOrderForm_listeners, !listeners_for_app.
  split; intros ->; cbn [registration].
  - apply elem_of_app; right. apply elem_of_app; left.
    unfold listeners_for; cbn. rewrite bool_decide_eq_true_2 by done. constructor.
  - apply elem_of_app; right. apply elem_of_app; right. apply elem_of_app; left.
    unfold listeners_for; cbn. rewrite bool_decide_eq_true_2 by done. constructor.
Qed.

(** * Further properties of the script *)

(** ** What a piece of code leaves alone *)

Lemma keeps_ret {X A} (proj : world → X) (a : A) : keeps proj (mret a).
Proof. by intros w. Qed.

Lemma keeps_throw {X A} (proj : world → X) (e : js_error) : keeps proj (@throw A e).
Proof. by intros w. Qed.

Lemma keeps_gets {X A} (proj : world → X) (f : world → A) : keeps proj (gets f).
Proof. by intros w. Qed.

Lemma keeps_modify {X} (proj : world → X) (f : world → world) :
  (∀ w, proj (f w) = proj w) → keeps proj (modify f).
Proof. intros Hf w. apply Hf. Qed.

Lemma keeps_bind {X A B} (proj : world → X) (m : M A) (f : A → M B) :
  keeps proj m → (∀ a, keeps proj (f a)) → keeps proj (m ≫= f).
Proof.
  intros Hm Hf w. specialize (Hm w). cbv [mbind M_bind].
  destruct (m w) as [[a|e] w']; cbn [snd] in *; [|done].
  by rewrite Hf.
Qed.

Lemma keeps_try_catch {X A} (proj : world → X) (m : M A) (h : js_error → M A) :
  keeps proj m → (∀ e, keeps proj (h e)) → keeps proj (try_catch m h).
Proof.
  intros Hm Hh w. specialize (Hm w). unfold try_catch.
  destruct (m w) as [[a|e] w']; cbn [snd] in *; [done|].
  by rewrite Hh.
Qed.

Lemma keeps_for_of {X A} (proj : world → X) (l : list A) (body : A → M unit) :
  (∀ a, keeps proj (body a)) → keeps proj (for_of l body).
Proof.
  intros Hbody. induction l as [|a l IH]; [apply keeps_ret|].
  cbn [for_of]. apply keeps_bind; [apply Hbody | by intros _].
Qed.

Lemma keeps_forEach_from {X A} (proj : world → X) (l : list A) (body : A → nat → M unit)
    (k : nat) :
  (∀ a i, keeps proj (body a i)) → keeps proj (forEach_from k l body).
Proof.
  intros Hbody. revert k. induction l as [|a l IH]; intros k; [apply keeps_ret|].
  cbn [forEach_from]. apply keeps_bind; [apply Hbody | intros _; apply IH].
Qed.

(** A loop whose body never throws runs to its end; what one round
    establishes for its element, and no round destroys, holds for every
    element afterwards. *)
Lemma forEach_from_normal {A} (l : list A) (body : A → nat → M unit) (k : nat) (w : world) :
  (∀ a i w, (body a i w).1 = Normal ()) → (forEach_from k l body w).1 = Normal ().
Proof.
  intros Hbody. revert k w. induction l as [|a l IH]; intros k w; [done|].
  cbn [forEach_from]. cbv [mbind M_bind]. specialize (Hbody a k w).
  destruct (body a k w) as [[[]|e] w']; cbn [fst] in *; [apply IH | done].
Qed.

Lemma forEach_from_stable {A} (I : world → Prop) (l : list A) (body : A → nat → M unit)
    (k : nat) (w : world) :
  (∀ a i w, I w → I (body a i w).2) → I w → I (forEach_from k l body w).2.
Proof.
  intros Hbody. revert k w. induction l as [|a l IH]; intros k w Hw; [done|].
  cbn [forEach_from]. cbv [mbind M_bind]. specialize (Hbody a k w Hw).
  destruct (body a k w) as [[[]|e] w']; cbn [snd] in *; [by apply IH | done].
Qed.

Lemma forEach_from_each {A} (I : A → nat → world → Prop) (l : list A)
    (body : A → nat → M unit) (k : nat) (w : world) :
  (∀ a i w, (body a i w).1 = Normal ()) →
  (∀ a i w, I a i (body a i w).2) →
  (∀ a i b j w, I a i w → I a i (body b j w).2) →
  ∀ j a, l !! j = Some a → I a (k + j) (forEach_from k l body w).2.
Proof.
  intros Hnormal Hdoes Hkeeps. revert k w.
  induction l as [|b l IH]; intros k w j a Hj; [done|].
  cbn [forEach_from]. cbv [mbind M_bind].
  pose proof (Hnormal b k w) as Hb. pose proof (Hdoes b k w) as Hdone.
  destruct (body b k w) as [[[]|e] w'] eqn:Hrun; cbn [fst snd] in *; [|done].
  destruct j as [|j]; cbn in Hj.
  - injection Hj as <-. rewrite Nat.add_0_r.
    apply (forEach_from_stable (I b k)); [|done].
    intros c i w0. apply Hkeeps.
  - replace (k + S j) with (S k + j) by lia. by apply IH.
Qed.

Lemma forEach_from_stable_in {A} (I : world → Prop) (l : list A) (body : A → nat → M unit)
    (k : nat) (w : world) :
  (∀ a i w, a ∈ l → I w → I (body a i w).2) → I w → I (forEach_from k l body w).2.
Proof.
  revert k w. induction l as [|a l IH]; intros k w Hbody Hw; [done|].
  cbn [forEach_from]. cbv [mbind M_bind].
  pose proof (Hbody a k w (list_elem_of_here _ _) Hw) as Ha.
  destruct (body a k w) as [[[]|e] w']; cbn [snd] in *; [|done].
  apply IH; [|done]. intros b i w0 Hb. apply Hbody. by apply elem_of_cons; right.
Qed.

Lemma preserves_ret {A} (J : world → Prop) (a : A) : preserves J (mret a).
Proof. by intros w. Qed.

Lemma preserves_gets {A} (J : world → Prop) (f : world → A) : preserves J (gets f).
Proof. by intros w. Qed.

Lemma preserves_bind {A B} (J : world → Prop) (m : M A) (f : A → M B) :
  preserves J m → (∀ a, preserves J (f a)) → preserves J (m ≫= f).
Proof.
  intros Hm Hf w Hw. specialize (Hm w Hw). cbv [mbind M_bind].
  destruct (m w) as [[a|e] w']; cbn [snd] in *; [by apply Hf | done].
Qed.

Lemma preserves_forEach_from {A} (J : world → Prop) (l : list A) (body : A → nat → M unit)
    (k : nat) :
  (∀ a i, preserves J (body a i)) → preserves J (forEach_from k l body).
Proof.
  intros Hbody w Hw. apply forEach_from_stable; [|done].
  intros a i w0. apply Hbody.
Qed.

Lemma forEach_from_each_distinct {A} (I : A → nat → world → Prop) (l : list A)
    (body : A → nat → M unit) (k : nat) (w : world) :
  NoDup l →
  (∀ a i w, (body a i w).1 = Normal ()) →
  (∀ a i w, I a i (body a i w).2) →
  (∀ a i b j w, a ≠ b → I a i w → I a i (body b j w).2) →
  ∀ j a, l !! j = Some a → I a (k + j) (forEach_from k l body w).2.
Proof.
  intros Hnodup Hnormal Hdoes Hkeeps. revert k w.
  induction Hnodup as [|b l Hb Hnodup IH]; intros k w j a Hj; [done|].
  cbn [forEach_from]. cbv [mbind M_bind].
  pose proof (Hnormal b k w) as Hrun. pose proof (Hdoes b k w) as Hdone.
  destruct (body b k w) as [[[]|e] w'] eqn:Hbody; cbn [fst snd] in *; [|done].
  destruct j as [|j]; cbn in Hj.
  - injection Hj as <-. rewrite Nat.add_0_r.
    apply (forEach_from_stable_in (I b k)); [|done].
    intros c i w0 Hc. apply Hkeeps. by intros ->.
  - replace (k + S j) with (S k + j) by lia. by apply IH.
Qed.

Lemma preserves_keeps_heap {A} (Jh : gmap node element → Prop) (m : M A) :
  keeps heap m → preserves (λ w, Jh (heap w)) m.
Proof. intros Hm w Hw. by rewrite Hm. Qed.

(** ** More on the section loader *)

(** The state in which [loadSection] resumes after its request. *)
Lemma loadSection_try_run (browser : host) (targetId p : string) (w : world) :
  let reply := fetchReply browser (requests w) p in
  ∃ w1,
    heap w1 = heap w ∧ order w1 = order w
    ∧ trace w1 = trace w ++ [FetchIssued p (clock w); FetchSettled p (clock w + latency reply)]
    ∧ (∀ err,
         (outcome reply = NetworkFailure ∧ err = TypeError "Failed to fetch"
          ∨ (∃ st b, outcome reply = HttpResponse st b ∧ ok (Response st b) = false
                     ∧ err = JsError ("Failed (" +:+ pretty st +:+ ")"))
          ∨ (∃ st, outcome reply = HttpResponse st None ∧ ok (Response st None) = true
                   ∧ err = TypeError "Failed to read the response body")) →
         loadSection browser targetId p w
           = (emit (ConsoleError "Error loading" p err);;
              container ← getElementById targetId;
              match container with
              | Some c => set_innerHTML browser c (failure_notice p)
              | None => mret ()
              end) w1)
    ∧ (∀ st html,
         outcome reply = HttpResponse st (Some html) → ok (Response st (Some html)) = true →
         loadSection browser targetId p w
           = match element_by_id w targetId with
             | Some c => set_innerHTML browser c html w1
             | None => emit (ConsoleWarn "Missing container for" targetId) w1
             end).
Proof.
  intros reply.
  destruct (fetch_run browser p w) as (w1 & Hheap & Horder & Htrace & _ & _ & Hfetch).
  fold reply in Htrace, Hfetch.
  exists w1. split; [done|]. split; [done|]. split; [done|]. split.
  - intros err Hcase. unfold loadSection, try_catch.
    destruct Hcase as [[Hout ->] | [(st & b & Hout & Hok & ->) | (st & Hout & Hok & ->)]];
      rewrite Hout in Hfetch.
    + by erewrite bind_throw by exact Hfetch.
    + erewrite bind_normal by exact Hfetch. by rewrite Hok.
    + erewrite bind_normal by exact Hfetch. rewrite Hok. cbn [negb].
      by erewrite bind_throw by reflexivity.
  - intros st html Hout Hok. unfold loadSection, try_catch.
    rewrite Hout in Hfetch.
    erewrite bind_normal by exact Hfetch. rewrite Hok. cbn [negb].
    erewrite bind_normal by reflexivity.
    erewrite bind_normal by apply getElementById_run.
    rewrite (element_by_id_heap_order w1 w) by done.
    by destruct (element_by_id w targetId).
Qed.

Lemma fails_cases (o : fetch_outcome) :
  fails o = true →
  ∃ err,
    o = NetworkFailure ∧ err = TypeError "Failed to fetch"
    ∨ (∃ st b, o = HttpResponse st b ∧ ok (Response st b) = false
               ∧ err = JsError ("Failed (" +:+ pretty st +:+ ")"))
    ∨ (∃ st, o = HttpResponse st None ∧ ok (Response st None) = true
             ∧ err = TypeError "Failed to read the response body").
Proof.
  destruct o as [|st b]; [eauto|]. cbn -[ok].
  destruct (ok (Response st b)) eqn:Hok.
  - destruct b as [html|]; [done|]. intros _. eexists. right. right. eauto.
  - intros _. eexists. right. left. eauto.
Qed.

(** X1. When the document has no element with the target id, [loadSection]
    still makes its request and returns normally; the document is left as it
    was, and the only trace besides the request is one console line: a
    warning when the fragment arrived, the error when it did not. *)
Theorem loadSection_without_container (browser : host) (targetId p : string) (w : world) :
  element_by_id w targetId = None →
  ∃ line,
    result (loadSection browser targetId p) w = Normal ()
    ∧ heap (final (loadSection browser targetId p) w) = heap w
    ∧ order (final (loadSection browser targetId p) w) = order w
    ∧ trace (final (loadSection browser targetId p) w)
      = trace w ++ [FetchIssued p (clock w);
                    FetchSettled p (clock w + latency (fetchReply browser (requests w) p));
                    line]
    ∧ (fails (outcome (fetchReply browser (requests w) p)) = false
       ∧ line = ConsoleWarn "Missing container for" targetId
       ∨ fails (outcome (fetchReply browser (requests w) p)) = true
         ∧ ∃ err, line = ConsoleError "Error loading" p err).
Proof.
  intros Habsent.
  destruct (loadSection_try_run browser targetId p w)
    as (w1 & Hheap & Horder & Htrace & Hcatch & Htry).
  destruct (fails (outcome (fetchReply browser (requests w) p))) eqn:Hfails.
  - destruct (fails_cases _ Hfails) as [err Hcase].
    exists (ConsoleError "Error loading" p err).
    unfold result, final. rewrite (Hcatch err Hcase).
    erewrite bind_normal by reflexivity.
    erewrite bind_normal by apply getElementById_run.
    replace (element_by_id (log _ w1) targetId) with (element_by_id w targetId)
      by (apply element_by_id_heap_order; by destruct w1).
    rewrite Habsent. cbn [fst snd mret M_ret].
    split; [done|]. split; [by destruct w1|]. split; [by destruct w1|]. split; [|eauto].
    destruct w1; cbn in *. rewrite Htrace. by rewrite <- app_assoc.
  - destruct (outcome (fetchReply browser (requests w) p)) as [|st b] eqn:Hout; [done|].
    cbn -[ok] in Hfails. apply orb_false_iff in Hfails as [Hok Hbody].
    apply negb_false_iff in Hok. destruct b as [html|]; [|done].
    exists (ConsoleWarn "Missing container for" targetId).
    unfold result, final. rewrite (Htry st html eq_refl Hok), Habsent. cbn [fst snd].
    split; [done|]. split; [by destruct w1|]. split; [by destruct w1|]. split; [|by left].
    destruct w1; cbn in *. rewrite Htrace. by rewrite <- app_assoc.
Qed.

Lemma loadSection_without_container_witness :
  ∃ line,
    result (loadSection hero_missing_host "section-blog" "sections/blog.html")
           placeholders_page = Normal ()
    ∧ order (final (loadSection hero_missing_host "section-blog" "sections/blog.html")
               placeholders_page) = order placeholders_page
    ∧ line = ConsoleWarn "Missing container for" "section-blog".
Proof.
  destruct (loadSection_without_container hero_missing_host "section-blog"
              "sections/blog.html" placeholders_page eq_refl)
    as (line & Hres & _ & Horder & _ & [[_ Hline] | [Hfails _]]).
  - exists line. by repeat split.
  - discriminate Hfails.
Defined.

Lemma load_each_time (browser : host) (descs : list descriptor) (w : world) :
  clock (final (load_each browser descs) w)
    = clock w + total_latency browser (requests w) descs
  ∧ requests (final (load_each browser descs) w) = requests w + length descs.
Proof.
  revert w. induction descs as [|d descs IH]; intros w.
  - cbn. lia.
  - destruct (loadSection_run browser (id d) (path d) w)
      as (after & w1 & Hrun & _ & _ & Hclock & Hreq & _).
    unfold final, load_each in *. cbn [for_of total_latency length].
    erewrite bind_normal by exact Hrun.
    destruct (IH w1) as [IHclock IHreq]. rewrite IHclock, IHreq, Hclock, Hreq. lia.
Qed.

(** X3. A reply whose status is outside 200-299 is treated as a failure
    even when it carries a body: the console gets the error
    [Failed (status)], the body is not used, and the container, when there
    is one, shows the notice. *)
Theorem bad_status_is_reported (browser : host) (targetId p : string) (w : world)
    (st : nat) (b : option string) :
  outcome (fetchReply browser (requests w) p) = HttpResponse st b →
  ok (Response st b) = false →
  ∃ rest,
    trace (final (loadSection browser targetId p) w)
      = trace w ++ [FetchIssued p (clock w);
                    FetchSettled p (clock w + latency (fetchReply browser (requests w) p));
                    ConsoleError "Error loading" p
                      (JsError ("Failed (" +:+ pretty st +:+ ")"))] ++ rest
    ∧ (rest = [] ∨ ∃ c, rest = [InnerHTMLSet c (failure_notice p)])
    ∧ ∀ c, element_by_id w targetId = Some c →
           inner <$> heap (final (loadSection browser targetId p) w) !! c
             = Some (Markup (failure_notice p)).
Proof.
  intros Hout Hok.
  destruct (loadSection_try_run browser targetId p w)
    as (w1 & Hheap & Horder & Htrace & Hcatch & _).
  set (err := JsError ("Failed (" +:+ pretty st +:+ ")")).
  assert (loadSection browser targetId p w
          = (emit (ConsoleError "Error loading" p err);;
             container ← getElementById targetId;
             match container with
             | Some c => set_innerHTML browser c (failure_notice p)
             | None => mret ()
             end) w1) as Hrun.
  { apply Hcatch. right. left. by exists st, b. }
  destruct (loadSection_catch_run browser targetId p err w1)
    as (after & w' & Hcatch_run & Htrace' & Hafter & _ & _ & Hinner).
  unfold final. rewrite Hrun, Hcatch_run. cbn [snd].
  destruct Hafter as [-> | [c ->]].
  - exists []. split; [|split; [by left|]].
    + rewrite Htrace', Htrace. by rewrite <- !app_assoc.
    + intros c Hc. apply Hinner. by rewrite (element_by_id_heap_order w1 w).
  - exists [InnerHTMLSet c (failure_notice p)]. split; [|split; [eauto|]].
    + rewrite Htrace', Htrace. by rewrite <- !app_assoc.
    + intros c' Hc. apply Hinner. by rewrite (element_by_id_heap_order w1 w).
Qed.

Lemma bad_status_is_reported_witness :
  ∃ rest,
    trace (final (loadSection hero_missing_host "section-hero" "sections/hero.html")
             placeholders_page)
      = [FetchIssued "sections/hero.html" 0; FetchSettled "sections/hero.html" 1;
         ConsoleError "Error loading" "sections/hero.html" (JsError "Failed (404)")] ++ rest.
Proof.
  destruct (bad_status_is_reported hero_missing_host "section-hero" "sections/hero.html"
              placeholders_page 404 (Some "Not Found") eq_refl eq_refl)
    as (rest & Htrace & _).
  exists rest. exact Htrace.
Defined.

(** ** More on the lazy loader and the observers *)

Lemma lookup_snoc_ne {A} (l : list A) (a b : A) (i : nat) :
  i ≠ length l → (l ++ [a]) !! i = (l ++ [b]) !! i.
Proof.
  intros Hi. destruct (decide (i < length l)).
  - by rewrite !lookup_app_l.
  - rewrite !lookup_ge_None_2; [done|..]; rewrite length_app; cbn; lia.
Qed.

(** Observing the nodes of [l] with an observer that was just created. *)
Lemma forEach_observe_new (os : list observer) (cb : observer_callback) (l : list node)
    (k : nat) (w : world) :
  observers w = os ++ [Observer cb ∅] →
  forEach_from k l (λ i _, observe (length os) i) w
    = (Normal (), with_observers (λ _, os ++ [Observer cb (list_to_set l)]) w).
Proof.
  intros Hobs.
  destruct (forEach_observe_run (length os) l k w) as (obs & -> & Hother & Hio).
  assert (obs = os ++ [Observer cb (list_to_set l)]) as ->; [|done].
  apply list_eq. intros i.
  destruct (decide (i = length os)) as [->|Hi].
  - rewrite Hio, Hobs, !lookup_app_r, Nat.sub_diag by done. cbn.
    by rewrite (right_id_L ∅ (∪)).
  - rewrite Hother, Hobs by done. by apply lookup_snoc_ne.
Qed.

Lemma initLazyLoader_run (browser : host) (w : world) :
  observeLazy w = None → hasIntersectionObserver browser = true →
  initLazyLoader browser w
    = (Normal (),
       with_observeLazy (Some (length (observers w)))
         (with_observers
            (λ os, os ++ [Observer LazyLoad
                            (list_to_set (all_matches w [SelTagClass "img" "lazy"]))])
            w)).
Proof.
  intros Hnone Hio. unfold initLazyLoader.
  erewrite bind_normal by reflexivity. cbn beta. rewrite Hnone.
  erewrite bind_normal
    by (unfold new_IntersectionObserver; rewrite Hio; reflexivity).
  erewrite bind_normal by reflexivity.
  unfold forEach. erewrite bind_normal.
  2:{ apply (forEach_observe_new (observers w) LazyLoad). by destruct w. }
  destruct w; reflexivity.
Qed.

Lemma selects_lazy (h : gmap node element) (n : node) :
  selects h [SelTagClass "img" "lazy"] n = true
  ↔ ∃ e, h !! n = Some e ∧ tagName e = "img" ∧ "lazy" ∈ classList e.
Proof.
  unfold selects. destruct (h !! n) as [e|]; [|split; [done | by intros (? & ? & _)]].
  cbn. rewrite orb_false_r, andb_true_iff.
  unfold has_class. rewrite !bool_decide_eq_true.
  split; [intros [? ?]; eauto | intros (? & [= <-] & ? & ?); done].
Qed.

(** X4. The first call of [initLazyLoader], on a host that has
    [IntersectionObserver], creates one observer, has it watch every
    [img.lazy] of the document (those already marked loaded included) and
    nothing else, and defines [window.observeLazy]; the document itself is
    untouched.  On a host without [IntersectionObserver] the call throws a
    [ReferenceError] and changes nothing, so [window.observeLazy] stays
    undefined. *)
Theorem initLazyLoader_first_call (browser : host) (w : world) :
  observeLazy w = None →
  if hasIntersectionObserver browser then
    result (initLazyLoader browser) w = Normal ()
    ∧ observeLazy (final (initLazyLoader browser) w) = Some (length (observers w))
    ∧ (∃ seen, observers (final (initLazyLoader browser) w)
                 = observers w ++ [Observer LazyLoad seen]
               ∧ ∀ n, n ∈ seen ↔ n ∈ order w
                                  ∧ ∃ e, heap w !! n = Some e ∧ tagName e = "img"
                                         ∧ "lazy" ∈ classList e)
    ∧ heap (final (initLazyLoader browser) w) = heap w
  else
    initLazyLoader browser w
      = (Throw (ReferenceError "IntersectionObserver is not defined"), w).
Proof.
  intros Hnone. destruct (hasIntersectionObserver browser) eqn:Hio.
  - unfold result, final. rewrite (initLazyLoader_run browser w Hnone Hio). cbn [fst snd].
    split; [done|]. split; [by destruct w|]. split; [|by destruct w].
    eexists. split; [by destruct w|].
    intros n. unfold all_matches.
    rewrite elem_of_list_to_set, list_elem_of_filter, selects_lazy. tauto.
  - unfold initLazyLoader. erewrite bind_normal by reflexivity. cbn beta. rewrite Hnone.
    erewrite bind_throw; [done|]. unfold new_IntersectionObserver. by rewrite Hio.
Qed.

Lemma initLazyLoader_first_call_witness :
  observeLazy (final (initLazyLoader hero_missing_host)
                 (page [plain "img" None ["lazy"] []; plain "img" None ["lazy"; "loaded"] []]))
    = Some 0.
Proof.
  pose proof (initLazyLoader_first_call hero_missing_host
                (page [plain "img" None ["lazy"] []; plain "img" None ["lazy"; "loaded"] []])
                eq_refl) as Hfirst.
  cbn [hasIntersectionObserver hero_missing_host] in Hfirst.
  destruct Hfirst as (_ & Hdefined & _). exact Hdefined.
Defined.

(** X5. [initLazyLoader] is set up once: a call that follows a call that
    returned normally changes nothing and creates no second observer. *)
Theorem initLazyLoader_again_does_nothing (browser : host) (w : world) :
  result (initLazyLoader browser) w = Normal () →
  initLazyLoader browser (final (initLazyLoader browser) w)
    = (Normal (), final (initLazyLoader browser) w).
Proof.
  intros Hnormal.
  assert (∀ w0, is_Some (observeLazy w0) → initLazyLoader browser w0 = (Normal (), w0))
    as Hguard.
  { intros w0 [io Hsome]. unfold initLazyLoader.
    erewrite bind_normal by reflexivity. cbn beta. by rewrite Hsome. }
  destruct (observeLazy w) as [io|] eqn:Hlazy.
  - unfold final. rewrite (Hguard w) by (rewrite Hlazy; eauto). cbn [snd].
    apply Hguard. rewrite Hlazy. eauto.
  - destruct (hasIntersectionObserver browser) eqn:Hio.
    + unfold final. rewrite (initLazyLoader_run browser w Hlazy Hio). cbn [snd].
      apply Hguard. destruct w; cbn. eauto.
    + unfold result, initLazyLoader in Hnormal.
      erewrite bind_normal in Hnormal by reflexivity. cbn beta in Hnormal.
      rewrite Hlazy in Hnormal.
      erewrite bind_throw in Hnormal
        by (unfold new_IntersectionObserver; rewrite Hio; reflexivity).
      discriminate Hnormal.
Qed.

Lemma initLazyLoader_again_does_nothing_witness :
  initLazyLoader hero_missing_host (final (initLazyLoader hero_missing_host) gallery_page)
    = (Normal (), final (initLazyLoader hero_missing_host) gallery_page).
Proof.
  apply (initLazyLoader_again_does_nothing hero_missing_host gallery_page). reflexivity.
Defined.

(** What the lazy callback does with one intersecting entry. *)
Lemma lazy_callback_single (w : world) (io : nat) (n : node) (e : element) :
  heap w !! n = Some e →
  result (lazy_callback [Entry n true] io) w = Normal ()
  ∧ attribute_of (final (lazy_callback [Entry n true] io) w) n "src"
    = match truthy (attributes e !! "data-src") with
      | Some s => Some s
      | None => attributes e !! "src"
      end
  ∧ attribute_of (final (lazy_callback [Entry n true] io) w) n "srcset"
    = match truthy (attributes e !! "data-src"), truthy (attributes e !! "data-srcset") with
      | Some _, Some t => Some t
      | _, _ => attributes e !! "srcset"
      end
  ∧ "loaded" ∈ class_of (final (lazy_callback [Entry n true] io) w) n
  ∧ n ∉ observed_by (final (lazy_callback [Entry n true] io) w) io.
Proof.
  intros He.
  unfold result, final, lazy_callback, forEach, class_of, observed_by, attribute_of.
  cbn [forEach_from isIntersecting target negb]. destruct w. cbn [heap] in He.
  cbv [mbind M_bind getAttribute setAttribute gets mret M_ret classList_add unobserve modify].
  cbn [heap]. rewrite He. cbn [mbind option_bind].
  destruct (truthy (attributes e !! "data-src")) as [src|] eqn:Hsrc;
    cbn [fst snd heap with_heap observers with_observers].
  - rewrite lookup_alter_eq, He. cbn [fmap option_fmap option_map mbind option_bind
      attributes with_attributes].
    assert ((<["src":=src]> (attributes e) : gmap string string) !! "data-srcset"
            = attributes e !! "data-srcset") as -> by by rewrite lookup_insert_ne.
    destruct (truthy (attributes e !! "data-srcset")) as [srcset|] eqn:Hsrcset;
      cbn [fst snd heap with_heap observers with_observers];
      rewrite !lookup_alter_eq, He; cbn;
      (split; [done|]);
      rewrite ?lookup_insert_eq, ?(lookup_insert_ne _ "srcset" "src"),
              ?(lookup_insert_ne _ "src" "srcset"), ?lookup_insert_eq by done;
      (split; [done|]); (split; [done|]);
      (split; [apply elem_of_token_add; by left|]);
      rewrite list_lookup_alter_eq; destruct (observers0 !! io) as [[cb ts]|]; cbn;
      rewrite ?elem_of_difference, ?elem_of_singleton; try tauto; apply not_elem_of_empty.
  - rewrite !lookup_alter_eq, He; cbn.
    split; [done|]. split; [done|]. split; [done|].
    split; [apply elem_of_token_add; by left|].
    rewrite list_lookup_alter_eq; destruct (observers0 !! io) as [[cb ts]|]; cbn;
      rewrite ?elem_of_difference, ?elem_of_singleton; try tauto; apply not_elem_of_empty.
Qed.

Lemma truthy_Some (s : string) : s ≠ "" → truthy (Some s) = Some s.
Proof. by destruct s. Qed.

(** X6. From set-up to loading: after [initLazyLoader], when the browser
    reports a lazy image as intersecting, the callback copies [data-src]
    into [src] (and [data-srcset] into [srcset], if given), marks the image
    loaded and stops observing it.  An entry that is not intersecting
    changes nothing. *)
Theorem lazy_image_gets_its_source (browser : host) (w : world) (n : node) (e : element)
    (s : string) :
  hasIntersectionObserver browser = true →
  observeLazy w = None →
  heap w !! n = Some e →
  attributes e !! "data-src" = Some s → s ≠ "" →
  let io := length (observers w) in
  let w1 := final (initLazyLoader browser) w in
  let w2 := final (deliver io [Entry n true]) w1 in
  result (deliver io [Entry n true]) w1 = Normal ()
  ∧ attribute_of w2 n "src" = Some s
  ∧ (∀ t, attributes e !! "data-srcset" = Some t → t ≠ "" →
          attribute_of w2 n "srcset" = Some t)
  ∧ "loaded" ∈ class_of w2 n
  ∧ (n ∉ observed_by w2 io)
  ∧ deliver io [Entry n false] w1 = (Normal (), w1).
Proof.
  intros Hio Hnone He Hsrc Hs io w1 w2.
  assert (observers w1 !! io
          = Some (Observer LazyLoad (list_to_set (all_matches w [SelTagClass "img" "lazy"]))))
    as Hobserver.
  { unfold w1, final. rewrite (initLazyLoader_run browser w Hnone Hio).
    destruct w; cbn. by rewrite lookup_app_r, Nat.sub_diag. }
  assert (heap w1 !! n = Some e) as He1.
  { unfold w1, final. rewrite (initLazyLoader_run browser w Hnone Hio). by destruct w. }
  assert (∀ entries, deliver io entries w1 = lazy_callback entries io w1) as Hdeliver.
  { intros entries. unfold deliver. erewrite bind_normal by reflexivity. cbn beta.
    by rewrite Hobserver. }
  destruct (lazy_callback_single w1 io n e He1) as (Hres & Hsrc' & Hsrcset & Hloaded & Hgone).
  unfold w2, result, final. rewrite !Hdeliver.
  rewrite Hsrc, (truthy_Some s Hs) in Hsrc', Hsrcset.
  split; [done|]. split; [done|]. split; [|by repeat split].
  intros t Ht Hne. rewrite Ht, (truthy_Some t Hne) in Hsrcset. exact Hsrcset.
Qed.

Lemma lazy_image_gets_its_source_witness :
  attribute_of
    (final (deliver 0 [Entry 0 true])
       (final (initLazyLoader hero_missing_host)
          (page [Element "img" None ["lazy"] {["data-src" := "a.jpg"]} [] (Markup "")
                   None ∅ []]))) 0 "src" = Some "a.jpg".
Proof.
  pose proof (lazy_image_gets_its_source hero_missing_host
                (page [Element "img" None ["lazy"] {["data-src" := "a.jpg"]} [] (Markup "")
                         None ∅ []]) 0
                (Element "img" None ["lazy"] {["data-src" := "a.jpg"]} [] (Markup "")
                         None ∅ [])
                "a.jpg") as Hload.
  destruct Hload as (_ & Hsrc & _);
    [reflexivity | reflexivity | vm_compute; reflexivity | vm_compute; reflexivity
    | discriminate | exact Hsrc].
Defined.

(** X7. An image without [data-src] (or with an empty one) that is reported
    as intersecting keeps its [src] and [srcset] as they are, and is still
    marked loaded and dropped from observation. *)
Theorem lazy_image_without_source (w : world) (io : nat) (n : node) (e : element) :
  heap w !! n = Some e →
  truthy (attributes e !! "data-src") = None →
  attribute_of (final (lazy_callback [Entry n true] io) w) n "src" = attributes e !! "src"
  ∧ attribute_of (final (lazy_callback [Entry n true] io) w) n "srcset"
    = attributes e !! "srcset"
  ∧ "loaded" ∈ class_of (final (lazy_callback [Entry n true] io) w) n
  ∧ n ∉ observed_by (final (lazy_callback [Entry n true] io) w) io.
Proof.
  intros He Hnone.
  destruct (lazy_callback_single w io n e He) as (_ & Hsrc & Hsrcset & Hloaded & Hgone).
  rewrite Hnone in Hsrc, Hsrcset. by repeat split.
Qed.

Lemma lazy_image_without_source_witness :
  "loaded" ∈ class_of (final (lazy_callback [Entry 0 true] 0) gallery_page) 0
  ∧ attribute_of (final (lazy_callback [Entry 0 true] 0) gallery_page) 0 "src" = None.
Proof.
  destruct (lazy_image_without_source gallery_page 0 0 (plain "img" None ["lazy"] []))
    as (Hsrc & _ & Hloaded & _);
    [vm_compute; reflexivity | vm_compute; reflexivity | split; [exact Hloaded | exact Hsrc]].
Defined.

(** X8. A rescan directly after a rescan finds nothing new: the second call
    of [window.observeLazy] returns the state it was given. *)
Theorem observeLazy_twice_is_once (w : world) (io : nat) :
  observeLazy_call io (final (observeLazy_call io) w)
    = (Normal (), final (observeLazy_call io) w).
Proof.
  unfold final, observeLazy_call, forEach.
  erewrite !bind_normal by reflexivity. cbn beta.
  set (l := filter (λ n, selects (heap w) [SelTagClassNot "img" "lazy" "loaded"] n = true)
                   (order w)).
  destruct (forEach_observe_run io l 0 w) as (obs & Hrun & Hother & Hio).
  rewrite Hrun. cbn [snd].
  replace (filter _ (order (with_observers (λ _, obs) w))) with l by by destruct w.
  destruct (forEach_observe_run io l 0 (with_observers (λ _, obs) w))
    as (obs' & -> & Hother' & Hio').
  rewrite with_observers_twice. do 2 f_equal.
  assert (obs' = obs) as ->; [|done].
  replace (observers (with_observers (λ _, obs) w)) with obs in * by by destruct w.
  apply list_eq. intros i. destruct (decide (i = io)) as [->|Hi].
  - rewrite Hio', Hio. destruct (observers w !! io) as [[cb ts]|]; cbn; [|done].
    by rewrite (assoc_L (∪)), (idemp_L (∪)).
  - by apply Hother'.
Qed.

(** *** The reveal observer *)

Lemma reveal_round (entry : entry) (obs : nat) (w : world) :
  let round := if isIntersecting entry
               then classList_add (target entry) "is-visible";; unobserve obs (target entry)
               else mret () in
  (round w).1 = Normal ()
  ∧ (∀ n e', heap (round w).2 !! n = Some e' →
             ∃ e, heap w !! n = Some e ∧ ∀ c, c ∈ classList e → c ∈ classList e')
  ∧ (∀ n, n ∉ observed_by w obs → n ∉ observed_by (round w).2 obs)
  ∧ (isIntersecting entry = true →
     (∀ e, heap (round w).2 !! target entry = Some e → "is-visible" ∈ classList e)
     ∧ target entry ∉ observed_by (round w).2 obs)
  ∧ (∀ n, (isIntersecting entry = true → target entry ≠ n) →
          heap (round w).2 !! n = heap w !! n
          ∧ (n ∈ observed_by (round w).2 obs ↔ n ∈ observed_by w obs)).
Proof.
  unfold class_of, observed_by.
  destruct entry as [t [|]]; cbn [isIntersecting target]; destruct w;
    cbv [mbind M_bind mret M_ret classList_add unobserve modify];
    cbn [fst snd heap with_heap observers with_observers].
  - split; [done|]. split; [|split; [|split]].
    + intros n e'. destruct (decide (t = n)) as [->|Hne].
      * rewrite lookup_alter_eq. destruct (heap0 !! n) as [e|]; cbn; [|done].
        intros [= <-]. exists e. split; [done|]. intros c Hc.
        apply elem_of_token_add. by right.
      * rewrite lookup_alter_ne by done. eauto.
    + intros n. rewrite list_lookup_alter_eq.
      destruct (observers0 !! obs) as [[cb ts]|]; cbn; [|done].
      rewrite elem_of_difference. tauto.
    + intros _. split.
      * intros e. rewrite lookup_alter_eq. destruct (heap0 !! t); cbn; [|done].
        intros [= <-]. apply elem_of_token_add. by left.
      * rewrite list_lookup_alter_eq.
        destruct (observers0 !! obs) as [[cb ts]|]; cbn; [|apply not_elem_of_empty].
        rewrite elem_of_difference, elem_of_singleton. tauto.
    + intros n Hn. specialize (Hn eq_refl). split; [by rewrite lookup_alter_ne|].
      rewrite list_lookup_alter_eq.
      destruct (observers0 !! obs) as [[cb ts]|]; cbn; [|done].
      rewrite elem_of_difference, elem_of_singleton. split; [tauto | by split].
  - split; [done|]. split; [eauto|]. split; [done|]. split; [done|done].
Qed.

(** X9. The reveal callback: every target the browser reports as
    intersecting gets the class [is-visible] and is no longer observed;
    elements that no intersecting entry names keep their state and their
    observation. *)
Theorem reveal_callback_reveals (entries : list entry) (obs : nat) (w : world) :
  result (reveal_callback entries obs) w = Normal ()
  ∧ (∀ entry, entry ∈ entries → isIntersecting entry = true →
       (∀ e, heap (final (reveal_callback entries obs) w) !! target entry = Some e →
             "is-visible" ∈ classList e)
       ∧ target entry ∉ observed_by (final (reveal_callback entries obs) w) obs)
  ∧ (∀ n, (∀ entry, entry ∈ entries → isIntersecting entry = true → target entry ≠ n) →
          heap (final (reveal_callback entries obs) w) !! n = heap w !! n
          ∧ (n ∈ observed_by (final (reveal_callback entries obs) w) obs
             ↔ n ∈ observed_by w obs)).
Proof.
  unfold result, final, reveal_callback, forEach.
  split; [|split].
  - apply forEach_from_normal. intros a i w0. apply (reveal_round a obs w0).
  - intros entry Hin Hint.
    apply list_elem_of_lookup in Hin as [j Hj].
    apply (forEach_from_each
             (λ a _ w0, isIntersecting a = true →
                (∀ e, heap w0 !! target a = Some e → "is-visible" ∈ classList e)
                ∧ target a ∉ observed_by w0 obs)
             entries _ 0 w) with (j := j) (a := entry); [..|done|done].
    + intros a i w0. apply (reveal_round a obs w0).
    + intros a i w0. apply (reveal_round a obs w0).
    + intros a i b k w0 Ha Hvisible. specialize (Ha Hvisible) as [Hclass Hgone].
      destruct (reveal_round b obs w0) as (_ & Hgrow & Hshrink & _). split.
      * intros e' He'. destruct (Hgrow _ _ He') as (e & He & Hsub). by apply Hsub, Hclass.
      * by apply Hshrink.
  - intros n Hn.
    apply (forEach_from_stable_in
             (λ w0, heap w0 !! n = heap w !! n
                    ∧ (n ∈ observed_by w0 obs ↔ n ∈ observed_by w obs))); [|done].
    intros a i w0 Ha [Hheap Hobs].
    destruct (reveal_round a obs w0) as (_ & _ & _ & _ & Hsame).
    destruct (Hsame n (Hn a Ha)) as [Hheap' Hobs']. split; [congruence | tauto].
Qed.

Lemma reveal_callback_reveals_witness :
  "is-visible" ∈ class_of (final (reveal_callback [Entry 0 true; Entry 1 false] 0)
                             gallery_page) 0
  ∧ heap (final (reveal_callback [Entry 0 true; Entry 1 false] 0) gallery_page) !! 1
    = heap gallery_page !! 1.
Proof.
  destruct (reveal_callback_reveals [Entry 0 true; Entry 1 false] 0 gallery_page)
    as (_ & Hshown & Hsame).
  split.
  - destruct (Hshown (Entry 0 true)) as [Hclass _]; [by constructor | done |].
    unfold class_of.
    destruct (heap (final (reveal_callback [Entry 0 true; Entry 1 false] 0) gallery_page)
                !! 0) as [e|] eqn:He; [|discriminate He].
    by apply Hclass.
  - apply Hsame. intros entry Hin Hint.
    apply elem_of_cons in Hin as [-> | Hin]; [discriminate|].
    apply list_elem_of_singleton in Hin as ->. discriminate Hint.
Defined.

(** X10. [initRevealOnScroll] in full: with no [.reveal] element it does
    nothing; with some, on a host that has [IntersectionObserver], it
    creates one observer that watches exactly these elements; with some, on
    a host without it, it throws a [ReferenceError] and changes nothing. *)
Theorem initRevealOnScroll_watches_reveals (browser : host) (w : world) :
  initRevealOnScroll browser w
    = match all_matches w [SelClass "reveal"] with
      | [] => (Normal (), w)
      | reveals =>
          if hasIntersectionObserver browser
          then (Normal (),
                with_observers (λ os, os ++ [Observer Reveal (list_to_set reveals)]) w)
          else (Throw (ReferenceError "IntersectionObserver is not defined"), w)
      end.
Proof.
  unfold initRevealOnScroll, all_matches.
  erewrite bind_normal by reflexivity. cbn beta.
  destruct (filter _ (order w)) as [|r reveals] eqn:Hreveals; [done|].
  destruct (hasIntersectionObserver browser) eqn:Hio.
  - erewrite bind_normal
      by (unfold new_IntersectionObserver; rewrite Hio; reflexivity).
    unfold forEach.
    rewrite (forEach_observe_new (observers w) Reveal (r :: reveals) 0) by by destruct w.
    by destruct w.
  - erewrite bind_throw; [done|]. unfold new_IntersectionObserver. by rewrite Hio.
Qed.

(** ** More on the navbar listener and the page start *)

(** X11. With the navbar in the document when [DOMContentLoaded] fires,
    the listener registers the scroll handler for that element and sets the
    class once for the offset the page is at. *)
Theorem navbar_listener_with_navbar (w : world) (n : node) :
  element_by_id w "topNav" = Some n →
  result navbar_DOMContentLoaded w = Normal ()
  ∧ listeners (final navbar_DOMContentLoaded w)
    = listeners w ++ [(Window, "scroll", OnScroll (Some n))]
  ∧ ("scrolled" ∈ class_of (final navbar_DOMContentLoaded w) n ↔ (50 < scrollY w)%Q).
Proof.
  intros Hfound. destruct (element_by_id_in_heap w _ _ Hfound) as [e He].
  unfold result, final, navbar_DOMContentLoaded, class_of.
  erewrite bind_normal by apply getElementById_run. rewrite Hfound.
  erewrite bind_normal by reflexivity.
  unfold onScroll.
  cbv [mbind M_bind gets deref mret M_ret classList_add classList_remove modify].
  pose proof (above_threshold (scrollY w)) as Habove.
  destruct w; cbn [scrollY with_listeners heap] in *.
  destruct (negb (Qle_bool scrollY0 threshold));
    cbn [fst snd heap with_heap with_listeners listeners]; rewrite lookup_alter_eq, He; cbn;
    (split; [done|]); (split; [done|]).
  - rewrite elem_of_token_add. split; [intros _; by apply Habove | by left].
  - rewrite elem_of_token_remove. split; [by intros [? _] | intros Hy].
    apply Habove in Hy. discriminate.
Qed.

Lemma navbar_listener_with_navbar_witness :
  listeners (final navbar_DOMContentLoaded (with_scrollY 120 nav_page))
    = [(Window, "scroll", OnScroll (Some 0))]
  ∧ "scrolled" ∈ class_of (final navbar_DOMContentLoaded (with_scrollY 120 nav_page)) 0.
Proof.
  destruct (navbar_listener_with_navbar (with_scrollY 120 nav_page) 0 eq_refl)
    as (_ & Hlisteners & Hclass).
  split; [exact Hlisteners | by apply Hclass].
Defined.

(** ** The routines behind [initNavScroll] *)

Lemma silent_new_IntersectionObserver_available (browser : host) (cb : observer_callback) :
  hasIntersectionObserver browser = true →
  silent_unless never (new_IntersectionObserver browser cb).
Proof.
  intros Hio w. unfold new_IntersectionObserver. rewrite Hio.
  split; [by destruct w | done].
Qed.

Ltac quiet :=
  repeat first
    [ apply silent_ret
    | apply silent_gets
    | (apply silent_modify; by intros [])
    | (apply silent_new_IntersectionObserver_available; assumption)
    | (apply silent_bind; [|intros ?])
    | (apply silent_forEach_from; intros ? ?)
    | progress unfold classList_add, classList_remove, setAttribute, set_style,
        addEventListener, getAttribute, get_value, querySelector, querySelectorAll,
        querySelectorIn, querySelectorAllIn, getElementById, observe, forEach,
        observeLazy_if_defined, observeLazy_call, parallax
    | match goal with
      | |- silent_unless _ (match ?x with _ => _ end) => destruct x
      end ].

Lemma silent_never_normal (m : M unit) (w : world) :
  silent_unless never m → ∃ w', m w = (Normal (), w') ∧ trace w' = trace w.
Proof.
  intros Hm. destruct (Hm w) as [Htrace Herr].
  destruct (m w) as [[[]|e] w']; cbn [fst snd] in *; [eauto|].
  destruct (Herr e eq_refl).
Qed.

Lemma silent_initHeroInteractions : silent_unless never initHeroInteractions.
Proof. unfold initHeroInteractions. quiet. Qed.

Lemma silent_initServicesScroller : silent_unless never initServicesScroller.
Proof. unfold initServicesScroller. quiet. Qed.

Lemma silent_initPortfolioLightbox : silent_unless never initPortfolioLightbox.
Proof. unfold initPortfolioLightbox. quiet. Qed.

Lemma silent_initContactForm (browser : host) :
  silent_unless never (initContactForm browser).
Proof.
  unfold initContactForm. destruct (hasIntersectionObserver browser) eqn:Hio; quiet.
Qed.

Lemma silent_initOrderForm : silent_unless never initOrderForm.
Proof. unfold initOrderForm. quiet. Qed.

(** X12. The five routines that [initInteractions] lists after
    [initNavScroll] never throw, on any page and any host, with or without
    [IntersectionObserver]: each returns normally. *)
Theorem later_routines_complete (browser : host) (w : world) :
  Forall (λ routine : M unit, ∃ w', routine w = (Normal (), w') ∧ trace w' = trace w)
    [ initHeroInteractions; initServicesScroller; initPortfolioLightbox;
      initContactForm browser; initOrderForm ].
Proof.
  rewrite !Forall_cons.
  split; [apply silent_never_normal, silent_initHeroInteractions|].
  split; [apply silent_never_normal, silent_initServicesScroller|].
  split; [apply silent_never_normal, silent_initPortfolioLightbox|].
  split; [apply silent_never_normal, silent_initContactForm|].
  split; [apply silent_never_normal, silent_initOrderForm|].
  apply Forall_nil_2.
Qed.

(** ** Page start *)

Lemma aborts_bind {X A B} (proj : world → X) (m : M A) (f : A → M B) :
  keeps proj m → (∀ a, aborts_keeping proj (f a)) → aborts_keeping proj (m ≫= f).
Proof.
  intros Hm Hf w. specialize (Hm w). cbv [mbind M_bind].
  destruct (m w) as [[a|e] w']; cbn [snd] in *.
  - destruct (Hf a w') as (e & w'' & -> & Hproj). exists e, w''. split; [done | congruence].
  - by exists e, w'.
Qed.

Lemma aborts_first {X A B} (proj : world → X) (m : M A) (f : A → M B) :
  aborts_keeping proj m → aborts_keeping proj (m ≫= f).
Proof.
  intros Hm w. destruct (Hm w) as (e & w' & Hrun & Hproj).
  exists e, w'. split; [|done]. by erewrite bind_throw by exact Hrun.
Qed.

Ltac kept :=
  repeat first
    [ apply keeps_ret
    | apply keeps_throw
    | apply keeps_gets
    | (apply keeps_modify; by intros [])
    | (apply keeps_bind; [|intros ?])
    | (apply keeps_try_catch; [|intros ?])
    | (apply keeps_forEach_from; intros ? ?)
    | (apply keeps_for_of; intros ?)
    | progress unfold classList_add, classList_remove, setAttribute, set_style,
        getAttribute, get_value, querySelector, querySelectorAll,
        querySelectorIn, querySelectorAllIn, getElementById, observe, forEach, emit, text
    | match goal with
      | |- keeps _ (match ?x with _ => _ end) => destruct x
      end ].

Lemma keeps_listeners_loadSection (browser : host) (targetId p : string) :
  keeps listeners (loadSection browser targetId p).
Proof.
  assert (keeps listeners (fetch browser p)) as Hfetch.
  { intros w. unfold fetch. by destruct (outcome _). }
  assert (∀ c html, keeps listeners (set_innerHTML browser c html)) as Hset by done.
  unfold loadSection. kept; done.
Qed.

Lemma keeps_listeners_call (browser : host) (name : string) (f : M unit) :
  resolve name (declarations browser) = Some f → keeps listeners f →
  keeps listeners (call browser name).
Proof. intros Hf Hkeeps. unfold call. rewrite Hf. kept. exact Hkeeps. Qed.

Lemma keeps_listeners_setYear (browser : host) : keeps listeners (setYear browser).
Proof. unfold setYear. kept. Qed.

Lemma keeps_listeners_initLazyLoader (browser : host) :
  keeps listeners (initLazyLoader browser).
Proof.
  unfold initLazyLoader. kept.
  intros w. unfold new_IntersectionObserver.
  destruct (hasIntersectionObserver browser); by destruct w.
Qed.

Lemma keeps_listeners_initRevealOnScroll (browser : host) :
  keeps listeners (initRevealOnScroll browser).
Proof.
  unfold initRevealOnScroll. kept.
  intros w. unfold new_IntersectionObserver.
  destruct (hasIntersectionObserver browser); by destruct w.
Qed.

Lemma loadAllSectionsSequentially_listeners (browser : host) (descs : list descriptor) :
  aborts_keeping listeners (loadAllSectionsSequentially browser descs).
Proof.
  unfold loadAllSectionsSequentially. apply aborts_bind.
  { apply keeps_for_of. intros s. apply keeps_listeners_loadSection. }
  intros _. unfold initInteractions.
  apply aborts_bind; [kept|]. intros _.
  apply aborts_bind.
  { by apply (keeps_listeners_call browser "setYear" (setYear browser) eq_refl),
             keeps_listeners_setYear. }
  intros _. apply aborts_bind.
  { by apply (keeps_listeners_call browser "initLazyLoader" (initLazyLoader browser) eq_refl),
             keeps_listeners_initLazyLoader. }
  intros _. apply aborts_bind.
  { by apply (keeps_listeners_call browser "initRevealOnScroll"
                (initRevealOnScroll browser) eq_refl),
             keeps_listeners_initRevealOnScroll. }
  intros _. apply aborts_first. intros w. eexists _, w. split; [|done].
  apply call_initNavScroll.
Qed.

Lemma DOMContentLoaded_run (browser : host) (w : world) :
  ∃ err w',
    DOMContentLoaded browser w = (Normal (), w')
    ∧ listeners w'
      = listeners w ++ [(Window, "scroll", OnScroll (element_by_id w "topNav"))]
    ∧ last (trace w') = Some (Uncaught err).
Proof.
  unfold DOMContentLoaded.
  (* the navbar listener *)
  assert (∃ w1, try_catch navbar_DOMContentLoaded (λ err, emit (Uncaught err)) w
                  = (Normal (), w1)
                ∧ listeners w1
                  = listeners w ++ [(Window, "scroll", OnScroll (element_by_id w "topNav"))])
    as (w1 & Hnav & Hlisteners).
  { unfold try_catch, navbar_DOMContentLoaded.
    erewrite bind_normal by apply getElementById_run.
    erewrite bind_normal by reflexivity.
    set (w0 := with_listeners _ w).
    assert (keeps listeners (onScroll (element_by_id w "topNav"))) as Hscroll.
    { unfold onScroll, deref. kept. }
    specialize (Hscroll w0).
    destruct (onScroll (element_by_id w "topNav") w0) as [[[]|e] w1]; cbn [snd] in Hscroll.
    - exists w1. split; [done|]. rewrite Hscroll. by destruct w.
    - eexists. split; [reflexivity|]. cbn. rewrite Hscroll. by destruct w. }
  erewrite bind_normal by exact Hnav.
  (* the loader *)
  destruct (loadAllSectionsSequentially_listeners browser sections w1)
    as (err & w2 & Hload & Hkept).
  unfold try_catch. rewrite Hload. cbn [fst snd emit modify].
  exists err. eexists. split; [done|].
  split; [by rewrite <- Hlisteners, <- Hkept; destruct w2|].
  destruct w2; cbn. by rewrite last_snoc.
Qed.

(** X13. What page start wires up.  When [DOMContentLoaded] has been
    handled (the navbar listener first, then the loader with the
    initializer), the listener table holds one new entry and no other: the
    scroll handler of the navbar, bound to the element [topNav] that was in
    the document before any fragment was loaded, or to [null] if it came
    with a fragment.  No submit, click or key handler has been attached, and
    the error that stopped the initializer is the last thing reported. *)
Theorem page_start_wires_only_the_navbar (browser : host) (w : world) :
  result (DOMContentLoaded browser) w = Normal ()
  ∧ listeners (final (DOMContentLoaded browser) w)
    = listeners w ++ [(Window, "scroll", OnScroll (element_by_id w "topNav"))]
  ∧ ∃ err, last (trace (final (DOMContentLoaded browser) w)) = Some (Uncaught err).
Proof.
  destruct (DOMContentLoaded_run browser w) as (err & w' & Hrun & Hlisteners & Hlast).
  unfold result, final. rewrite Hrun. cbn [fst snd]. eauto.
Qed.

(** ** The year stamp *)

(** X14. [setYear] never throws and writes the host's current year, as
    text, into every element of the document whose id is [year], [year-js]
    or [yearFooter]. *)
Theorem setYear_stamps_the_year (browser : host) (w : world) (n : node) :
  n ∈ all_matches w [SelId "year"; SelId "year-js"; SelId "yearFooter"] →
  result (setYear browser) w = Normal ()
  ∧ inner <$> heap (final (setYear browser) w) !! n
    = Some (Text (pretty (fullYear browser))).
Proof.
  intros Hn. unfold result, final, setYear, forEach.
  erewrite !bind_normal by reflexivity. cbn beta. fold (all_matches w
    [SelId "year"; SelId "year-js"; SelId "yearFooter"]).
  set (els := all_matches w _) in *.
  assert (∀ a (i : nat) w0, heap (set_textContent a (pretty (fullYear browser)) w0).2
                    = alter (with_inner (Text (pretty (fullYear browser)))) a (heap w0))
    as Hheap by done.
  split; [by apply forEach_from_normal|].
  assert (is_Some (heap w !! n)) as Hsome.
  { unfold els, all_matches in Hn. apply list_elem_of_filter in Hn as [Hsel _].
    unfold selects in Hsel. by destruct (heap w !! n). }
  apply list_elem_of_lookup in Hn as [j Hj].
  assert (is_Some (heap (forEach_from 0 els
                           (λ el _, set_textContent el (pretty (fullYear browser))) w).2
                     !! n)) as [e He].
  { apply (forEach_from_stable (λ w0, is_Some (heap w0 !! n))); [|done].
    intros a i w0 [e0 He0]. rewrite (Hheap a i).
    destruct (decide (a = n)) as [->|Hne].
    - rewrite lookup_alter_eq, He0. by eexists.
    - rewrite lookup_alter_ne, He0 by done. by eexists. }
  pose proof (forEach_from_each
                (λ a _ w0, ∀ e, heap w0 !! a = Some e →
                                inner e = Text (pretty (fullYear browser)))
                els (λ el _, set_textContent el (pretty (fullYear browser))) 0 w) as Heach.
  rewrite He. cbn. f_equal. eapply Heach; [done| | |exact Hj|exact He].
  - intros a i w0 e0. rewrite (Hheap a i), lookup_alter_eq.
    destruct (heap w0 !! a); cbn; [|done]. by intros [= <-].
  - intros a i b k w0 Ha e0. rewrite (Hheap b k).
    destruct (decide (b = a)) as [->|Hne].
    + rewrite lookup_alter_eq. destruct (heap w0 !! a); cbn; [|done]. by intros [= <-].
    + rewrite lookup_alter_ne by done. apply Ha.
Qed.

Lemma setYear_stamps_the_year_witness :
  inner <$> heap (final (setYear hero_missing_host)
                    (page [plain "span" (Some "year") [] []])) !! 0
    = Some (Text "2026").
Proof.
  destruct (setYear_stamps_the_year hero_missing_host
              (page [plain "span" (Some "year") [] []]) 0) as [_ Hyear].
  - vm_compute. constructor.
  - exact Hyear.
Defined.

(** ** Submitting a form on the page as it starts *)

(** C8, on the code.  Both handlers cancel the event before anything else,
    in every state of the fields, also when the contact handler goes on to
    throw.  But the page never attaches them: [initOrderForm], the one
    place that does, is listed in [initInteractions] after the call that
    throws.  So on the page as [DOMContentLoaded] leaves it, a form that had
    no submit handler before has none now, and submitting it is not
    cancelled: the browser navigates, and no link is opened. *)
Theorem submit_navigates_after_page_start (browser : host) (w : world) (form : node) :
  listeners_for (Node form) "submit" (listeners w) = [] →
  let started := final (DOMContentLoaded browser) w in
  (∀ run w0, run = orderForm_onSubmit form ∨ run = contactForm_onSubmit form →
     ∃ rest, trace (final run w0) = trace w0 ++ PreventDefault :: rest
             ∧ defaultPrevented (final run w0) = true)
  ∧ listeners_for (Node form) "submit" (listeners started) = []
  ∧ submit form started
    = (Normal (), log [Navigated form] (with_defaultPrevented false started)).
Proof.
  intros Hnone started.
  split; [intros run w0; apply handlers_cancel_first|].
  assert (listeners_for (Node form) "submit" (listeners started) = []) as Hstarted.
  { destruct (DOMContentLoaded_run browser w) as (err & w' & Hrun & Hlisteners & _).
    unfold started, final. rewrite Hrun. cbn [snd].
    rewrite Hlisteners, listeners_for_app, Hnone. unfold listeners_for. cbn.
    rewrite bool_decide_eq_false_2; [done|]. by intros [? _]. }
  split; [done|].
  unfold submit. cbv [mbind M_bind modify gets]. cbn [fst snd].
  replace (listeners (with_defaultPrevented false started)) with (listeners started)
    by by destruct started.
  rewrite Hstarted. cbn [omap for_of]. cbv [mret M_ret]. cbn [fst snd].
  by destruct started.
Qed.

Lemma submit_navigates_after_page_start_witness :
  let started := final (DOMContentLoaded order_form_host) placeholders_page in
  element_by_id started "orderForm" = Some 8
  ∧ trace (final (submit 8) started) = trace started ++ [Navigated 8].
Proof.
  intros started. split; [vm_compute; reflexivity|].
  destruct (submit_navigates_after_page_start order_form_host placeholders_page 8)
    as (_ & _ & Hsubmit); [vm_compute; reflexivity|].
  unfold final at 1. fold started in Hsubmit. rewrite Hsubmit. by destruct started.
Defined.

(** ** The time loading takes *)

Lemma keeps_initInteractions_prefix {X} (proj : world → X) (browser : host) :
  (∀ f w, proj (with_heap f w) = proj w) →
  (∀ f w, proj (with_observers f w) = proj w) →
  (∀ o w, proj (with_observeLazy o w) = proj w) →
  (∀ es w, proj (log es w) = proj w) →
  (∀ c el w, proj (set_textContent el c w).2 = proj w) →
  keeps proj (initInteractions browser).
Proof.
  intros Hheap Hobservers Hlazy Hlog Htext w. rewrite initInteractions_prefix. revert w.
  assert (∀ e, keeps proj (emit e)) as Hemit by (intros e w; apply Hlog).
  assert (∀ cb, keeps proj (new_IntersectionObserver browser cb)) as Hnew.
  { intros cb w. unfold new_IntersectionObserver.
    destruct (hasIntersectionObserver browser); [apply Hobservers | done]. }
  assert (∀ io n, keeps proj (observe io n)) as Hobserve by (intros io n w; apply Hobservers).
  apply keeps_bind; [apply Hemit|]. intros _.
  apply keeps_bind.
  { change (keeps proj (emit (Called "setYear");; setYear browser)).
    apply keeps_bind; [apply Hemit|]. intros _. unfold setYear, forEach, querySelectorAll.
    apply keeps_bind; [apply keeps_gets|]. intros els.
    apply keeps_forEach_from. intros el _ w. apply Htext. }
  intros _. apply keeps_bind.
  { change (keeps proj (emit (Called "initLazyLoader");; initLazyLoader browser)).
    apply keeps_bind; [apply Hemit|]. intros _.
    unfold initLazyLoader, forEach, querySelectorAll.
    apply keeps_bind; [apply keeps_gets|]. intros [io|]; [apply keeps_ret|].
    apply keeps_bind; [apply Hnew|]. intros io.
    apply keeps_bind; [apply keeps_gets|]. intros imgs.
    apply keeps_bind; [apply keeps_forEach_from; intros; apply Hobserve|]. intros _.
    intros w. apply Hlazy. }
  intros _. apply keeps_bind; [|intros _; apply keeps_throw].
  change (keeps proj (emit (Called "initRevealOnScroll");; initRevealOnScroll browser)).
  apply keeps_bind; [apply Hemit|]. intros _.
  unfold initRevealOnScroll, forEach, querySelectorAll.
  apply keeps_bind; [apply keeps_gets|]. intros [|r reveals]; [apply keeps_ret|].
  apply keeps_bind; [apply Hnew|]. intros io.
  apply keeps_forEach_from; intros; apply Hobserve.
Qed.

(** X2. Loading takes the sum of the latencies.  On the event loop the
    loader ends at the time it started plus the latency of every reply,
    having made one request per descriptor: no request is in flight while
    another is.  (Two loads side by side end when the slower reply is
    there; see [side_by_side_follows_the_replies].) *)
Theorem loading_takes_the_sum_of_latencies (browser : host) (descs : list descriptor)
    (w : world) :
  ∃ w',
    (∀ fuel, length descs ≤ fuel →
       Async.run browser fuel [Async.loadAllSectionsSequentially browser descs] w = Some w')
    ∧ clock w' = clock w + total_latency browser (requests w) descs
    ∧ requests w' = requests w + length descs.
Proof.
  eexists. split; [intros fuel Hfuel; by apply run_loader|].
  unfold final, try_catch, loadAllSectionsSequentially. fold (load_each browser descs).
  destruct (load_each_run browser descs w) as (tr & w1 & Hloop & _).
  destruct (load_each_time browser descs w) as [Hclock Hrequests].
  unfold final in Hclock, Hrequests. rewrite Hloop in Hclock, Hrequests. cbn [snd] in *.
  erewrite bind_normal by exact Hloop.
  pose proof (keeps_initInteractions_prefix clock browser) as Hkeeps_clock.
  pose proof (keeps_initInteractions_prefix requests browser) as Hkeeps_requests.
  specialize (Hkeeps_clock ltac:(by intros ? []) ltac:(by intros ? []) ltac:(by intros ? [])
                           ltac:(by intros ? []) ltac:(by intros ? ? []) w1).
  specialize (Hkeeps_requests ltac:(by intros ? []) ltac:(by intros ? [])
                ltac:(by intros ? []) ltac:(by intros ? []) ltac:(by intros ? ? []) w1).
  destruct (initInteractions browser w1) as [[[]|err] w2]; cbn [snd] in *.
  - by rewrite Hkeeps_clock, Hkeeps_requests.
  - replace (clock (emit (Uncaught err) w2).2) with (clock w2) by by destruct w2.
    replace (requests (emit (Uncaught err) w2).2) with (requests w2) by by destruct w2.
    by rewrite Hkeeps_clock, Hkeeps_requests.
Qed.

(** ** The contact form's fields *)

Lemma filled_spec (v : option string) :
  filled v = true ↔ ∃ s, v = Some s ∧ trim s ≠ "".
Proof.
  unfold filled. destruct v as [[|c s]|]; cbn.
  - split; [done | by intros (s & [= <-] & Hs)].
  - rewrite negb_true_iff, bool_decide_eq_false. split; [eauto | by intros (? & [= <-] & ?)].
  - split; [done | by intros (? & ? & _)].
Qed.

(** X15. The [input] and [change] listeners of a field keep its floating
    label in step with its value: afterwards the field carries the class
    [filled] exactly when its value has something other than white space in
    it.  No other class changes. *)
Theorem field_onInput_reflects_value (w : world) (f : node) (e : element) :
  heap w !! f = Some e →
  result (field_onInput f) w = Normal ()
  ∧ ("filled" ∈ class_of (final (field_onInput f) w) f
     ↔ ∃ s, value e = Some s ∧ trim s ≠ "")
  ∧ ∀ c, c ≠ "filled" → c ∈ class_of (final (field_onInput f) w) f ↔ c ∈ classList e.
Proof.
  intros He. unfold result, final, field_onInput, class_of.
  cbv [mbind M_bind get_value gets classList_add classList_remove modify].
  rewrite He. cbn [mbind option_bind].
  pose proof (filled_spec (value e)) as Hfilled.
  destruct (filled (value e)); cbn [fst snd]; destruct w; cbn [heap with_heap] in *;
    rewrite lookup_alter_eq, He; cbn.
  - split; [done|]. split.
    + rewrite elem_of_token_add. split; [intros _; by apply Hfilled | by left].
    + intros c Hc. rewrite elem_of_token_add. split; [by intros [? | ?] | by right].
  - split; [done|]. split.
    + rewrite elem_of_token_remove. split; [by intros [? _] | intros Hs].
      apply Hfilled in Hs. discriminate.
    + intros c Hc. rewrite elem_of_token_remove. split; [by intros [_ ?] | done].
Qed.

Lemma field_onInput_reflects_value_witness :
  "filled" ∈ class_of (final (field_onInput 1) contact_page) 1.
Proof.
  destruct (field_onInput_reflects_value contact_page 1 (control "input" "name" "Dina" [0]))
    as (_ & Hfilled & _); [vm_compute; reflexivity|].
  apply Hfilled. exists "Dina". split; [reflexivity|]. vm_compute. discriminate.
Defined.

(** *** The stagger of the form's rows *)

Lemma keeps_heap_new_IntersectionObserver (browser : host) (cb : observer_callback) :
  keeps heap (new_IntersectionObserver browser cb).
Proof.
  intros w. unfold new_IntersectionObserver.
  destruct (hasIntersectionObserver browser); by destruct w.
Qed.

(** Adding a class to some element leaves a staggered element staggered. *)
Lemma preserves_staggered_classList_add (n : node) (delay : string) (m : node) (c : string) :
  preserves (λ w, ∀ e, heap w !! n = Some e → staggered delay e) (classList_add m c).
Proof.
  intros w Hw e. unfold classList_add, modify. cbn [snd].
  replace (heap (with_heap _ w)) with (alter (with_classList (token_add c)) m (heap w))
    by by destruct w.
  destruct (decide (m = n)) as [->|Hne].
  - rewrite lookup_alter_eq. destruct (heap w !! n) as [e0|] eqn:He0; cbn; [|done].
    intros [= <-]. destruct (Hw e0 eq_refl) as [Hstyle Hclass].
    split; [done|]. apply elem_of_token_add. by right.
  - rewrite lookup_alter_ne by done. apply Hw.
Qed.

(** X16. [initContactForm] staggers the rows of the form: the [i]-th
    element that is a direct child of a [.row] inside the form, counted
    from 0 in document order, gets the class [reveal-child] and a
    transition delay of [80 * i] milliseconds. *)
Theorem contact_rows_are_staggered (browser : host) (w : world) (cf n : node) (i : nat) :
  NoDup (order w) →
  element_by_id w "contactForm" = Some cf →
  matches_in w cf [SelChildOfClass "row"] !! i = Some n →
  result (initContactForm browser) w = Normal ()
  ∧ style_of (final (initContactForm browser) w) n "transitionDelay"
    = Some (CssText (pretty (i * 80) +:+ "ms"))
  ∧ "reveal-child" ∈ class_of (final (initContactForm browser) w) n.
Proof.
  intros Hnodup Hform Hn.
  split.
  { destruct (silent_never_normal (initContactForm browser) w
                (silent_initContactForm browser)) as (w' & Hrun & _).
    unfold result. by rewrite Hrun. }
  set (rows := matches_in w cf [SelChildOfClass "row"]) in *.
  set (delay := pretty (i * 80) +:+ "ms").
  set (round := λ (el : node) (idx : nat),
         classList_add el "reveal-child";;
         set_style el "transitionDelay" (CssText (pretty (idx * 80) +:+ "ms"))).
  assert (∀ a idx w0,
            (round a idx w0).1 = Normal ()
            ∧ heap (round a idx w0).2
              = alter (with_style <["transitionDelay" :=
                                      CssText (pretty (idx * 80) +:+ "ms")]>) a
                  (alter (with_classList (token_add "reveal-child")) a (heap w0)))
    as Hround.
  { intros a idx w0. by destruct w0. }
  (* the state after the first loop *)
  destruct (forEach_from 0 rows round w) as [c1 w1] eqn:Hloop.
  assert (c1 = Normal ()) as ->.
  { change c1 with (c1, w1).1. rewrite <- Hloop. apply forEach_from_normal.
    intros a idx w0. apply Hround. }
  assert (is_Some (heap w1 !! n)
          ∧ ∀ e, heap w1 !! n = Some e → staggered delay e) as [Hsome Hstaggered].
  { change w1 with (@Normal unit (), w1).2. rewrite <- Hloop. split.
    - apply (forEach_from_stable (λ w0, is_Some (heap w0 !! n))).
      + intros a idx w0 [e0 He0]. destruct (Hround a idx w0) as [_ ->].
        destruct (decide (a = n)) as [->|Hne].
        * rewrite !lookup_alter_eq, He0. by eexists.
        * rewrite !lookup_alter_ne, He0 by done. by eexists.
      + assert (n ∈ rows) as Hin by (apply list_elem_of_lookup; eauto).
        unfold rows, matches_in in Hin. apply list_elem_of_filter in Hin as [Hsel _].
        apply andb_true_iff in Hsel as [Hsel _].
        unfold selects in Hsel. by destruct (heap w !! n).
    - apply (forEach_from_each_distinct
               (λ a idx w0, ∀ e, heap w0 !! a = Some e →
                                 staggered (pretty (idx * 80) +:+ "ms") e)
               rows round 0 w) with (j := i) (a := n); [| | | |done].
      + by apply NoDup_filter.
      + intros a idx w0. apply Hround.
      + intros a idx w0 e. destruct (Hround a idx w0) as [_ ->].
        rewrite !lookup_alter_eq. destruct (heap w0 !! a); cbn; [|done].
        intros [= <-]. split; cbn; [by rewrite lookup_insert_eq|].
        apply elem_of_token_add. by left.
      + intros a idx b k w0 Hne Ha e. destruct (Hround b k w0) as [_ ->].
        rewrite !lookup_alter_ne by done. apply Ha. }
  (* what follows only adds classes and listeners *)
  assert (∃ after : M unit,
            final (initContactForm browser) w = (after w1).2
            ∧ after = (contactSection ← querySelector [SelClass "contact-section"];
                       match contactSection with
                       | Some cs =>
                           if hasIntersectionObserver browser then
                             obs ← new_IntersectionObserver browser (ContactStagger cf);
                             observe obs cs
                           else mret ()
                       | None => mret ()
                       end;;
                       fields ← querySelectorAllIn cf
                                  [SelTagAttr "input" "placeholder";
                                   SelTagAttr "textarea" "placeholder";
                                   SelTagAttr "select" "placeholder"];
                       forEach_from 0 fields (λ f _,
                         v ← get_value f;
                         (if filled v then classList_add f "filled" else mret ());;
                         addEventListener (Node f) "input" (FieldInput f);;
                         addEventListener (Node f) "change" (FieldChange f))))
    as (after & -> & Hafter).
  { eexists. split; [|reflexivity].
    unfold final, initContactForm.
    erewrite bind_normal by apply getElementById_run. rewrite Hform.
    erewrite bind_normal by reflexivity.
    unfold forEach at 1. fold rows. fold round.
    by erewrite bind_normal by exact Hloop. }
  assert (preserves (λ w0, is_Some (heap w0 !! n)) after
          ∧ preserves (λ w0, ∀ e, heap w0 !! n = Some e → staggered delay e) after)
    as [Hdomain Hkept].
  { rewrite Hafter. unfold querySelector, querySelectorAll, querySelectorAllIn. split.
    - apply preserves_bind; [apply preserves_bind; [apply preserves_gets|intros ?; apply preserves_ret]|].
      intros cs.
      apply preserves_bind.
      { destruct cs as [cs|]; [|apply preserves_ret].
        destruct (hasIntersectionObserver browser); [|apply preserves_ret].
        apply (preserves_keeps_heap (λ h, is_Some (h !! n))).
        apply keeps_bind; [apply keeps_heap_new_IntersectionObserver|].
        intros obs. unfold observe. kept. }
      intros _. apply preserves_bind; [apply preserves_gets|]. intros fields.
      apply preserves_forEach_from. intros f idx.
      apply preserves_bind; [apply preserves_gets|]. intros v.
      apply preserves_bind.
      { destruct (filled v); [|apply preserves_ret].
        intros w0 [e0 He0]. unfold classList_add, modify. cbn [snd].
        replace (heap (with_heap _ w0))
          with (alter (with_classList (token_add "filled")) f (heap w0)) by by destruct w0.
        destruct (decide (f = n)) as [->|Hne].
        - rewrite lookup_alter_eq, He0. by eexists.
        - rewrite lookup_alter_ne, He0 by done. by eexists. }
      intros _. apply (preserves_keeps_heap (λ h, is_Some (h !! n))).
      unfold addEventListener. kept.
    - apply preserves_bind; [apply preserves_bind; [apply preserves_gets|intros ?; apply preserves_ret]|].
      intros cs.
      apply preserves_bind.
      { destruct cs as [cs|]; [|apply preserves_ret].
        destruct (hasIntersectionObserver browser); [|apply preserves_ret].
        apply (preserves_keeps_heap (λ h, ∀ e, h !! n = Some e → staggered delay e)).
        apply keeps_bind; [apply keeps_heap_new_IntersectionObserver|].
        intros obs. unfold observe. kept. }
      intros _. apply preserves_bind; [apply preserves_gets|]. intros fields.
      apply preserves_forEach_from. intros f idx.
      apply preserves_bind; [apply preserves_gets|]. intros v.
      apply preserves_bind.
      { destruct (filled v); [|apply preserves_ret].
        apply preserves_staggered_classList_add. }
      intros _. apply (preserves_keeps_heap (λ h, ∀ e, h !! n = Some e → staggered delay e)).
      unfold addEventListener. kept. }
  destruct (Hdomain w1 Hsome) as [e He].
  destruct (Hkept w1 Hstaggered e He) as [Hstyle Hclass].
  unfold style_of, class_of. rewrite He. split; [exact Hstyle | exact Hclass].
Qed.

Lemma contact_rows_are_staggered_witness :
  style_of (final (initContactForm hero_missing_host) contact_rows_page) 3 "transitionDelay"
  = Some (CssText "80ms").
Proof.
  destruct (contact_rows_are_staggered hero_missing_host contact_rows_page 0 3 1)
    as (_ & Hstyle & _).
  - apply NoDup_seq.
  - vm_compute; reflexivity.
  - vm_compute; reflexivity.
  - exact Hstyle.
Defined.

(** *** The reveal of the staggered rows *)

Lemma visible_classList_add (n m : node) (c : string) (w : world) :
  (∃ e, heap w !! n = Some e ∧ "is-visible" ∈ classList e) →
  ∃ e, heap (classList_add m c w).2 !! n = Some e ∧ "is-visible" ∈ classList e.
Proof.
  intros (e & He & Hvisible). unfold classList_add, modify. cbn [snd].
  replace (heap (with_heap _ w)) with (alter (with_classList (token_add c)) m (heap w))
    by by destruct w.
  destruct (decide (m = n)) as [->|Hne].
  - rewrite lookup_alter_eq, He. eexists. split; [done|]. cbn.
    apply elem_of_token_add. by right.
  - rewrite lookup_alter_ne by done. eauto.
Qed.

Lemma forEach_from_makes_visible (n : node) (l : list node) (k : nat) (w : world) :
  is_Some (heap w !! n) → n ∈ l →
  ∃ e, heap (forEach_from k l (λ el _, classList_add el "is-visible") w).2 !! n = Some e
       ∧ "is-visible" ∈ classList e.
Proof.
  revert k w. induction l as [|a l IH]; intros k w [e He] Hin; [by apply elem_of_nil in Hin|].
  cbn [forEach_from]. cbv [mbind M_bind]. unfold classList_add at 1, modify at 1.
  set (w1 := with_heap _ w).
  assert (heap w1 = alter (with_classList (token_add "is-visible")) a (heap w)) as Hw1
    by by destruct w.
  destruct (decide (a = n)) as [->|Hne].
  - apply (forEach_from_stable
             (λ w0, ∃ e, heap w0 !! n = Some e ∧ "is-visible" ∈ classList e)).
    + intros b i w0. apply visible_classList_add.
    + rewrite Hw1, lookup_alter_eq, He. eexists. split; [done|]. cbn.
      apply elem_of_token_add. by left.
  - apply IH.
    + rewrite Hw1, lookup_alter_ne, He by done. by eexists.
    + apply elem_of_cons in Hin as [->|Hin]; done.
Qed.

Lemma stagger_round_run (cf : node) (o : nat) (entry : entry) (w : world) :
  ∃ w1,
    (children ← querySelectorAllIn cf [SelClass "reveal-child"];
     forEach children (λ el _, classList_add el "is-visible");;
     unobserve o (target entry)) w = (Normal (), w1)
    ∧ ∀ n, n ∈ matches_in w cf [SelClass "reveal-child"] →
           ∃ e, heap w1 !! n = Some e ∧ "is-visible" ∈ classList e.
Proof.
  cbv [mbind M_bind querySelectorAllIn gets forEach unobserve modify]. cbn [fst snd].
  fold (matches_in w cf [SelClass "reveal-child"]).
  pose proof (forEach_from_normal (matches_in w cf [SelClass "reveal-child"])
                (λ el _, classList_add el "is-visible") 0 w (λ _ _ _, eq_refl)) as Hnormal.
  assert (∀ n, n ∈ matches_in w cf [SelClass "reveal-child"] →
               ∃ e, heap (forEach_from 0 (matches_in w cf [SelClass "reveal-child"])
                            (λ el _, classList_add el "is-visible") w).2 !! n = Some e
                    ∧ "is-visible" ∈ classList e) as Hloop.
  { intros n Hn. apply forEach_from_makes_visible; [|done].
    apply list_elem_of_filter in Hn as [Hn _]. apply andb_true_iff in Hn as [Hn _].
    unfold selects in Hn. by destruct (heap w !! n). }
  destruct (forEach_from 0 _ _ w) as [[[]|err] w2]; cbn [fst snd] in *; [|done].
  eexists. split; [done|]. intros n Hn. destruct (Hloop n Hn) as (e & He & Hvisible).
  exists e. split; [by destruct w2 | done].
Qed.

(** X17. The callback of the contact section's observer: as soon as one
    reported entry is intersecting, every [.reveal-child] inside the form
    has the class [is-visible]; when no entry is intersecting the callback
    changes nothing.  It never throws. *)
Theorem stagger_callback_reveals (cf : node) (entries : list entry) (o : nat) (w : world) :
  result (stagger_callback cf entries o) w = Normal ()
  ∧ ((∃ entry, entry ∈ entries ∧ isIntersecting entry = true) →
     ∀ n, n ∈ matches_in w cf [SelClass "reveal-child"] →
          "is-visible" ∈ class_of (final (stagger_callback cf entries o) w) n)
  ∧ ((∀ entry, entry ∈ entries → isIntersecting entry = false) →
     final (stagger_callback cf entries o) w = w).
Proof.
  split; [|split]; unfold result, final, stagger_callback; unfold forEach at 1.
  - apply forEach_from_normal. intros a i w0. cbv beta.
    destruct (isIntersecting a); [|done].
    destruct (stagger_round_run cf o a w0) as (w1 & -> & _). done.
  - intros Hsome n Hn. generalize 0. revert Hsome.
    induction entries as [|entry entries IH]; intros (x & Hx & Hint) k.
    { by apply elem_of_nil in Hx. }
    cbn [forEach_from]. destruct (isIntersecting entry) eqn:Hentry.
    + destruct (stagger_round_run cf o entry w) as (w1 & Hround & Hvisible).
      erewrite bind_normal by exact Hround.
      unfold class_of.
      destruct (forEach_from_stable
                  (λ w0, ∃ e, heap w0 !! n = Some e ∧ "is-visible" ∈ classList e)
                  entries
                  (λ entry0 _,
                     if isIntersecting entry0
                     then children ← querySelectorAllIn cf [SelClass "reveal-child"];
                          forEach children (λ el _, classList_add el "is-visible");;
                          unobserve o (target entry0)
                     else mret ()) (S k) w1) as (e & -> & He); [|by apply Hvisible|done].
      intros a i w0 Hw0. destruct (isIntersecting a); [|done].
      apply (preserves_bind (λ w0, ∃ e, heap w0 !! n = Some e ∧ "is-visible" ∈ classList e));
        [apply preserves_gets| |done].
      intros children. apply preserves_bind.
      * apply preserves_forEach_from. intros b j w2. apply visible_classList_add.
      * intros _ w2 Hw2. unfold unobserve, modify. cbn [snd]. by destruct w2.
    + erewrite bind_normal by reflexivity. apply IH.
      exists x. split; [|done].
      apply elem_of_cons in Hx as [->|Hx]; [congruence | done].
  - generalize 0. induction entries as [|entry entries IH]; intros k Hnone; [done|].
    cbn [forEach_from]. rewrite (Hnone entry) by apply list_elem_of_here.
    erewrite bind_normal by reflexivity. apply IH.
    intros x Hx. apply Hnone. by apply elem_of_cons; right.
Qed.

Lemma stagger_callback_reveals_witness :
  "is-visible" ∈ class_of (final (deliver 0 [Entry 0 true]) staggered_contact_page) 3.
Proof.
  destruct (stagger_callback_reveals 1 [Entry 0 true] 0 staggered_contact_page)
    as (_ & Hvisible & _).
  apply Hvisible.
  - exists (Entry 0 true). split; [apply list_elem_of_here | reflexivity].
  - vm_compute. apply list_elem_of_here.
Defined.

(** ** The portfolio lightbox *)

Lemma heap_with_heap (f : gmap node element → gmap node element) (w : world) :
  heap (with_heap f w) = f (heap w).
Proof. by destruct w. Qed.

Lemma lookup_set_attribute (h : gmap node element) (n m : node) (a b v : string) :
  (alter (with_attributes <[a := v]>) n h !! m ≫= λ e, attributes e !! b)
  = if bool_decide (n = m ∧ a = b ∧ is_Some (h !! m)) then Some v
    else h !! m ≫= λ e, attributes e !! b.
Proof.
  destruct (decide (n = m)) as [->|Hne].
  - rewrite lookup_alter_eq. destruct (h !! m) as [e|] eqn:He; cbn.
    + destruct (decide (a = b)) as [->|Hab].
      * rewrite lookup_insert_eq. by rewrite bool_decide_eq_true_2.
      * rewrite lookup_insert_ne by done. rewrite bool_decide_eq_false_2; [done|].
        by intros (_ & ? & _).
    + rewrite bool_decide_eq_false_2; [done|]. intros (_ & _ & [? ?]); done.
  - rewrite lookup_alter_ne by done. rewrite bool_decide_eq_false_2; [done|].
    by intros (? & _).
Qed.

Lemma lookup_add_class_attribute (h : gmap node element) (n m : node) (c b : string) :
  (alter (with_classList (token_add c)) n h !! m ≫= λ e, attributes e !! b)
  = h !! m ≫= λ e, attributes e !! b.
Proof.
  destruct (decide (n = m)) as [->|Hne].
  - rewrite lookup_alter_eq. by destruct (h !! m).
  - by rewrite lookup_alter_ne.
Qed.

Lemma lookup_remove_class_attribute (h : gmap node element) (n m : node) (c b : string) :
  (alter (with_classList (token_remove c)) n h !! m ≫= λ e, attributes e !! b)
  = h !! m ≫= λ e, attributes e !! b.
Proof.
  destruct (decide (n = m)) as [->|Hne].
  - rewrite lookup_alter_eq. by destruct (h !! m).
  - by rewrite lookup_alter_ne.
Qed.

Lemma lookup_set_attribute_class (h : gmap node element) (n m : node) (a v : string) :
  classList <$> alter (with_attributes <[a := v]>) n h !! m = classList <$> h !! m.
Proof.
  destruct (decide (n = m)) as [->|Hne].
  - rewrite lookup_alter_eq. by destruct (h !! m).
  - by rewrite lookup_alter_ne.
Qed.

Lemma lookup_with_classList (h : gmap node element) (n : node)
    (f : list string → list string) :
  classList <$> alter (with_classList f) n h !! n = f <$> (classList <$> h !! n).
Proof. rewrite lookup_alter_eq. by destruct (h !! n). Qed.

Lemma token_remove_add (c : string) (l : list string) :
  c ∉ l → token_remove c (token_add c l) = l.
Proof.
  intros Hc. unfold token_add, token_remove. rewrite bool_decide_eq_false_2 by done.
  rewrite filter_app, filter_cons_False, filter_nil, app_nil_r by (intros ?; done).
  induction l as [|x l IH]; [done|].
  apply not_elem_of_cons in Hc as [Hx Hl].
  rewrite filter_cons_True by done. by rewrite IH.
Qed.

Section LightboxRuns.

Context (absolute : string → string).

(** What the click on an item writes, in one equation. *)
Lemma item_onClick_run (lb : node) (lbImg : option node) (item : node) (w : world) :
  let full :=
    match truthy (attribute_of w item "data-full") with
    | Some f => f
    | None =>
        match first_tag_in w item "img" with
        | Some t =>
            match attribute_of w t "src" with
            | Some s => absolute s
            | None => ""
            end
        | None => ""
        end
    end in
  (item_onClick absolute lb lbImg item w).1 = Normal ()
  ∧ heap (item_onClick absolute lb lbImg item w).2
    = alter (with_attributes <["aria-hidden" := "false"]>) lb
        (alter (with_classList (token_add "show")) lb
           (match lbImg with
            | Some i => alter (with_attributes <["src" := full]>) i (heap w)
            | None => heap w
            end)).
Proof.
  unfold item_onClick, attribute_of, first_tag_in, querySelectorTagIn, src_of.
  cbv [mbind M_bind mret M_ret getAttribute setAttribute classList_add gets modify].
  destruct (truthy (option_bind _ _ _ (heap w !! item))) as [f|] eqn:Hfull;
    cbn [fst snd].
  - assert (truthy (Some f) = Some f) as ->.
    { destruct (option_bind _ _ _ (heap w !! item)) as [[|c s]|];
        cbn in Hfull; by simplify_eq. }
    cbn. destruct lbImg; cbn; by rewrite ?heap_with_heap.
  - destruct (head _) as [t|]; cbn [fst snd].
    + destruct (option_bind _ _ _ (heap w !! t)) as [s|]; cbn [fst snd].
      * destruct (absolute s) as [|c r] eqn:Habs; cbn; destruct lbImg; cbn;
          by rewrite ?heap_with_heap.
      * cbn. destruct lbImg; cbn; by rewrite ?heap_with_heap.
    + cbn. destruct lbImg; cbn; by rewrite ?heap_with_heap.
Qed.

Lemma close_run (lb : node) (lbImg : option node) (w : world) :
  (close lb lbImg w).1 = Normal ()
  ∧ heap (close lb lbImg w).2
    = (match lbImg with
       | Some i => alter (with_attributes <["src" := ""]>) i
       | None => λ h, h
       end)
        (alter (with_attributes <["aria-hidden" := "true"]>) lb
           (alter (with_classList (token_remove "show")) lb (heap w))).
Proof.
  unfold close.
  cbv [mbind M_bind mret M_ret setAttribute classList_remove modify].
  destruct lbImg; cbn; by rewrite ?heap_with_heap.
Qed.

End LightboxRuns.

(** X18. A click on a portfolio item opens the lightbox: it gets the class
    [show] and [aria-hidden] becomes [false].  When the item names a
    full-size picture in [data-full], that is what the lightbox image
    shows, whatever thumbnail the item holds. *)
Theorem item_click_shows_full_picture (absolute : string → string) (w : world)
    (lb i item : node) (full : string) :
  is_Some (heap w !! lb) → is_Some (heap w !! i) →
  attribute_of w item "data-full" = Some full → full ≠ "" →
  let w' := final (item_onClick absolute lb (Some i) item) w in
  result (item_onClick absolute lb (Some i) item) w = Normal ()
  ∧ "show" ∈ class_of w' lb
  ∧ attribute_of w' lb "aria-hidden" = Some "false"
  ∧ attribute_of w' i "src" = Some full.
Proof.
  intros [l Hl] [e He] Hfull Hne w'.
  destruct (item_onClick_run absolute lb (Some i) item w) as [Hres Hheap].
  rewrite Hfull in Hheap.
  assert (truthy (Some full) = Some full) as Htruthy by by destruct full.
  rewrite Htruthy in Hheap.
  split; [exact Hres|]. unfold class_of, attribute_of, w', final. rewrite Hheap.
  split; [|split].
  - rewrite lookup_set_attribute_class, lookup_alter_eq.
    destruct (decide (i = lb)) as [->|Hi].
    + rewrite lookup_alter_eq, Hl. cbn. apply elem_of_token_add. by left.
    + rewrite lookup_alter_ne, Hl by done. cbn. apply elem_of_token_add. by left.
  - rewrite lookup_set_attribute, bool_decide_eq_true_2; [done|].
    split; [done|]. split; [done|].
    rewrite lookup_alter_eq.
    destruct (decide (i = lb)) as [->|Hi].
    + rewrite lookup_alter_eq, Hl. by eexists.
    + rewrite lookup_alter_ne, Hl by done. by eexists.
  - rewrite lookup_set_attribute, bool_decide_eq_false_2
      by (intros (_ & ? & _); done).
    rewrite lookup_add_class_attribute, lookup_set_attribute, bool_decide_eq_true_2; [done|].
    rewrite He. split; [done|]. split; [done|]. by eexists.
Qed.

Lemma item_click_shows_full_picture_witness :
  attribute_of (final (item_onClick (λ s, "https://onfix.example/" +:+ s) 4 (Some 5) 0)
                  portfolio_page) 5 "src"
  = Some "big.jpg".
Proof.
  destruct (item_click_shows_full_picture (λ s, "https://onfix.example/" +:+ s)
              portfolio_page 4 5 0 "big.jpg") as (_ & _ & _ & Hsrc).
  - vm_compute. by eexists.
  - vm_compute. by eexists.
  - vm_compute; reflexivity.
  - discriminate.
  - exact Hsrc.
Defined.

(** X19. Without a usable [data-full] the click falls back to the item's
    first [img]: the lightbox image shows that thumbnail's resolved address.
    With no [img] in the item, or one whose address is empty, the lightbox
    opens with an empty image address. *)
Theorem item_click_falls_back_to_thumbnail (absolute : string → string) (w : world)
    (lb i item : node) :
  is_Some (heap w !! i) →
  truthy (attribute_of w item "data-full") = None →
  let w' := final (item_onClick absolute lb (Some i) item) w in
  (∀ t s, first_tag_in w item "img" = Some t → attribute_of w t "src" = Some s →
          attribute_of w' i "src" = Some (absolute s))
  ∧ (first_tag_in w item "img" = None → attribute_of w' i "src" = Some "").
Proof.
  intros [e He] Hfull w'.
  destruct (item_onClick_run absolute lb (Some i) item w) as [_ Hheap].
  rewrite Hfull in Hheap.
  assert (∀ full,
            (alter (with_attributes <["aria-hidden" := "false"]>) lb
               (alter (with_classList (token_add "show")) lb
                  (alter (with_attributes <["src" := full]>) i (heap w))) !! i
             ≫= λ e, attributes e !! "src") = Some full) as Hsrc.
  { intros full.
    rewrite lookup_set_attribute, bool_decide_eq_false_2 by (intros (_ & ? & _); done).
    rewrite lookup_add_class_attribute, lookup_set_attribute, bool_decide_eq_true_2; [done|].
    rewrite He. split; [done|]. split; [done|]. by eexists. }
  unfold attribute_of at 2 3, w', final. rewrite Hheap. split.
  - intros t s -> ->. apply Hsrc.
  - intros ->. apply Hsrc.
Qed.

Lemma item_click_falls_back_to_thumbnail_witness :
  attribute_of (final (item_onClick (λ s, "https://onfix.example/" +:+ s) 4 (Some 5) 2)
                  portfolio_page) 5 "src"
  = Some "https://onfix.example/thumb.jpg".
Proof.
  destruct (item_click_falls_back_to_thumbnail (λ s, "https://onfix.example/" +:+ s)
              portfolio_page 4 5 2) as (Hthumb & _).
  - vm_compute. by eexists.
  - vm_compute; reflexivity.
  - apply (Hthumb 3 "thumb.jpg"); vm_compute; reflexivity.
Defined.

(** X20. Closing undoes opening: after a click on an item and then
    [close], a lightbox that was closed before has the class list it had,
    [aria-hidden] is [true] and the lightbox image has an empty address. *)
Theorem close_undoes_item_click (absolute : string → string) (w : world)
    (lb i item : node) (l : element) :
  heap w !! lb = Some l → is_Some (heap w !! i) →
  "show" ∉ classList l →
  let opened := final (item_onClick absolute lb (Some i) item) w in
  let closed := final (close lb (Some i)) opened in
  result (close lb (Some i)) opened = Normal ()
  ∧ class_of closed lb = classList l
  ∧ attribute_of closed lb "aria-hidden" = Some "true"
  ∧ attribute_of closed i "src" = Some "".
Proof.
  intros Hl [e He] Hshow opened closed.
  destruct (item_onClick_run absolute lb (Some i) item w) as [_ Hopened].
  destruct (close_run lb (Some i) opened) as [Hres Hclosed].
  split; [exact Hres|].
  unfold class_of, attribute_of, closed, final. rewrite Hclosed.
  unfold opened, final. rewrite Hopened. clear Hopened Hclosed Hres opened closed.
  set (full := match truthy _ with Some f => f | None => _ end). clearbody full.
  split; [|split].
  - rewrite !lookup_set_attribute_class, lookup_with_classList.
    rewrite lookup_set_attribute_class, lookup_with_classList.
    rewrite lookup_set_attribute_class, Hl. cbn. f_equal. by apply token_remove_add.
  - rewrite lookup_set_attribute, bool_decide_eq_false_2 by (intros (_ & ? & _); done).
    rewrite lookup_set_attribute, bool_decide_eq_true_2; [done|].
    split; [done|]. split; [done|]. rewrite !lookup_alter_is_Some. by eexists.
  - rewrite lookup_set_attribute, bool_decide_eq_true_2; [done|].
    split; [done|]. split; [done|]. rewrite !lookup_alter_is_Some. by eexists.
Qed.

Lemma close_undoes_item_click_witness :
  class_of (final (close 4 (Some 5))
              (final (item_onClick (λ s, s) 4 (Some 5) 0) portfolio_page)) 4
  = ["lightbox"].
Proof.
  destruct (close_undoes_item_click (λ s, s) portfolio_page 4 5 0
              (plain "div" (Some "pfLightbox") ["lightbox"] [])) as (_ & Hclass & _).
  - vm_compute; reflexivity.
  - vm_compute. by eexists.
  - vm_compute. intros Hin. by repeat (apply elem_of_cons in Hin as [?|Hin]; [done|]);
      apply elem_of_nil in Hin.
  - exact Hclass.
Defined.

Lemma heap_with_listeners f (w : world) : heap (with_listeners f w) = heap w.
Proof. by destruct w. Qed.

Lemma order_with_listeners f (w : world) : order (with_listeners f w) = order w.
Proof. by destruct w. Qed.

Lemma forEach_from_item_listeners (lb : node) (lbImg : option node) (items : list node)
    (k : nat) (w : world) :
  forEach_from k items (λ item _,
      addEventListener (Node item) "click" (ItemClick lb lbImg item);;
      addEventListener (Node item) "keydown" (ItemEnter item)) w
  = (Normal (),
     with_listeners (λ ls, ls ++ flat_map (λ item, [(Node item, "click", ItemClick lb lbImg item);
                                                    (Node item, "keydown", ItemEnter item)])
                                    items) w).
Proof.
  revert k w. induction items as [|item items IH]; intros k w.
  - destruct w; cbv [with_listeners mret M_ret]; cbn. by rewrite app_nil_r.
  - cbn [forEach_from]. cbv [mbind M_bind addEventListener modify]. rewrite IH.
    destruct w; cbv [with_listeners]; cbn. by rewrite <- !app_assoc.
Qed.

(** X21. What [initPortfolioLightbox] wires.  Without an element
    [pfLightbox] nothing happens, also when the page has portfolio items.
    With it, every [.portfolio-item] of the document gets a click and a
    keydown listener, in document order, all bound to this one lightbox and
    its image; then the close button, if the lightbox has one, and the
    lightbox itself get their click listeners.  The document is not
    touched. *)
Theorem initPortfolioLightbox_wires (w : world) :
  initPortfolioLightbox w
  = match element_by_id w "pfLightbox" with
    | None => (Normal (), w)
    | Some lb =>
        let lbImg := head (matches_in w lb [SelClass "lb-img"]) in
        (Normal (),
         with_listeners
           (λ ls, ls
                  ++ flat_map (λ item, [(Node item, "click", ItemClick lb lbImg item);
                                        (Node item, "keydown", ItemEnter item)])
                       (all_matches w [SelClass "portfolio-item"])
                  ++ registration (head (matches_in w lb [SelClass "close-lb"])) "click"
                       (λ _, CloseLightbox lb lbImg)
                  ++ [(Node lb, "click", BackdropClick lb lbImg)]) w)
    end.
Proof.
  unfold initPortfolioLightbox, matches_in, all_matches.
  erewrite bind_normal by apply getElementById_run.
  destruct (element_by_id w "pfLightbox") as [lb|]; [|done].
  erewrite bind_normal by reflexivity.
  erewrite bind_normal by reflexivity.
  erewrite bind_normal by apply forEach_from_item_listeners.
  erewrite bind_normal by reflexivity. cbv beta.
  rewrite heap_with_listeners, order_with_listeners.
  destruct (head (filter (λ n, selects (heap w) [SelClass "close-lb"] n
                               && inside (heap w) lb n = true) (order w))) as [b|];
    cbv [mbind M_bind mret M_ret addEventListener modify registration];
    destruct w; cbv [with_listeners]; cbn; by rewrite <- ?app_assoc.
Qed.

(** ** The services scroller *)

Lemma keeps_heap_observeLazy_if_defined : keeps heap observeLazy_if_defined.
Proof.
  unfold observeLazy_if_defined. apply keeps_bind; [apply keeps_gets|].
  intros [io|]; [|apply keeps_ret]. unfold observeLazy_call. kept.
Qed.

Lemma keeps_listeners_observeLazy_if_defined : keeps listeners observeLazy_if_defined.
Proof.
  unfold observeLazy_if_defined. apply keeps_bind; [apply keeps_gets|].
  intros [io|]; [|apply keeps_ret]. unfold observeLazy_call. kept.
Qed.

Lemma first_match_in_heap (w : world) (sels : list selector) (n : node) :
  first_match w sels = Some n → is_Some (heap w !! n).
Proof.
  intros Hn. apply head_Some_elem_of, list_elem_of_filter in Hn as [Hn _].
  unfold selects in Hn. by destruct (heap w !! n).
Qed.

(** X22. [initServicesScroller] makes the scroller focusable and hears its
    wheel and its keys: afterwards the first element matching
    [.services-scroll, #servicesScroll] has a non-empty [tabindex], the one
    it had if it had one, [0] otherwise, and a wheel and a keydown listener
    are registered on it. *)
Theorem services_scroller_is_focusable (w : world) (sw : node) :
  first_match w [SelClass "services-scroll"; SelId "servicesScroll"] = Some sw →
  let w' := final initServicesScroller w in
  result initServicesScroller w = Normal ()
  ∧ (∃ t, attribute_of w' sw "tabindex" = Some t ∧ t ≠ ""
          ∧ (∀ t0, attribute_of w sw "tabindex" = Some t0 → t0 ≠ "" → t = t0)
          ∧ (truthy (attribute_of w sw "tabindex") = None → t = "0"))
  ∧ OnWheel sw ∈ listeners_for (Node sw) "wheel" (listeners w')
  ∧ OnArrowKey sw ∈ listeners_for (Node sw) "keydown" (listeners w').
Proof.
  intros Hsw w'.
  pose proof (first_match_in_heap _ _ _ Hsw) as [e He].
  split.
  { destruct (silent_never_normal initServicesScroller w silent_initServicesScroller)
      as (w1 & Hrun & _).
    unfold result. by rewrite Hrun. }
  set (prevBtn := first_match w [SelClass "svc-prev"; SelId "svc-prev"]).
  set (nextBtn := first_match w [SelClass "svc-next"; SelId "svc-next"]).
  set (t := default "0" (truthy (attribute_of w sw "tabindex"))).
  set (added := registration prevBtn "click" (λ _, ScrollByCard sw (-1))
                ++ registration nextBtn "click" (λ _, ScrollByCard sw 1)
                ++ [(Node sw, "wheel", OnWheel sw); (Node sw, "keydown", OnArrowKey sw)]).
  assert (w' = (observeLazy_if_defined
                  (with_heap (alter (with_attributes <["tabindex" := t]>) sw)
                     (with_listeners (λ ls, ls ++ added) w))).2) as Hw'.
  { unfold w', final, initServicesScroller.
    unfold first_match in Hsw.
    cbv [querySelector querySelectorAll].
    cbv [mbind M_bind mret M_ret gets]. cbn [fst snd]. rewrite Hsw.
    unfold t, added, prevBtn, nextBtn, first_match, attribute_of.
    destruct (head (filter (λ n, selects (heap w) [SelClass "svc-prev"; SelId "svc-prev"] n
                                 = true) (order w))) as [p|];
      destruct (head (filter (λ n, selects (heap w) [SelClass "svc-next"; SelId "svc-next"] n
                                   = true) (order w))) as [x|];
      cbv [addEventListener getAttribute setAttribute modify gets registration];
      destruct w; cbv [with_listeners with_heap]; cbn; by rewrite <- ?app_assoc. }
  assert (heap w' = alter (with_attributes <["tabindex" := t]>) sw (heap w)) as Hheap.
  { rewrite Hw', keeps_heap_observeLazy_if_defined. by destruct w. }
  assert (listeners w' = listeners w ++ added) as Hlisteners.
  { rewrite Hw', keeps_listeners_observeLazy_if_defined. by destruct w. }
  split; [|split].
  - exists t. unfold attribute_of at 1. rewrite Hheap, lookup_alter_eq, He. cbn.
    rewrite lookup_insert_eq. split; [done|]. unfold t.
    destruct (attribute_of w sw "tabindex") as [[|c s]|]; cbn.
    + split; [done|]. split; [by intros ? [= <-] | done].
    + split; [done|]. split; [by intros ? [= <-] | done].
    + split; [done|]. split; [done | done].
  - rewrite Hlisteners, listeners_for_app. apply elem_of_app; right.
    unfold added. rewrite !listeners_for_app. do 2 (apply elem_of_app; right).
    unfold listeners_for; cbn. rewrite bool_decide_eq_true_2 by done. constructor.
  - rewrite Hlisteners, listeners_for_app. apply elem_of_app; right.
    unfold added. rewrite !listeners_for_app. do 2 (apply elem_of_app; right).
    unfold listeners_for; cbn. rewrite bool_decide_eq_false_2 by (intros [_ ?]; done).
    rewrite bool_decide_eq_true_2 by done. constructor.
Qed.

Lemma services_scroller_is_focusable_witness :
  attribute_of (final initServicesScroller (scroller_page (Some "3"))) 0 "tabindex" = Some "3"
  ∧ attribute_of (final initServicesScroller (scroller_page None)) 0 "tabindex" = Some "0".
Proof.
  split.
  - destruct (services_scroller_is_focusable (scroller_page (Some "3")) 0)
      as (_ & (t & Ht & _ & Hkeep & _) & _); [vm_compute; reflexivity|].
    rewrite Ht. f_equal. by apply Hkeep; [vm_compute; reflexivity|].
  - destruct (services_scroller_is_focusable (scroller_page None) 0)
      as (_ & (t & Ht & _ & _ & Hzero) & _); [vm_compute; reflexivity|].
    rewrite Ht. f_equal. apply Hzero. vm_compute; reflexivity.
Defined.

(** ** More on the two links *)







(** *** Submitting after [initOrderForm] *)

Lemma count_opens_app (a b : list event) :
  count_opens (a ++ b) = count_opens a + count_opens b.
Proof. unfold count_opens. by rewrite filter_app, length_app. Qed.

Lemma listeners_run_open (runs : list (M unit)) (w : world) :
  Forall cancels runs →
  ∃ w',
    for_of runs (λ run, try_catch run (λ err, emit (Uncaught err))) w = (Normal (), w')
    ∧ count_opens (trace w') = count_opens (trace w) + length runs
    ∧ (runs ≠ [] → defaultPrevented w' = true).
Proof.
  intros Hall. revert w. induction Hall as [|run runs Hrun _ IH]; intros w.
  - exists w. cbn. split; [done|]. split; [by rewrite Nat.add_0_r | done].
  - destruct (Hrun w) as [url Hw].
    destruct (IH (log [PreventDefault; WindowOpen url "_blank"]
                      (with_defaultPrevented true w))) as (w' & Hrest & Hcount & Hprevented).
    exists w'. split; [|split].
    + cbn [for_of]. cbv [mbind M_bind try_catch]. rewrite Hw. exact Hrest.
    + rewrite Hcount. replace (trace (log _ (with_defaultPrevented true w)))
        with (trace w ++ [PreventDefault; WindowOpen url "_blank"]) by by destruct w.
      rewrite count_opens_app.
      assert (count_opens [PreventDefault; WindowOpen url "_blank"] = 1) as -> by reflexivity.
      cbn [length]. lia.
    + intros _. destruct runs as [|r rs]; [|by apply Hprevented].
      cbn in Hrest. injection Hrest as <-. by destruct w.
Qed.

(** A submission opens one link per submit handler on the form. *)
Lemma submit_opens (w : world) (form : node) :
  let runs := omap submit_listener (listeners_for (Node form) "submit" (listeners w)) in
  Forall cancels runs → runs ≠ [] →
  count_opens (trace (final (submit form) w)) = count_opens (trace w) + length runs.
Proof.
  intros runs Hall Hne.
  destruct (listeners_run_open runs (with_defaultPrevented false w) Hall)
    as (w' & Hruns & Hcount & Hprevented).
  assert (submit form w = (Normal (), w')) as Hsubmit.
  { unfold submit. cbv [mbind M_bind modify gets].
    replace (listeners (with_defaultPrevented false w)) with (listeners w) by by destruct w.
    fold runs. rewrite Hruns. by rewrite (Hprevented Hne). }
  unfold final. rewrite Hsubmit. cbn [snd]. rewrite Hcount. by destruct w.
Qed.

Lemma initOrderForm_run (w : world) :
  initOrderForm w
  = (Normal (),
     with_listeners
       (λ ls, ls ++ registration (element_by_id w "orderForm") "submit" OrderSubmit
                 ++ registration (element_by_id w "contactForm") "submit" ContactSubmit
                 ++ registration (first_match w [SelId "btn-wa"]) "click" (λ _, QuickWa)) w).
Proof.
  unfold element_by_id, first_match, initOrderForm. destruct w. run.
  cbv [addEventListener modify with_listeners]; cbn.
  destruct (head (filter (λ n, selects heap0 [SelId "orderForm"] n = true) order0)); cbn;
    destruct (head (filter (λ n, selects heap0 [SelId "contactForm"] n = true) order0)); cbn;
    destruct (head (filter (λ n, selects heap0 [SelId "btn-wa"] n = true) order0)); cbn;
    rewrite <- ?app_assoc, ?app_nil_r; reflexivity.
Qed.

Lemma element_by_id_ident (w : world) (i : string) (n : node) :
  element_by_id w i = Some n → ∃ e, heap w !! n = Some e ∧ ident e = Some i.
Proof.
  intros Hn. apply head_Some_elem_of, list_elem_of_filter in Hn as [Hn _].
  unfold selects in Hn. destruct (heap w !! n) as [e|]; [|done].
  exists e. split; [done|]. cbn in Hn. rewrite orb_false_r in Hn.
  by apply bool_decide_eq_true in Hn as [? _].
Qed.

(** The submit handlers [initOrderForm] puts on the order form [f]: its
    own and no other. *)
Lemma order_form_registrations (w : world) (f : node) :
  element_by_id w "orderForm" = Some f →
  listeners_for (Node f) "submit"
    (registration (element_by_id w "orderForm") "submit" OrderSubmit
     ++ registration (element_by_id w "contactForm") "submit" ContactSubmit
     ++ registration (first_match w [SelId "btn-wa"]) "click" (λ _, QuickWa))
  = [OrderSubmit f].
Proof.
  intros Hf. rewrite Hf, !listeners_for_app.
  assert (listeners_for (Node f) "submit"
            (registration (element_by_id w "contactForm") "submit" ContactSubmit) = [])
    as ->.
  { destruct (element_by_id w "contactForm") as [g|] eqn:Hg; [|done].
    unfold listeners_for; cbn. rewrite bool_decide_eq_false_2; [done|].
    intros [[= ->] _].
    apply element_by_id_ident in Hf as (e & He & Hi).
    apply element_by_id_ident in Hg as (e' & He' & Hi'). by simplify_eq. }
  assert (listeners_for (Node f) "submit"
            (registration (first_match w [SelId "btn-wa"]) "click" (λ _, QuickWa)) = [])
    as ->.
  { destruct (first_match w [SelId "btn-wa"]) as [b|]; [|done].
    unfold listeners_for; cbn. rewrite bool_decide_eq_false_2; [done|]. by intros [_ ?]. }
  unfold listeners_for; cbn. by rewrite bool_decide_eq_true_2.
Qed.

(** X25. [initOrderForm] has no guard against a second call: every call
    adds a submit handler of its own.  On a form that had none, one call
    makes a submission open one link, and two calls make the same
    submission open two. *)
Theorem initOrderForm_twice_opens_two_tabs (w : world) (f : node) :
  element_by_id w "orderForm" = Some f →
  listeners_for (Node f) "submit" (listeners w) = [] →
  let once := final initOrderForm w in
  let twice := final initOrderForm once in
  count_opens (trace (final (submit f) once)) = count_opens (trace once) + 1
  ∧ count_opens (trace (final (submit f) twice)) = count_opens (trace twice) + 2.
Proof.
  intros Hf Hnone once twice.
  assert (∀ w0 g i, element_by_id (with_listeners g w0) i = element_by_id w0 i) as Hid
    by by intros [].
  assert (∀ w0 g sels, first_match (with_listeners g w0) sels = first_match w0 sels) as Hfirst
    by by intros [].
  assert (∀ w0 g, listeners (with_listeners g w0) = g (listeners w0)) as Hls by by intros [].
  assert (listeners_for (Node f) "submit" (listeners once) = [OrderSubmit f]) as Honce.
  { unfold once, final. rewrite initOrderForm_run. cbn [snd].
    rewrite Hls, listeners_for_app, Hnone. by apply order_form_registrations. }
  assert (listeners_for (Node f) "submit" (listeners twice)
          = [OrderSubmit f; OrderSubmit f]) as Htwice.
  { unfold twice, final. rewrite (initOrderForm_run once). cbn [snd].
    rewrite Hls, listeners_for_app, Honce.
    unfold once, final. rewrite initOrderForm_run. cbn [snd].
    rewrite !Hid, !Hfirst. by rewrite order_form_registrations. }
  split.
  - rewrite submit_opens; rewrite Honce; [done| |done].
    repeat constructor; apply orderForm_onSubmit_cancels.
  - rewrite submit_opens; rewrite Htwice; [done| |done].
    repeat constructor; apply orderForm_onSubmit_cancels.
Qed.

Lemma initOrderForm_twice_opens_two_tabs_witness :
  count_opens (trace (final (submit 0) (final initOrderForm wired_order_page))) = 2.
Proof.
  destruct (initOrderForm_twice_opens_two_tabs dina_order_page 0) as [_ Htwice].
  - vm_compute; reflexivity.
  - vm_compute; reflexivity.
  - exact Htwice.
Defined.
